(** * Crossword CSP solver (generate.py): embedding and verification

    The development embeds the class [CrosswordCreator] of [generate.py]:
    node consistency, [compare_domain], [revise], AC-3, the consistency
    check and the backtracking search.

    Modelling conventions.
    - A Python [str] is a [string]; [len] is [String.length] and [s[k]] is
      [String.get], which raises [IndexError] out of range.
    - A Python [set] is a list without duplicates; iterating the set visits
      the list from left to right.  [set.pop()] removes an arbitrary
      element: the model takes the choice as a parameter [pick].
    - A Python [dict] is an association list in insertion order (the order
      in which [items()] visits it).  A missing key raises [KeyError].
    - Exceptions are the constructor [Raise] of [outcome].  The loops of
      [ac3] and the recursion of [backtrack] run on fuel; [OutOfFuel] is not
      a Python outcome and is shown never to be produced. *)

From Stdlib Require Import List Arith Bool Lia String Ascii Permutation Sorted.
Import ListNotations.

(** ** Outcomes of fallible code *)

Inductive exn : Type := KeyError | IndexError | TypeError.

Inductive outcome (A : Type) : Type :=
| Ok (a : A)
| Raise (e : exn)
| OutOfFuel.

Arguments Ok {A} a.
Arguments Raise {A} e.
Arguments OutOfFuel {A}.

Definition bind {A B : Type} (m : outcome A) (k : A -> outcome B) : outcome B :=
  match m with
  | Ok a => k a
  | Raise e => Raise e
  | OutOfFuel => OutOfFuel
  end.

Declare Scope outcome_scope.
Delimit Scope outcome_scope with outcome.
Notation "x <- m ;; k" := (bind m (fun x => k))
  (at level 61, m at next level, right associativity) : outcome_scope.
Open Scope outcome_scope.

(** ** Variables (word slots) of crossword.py *)

Module Var.

Inductive Direction : Type := ACROSS | DOWN.

Record t : Type := mk { i : nat; j : nat; direction : Direction; length : nat }.

Definition direction_eqb (d1 d2 : Direction) : bool :=
  match d1, d2 with
  | ACROSS, ACROSS | DOWN, DOWN => true
  | _, _ => false
  end.

(** [Variable.__eq__]: all four attributes agree. *)
Definition eqb (v1 v2 : t) : bool :=
  (i v1 =? i v2) && (j v1 =? j v2) &&
  direction_eqb (direction v1) (direction v2) && (length v1 =? length v2).

Lemma eqb_spec (v1 v2 : t) : reflect (v1 = v2) (eqb v1 v2).
Proof.
  destruct v1 as [i1 j1 d1 l1], v2 as [i2 j2 d2 l2]; unfold eqb; simpl.
  destruct (Nat.eqb_spec i1 i2); simpl; [subst | constructor; congruence].
  destruct (Nat.eqb_spec j1 j2); simpl; [subst | constructor; congruence].
  destruct d1, d2; simpl; try (constructor; congruence);
    destruct (Nat.eqb_spec l1 l2); constructor; congruence.
Qed.

Lemma eqb_refl (v : t) : eqb v v = true.
Proof. destruct (eqb_spec v v); congruence. Qed.

Lemma eqb_eq (v1 v2 : t) : eqb v1 v2 = true <-> v1 = v2.
Proof. destruct (eqb_spec v1 v2); split; congruence. Qed.

Lemma eqb_neq (v1 v2 : t) : eqb v1 v2 = false <-> v1 <> v2.
Proof. destruct (eqb_spec v1 v2); split; congruence. Qed.

Definition eq_dec (v1 v2 : t) : {v1 = v2} + {v1 <> v2}.
Proof. destruct (eqb_spec v1 v2); [left | right]; assumption. Defined.

End Var.

(** ** Words *)

Definition Word : Type := string.

Definition len (w : Word) : nat := String.length w.

(** [w[k]] for a non-negative index. *)
Definition index (w : Word) (k : nat) : outcome ascii :=
  match String.get k w with
  | Some c => Ok c
  | None => Raise IndexError
  end.

Lemma get_Some_lt (w : string) (k : nat) : k < String.length w -> exists c, String.get k w = Some c.
Proof.
  revert k; induction w as [|a w IH]; simpl; intros k H; [lia|].
  destruct k; [eauto | apply IH; lia].
Qed.

Lemma get_Some_inv (w : string) (k : nat) (c : ascii) : String.get k w = Some c -> k < String.length w.
Proof.
  revert k; induction w as [|a w IH]; simpl; intros k H; [discriminate|].
  destruct k; [lia | apply IH in H; lia].
Qed.

Lemma index_in_bounds (w : Word) (k : nat) : k < len w -> exists c, index w k = Ok c.
Proof.
  intros H; destruct (get_Some_lt w k H) as [c Hc]; exists c; unfold index; now rewrite Hc.
Qed.

Lemma index_Ok (w : Word) (k : nat) (c : ascii) : index w k = Ok c <-> String.get k w = Some c.
Proof. unfold index; destruct (String.get k w); split; congruence. Qed.

(** ** Sets as duplicate-free lists *)

Section SetOps.
Context {A : Type}.
Variable eqbA : A -> A -> bool.

Definition mem (a : A) (l : list A) : bool := existsb (eqbA a) l.

(** [s.remove(a)] on a set that holds [a]. *)
Fixpoint set_remove (a : A) (l : list A) : list A :=
  match l with
  | [] => []
  | b :: l' => if eqbA a b then set_remove a l' else b :: set_remove a l'
  end.

Definition set_add (l : list A) (a : A) : list A :=
  if mem a l then l else l ++ [a].

(** [s.union(t)] *)
Definition set_union (l1 l2 : list A) : list A := fold_left set_add l2 l1.

(** [s - t] *)
Definition set_diff (l1 l2 : list A) : list A :=
  filter (fun a => negb (mem a l2)) l1.

End SetOps.

(** ** The puzzle *)

(** Modelled from the spec: crossword.py (the classes [Variable] and
    [Crossword]) is not part of the sources.  The puzzle gives the set of
    variables, the word list and the overlap of two variables; [overlaps]
    is a dictionary keyed by ordered pairs of distinct variables, and the
    neighbors of a variable are the other variables with an overlap. *)
Record Crossword : Type := {
  variables : list Var.t;
  words : list Word;
  overlap_map : Var.t -> Var.t -> option (nat * nat)
}.

Definition overlaps (cw : Crossword) (x y : Var.t) : outcome (option (nat * nat)) :=
  if mem Var.eqb x (variables cw) && mem Var.eqb y (variables cw) && negb (Var.eqb x y)
  then Ok (overlap_map cw x y)
  else Raise KeyError.

Definition is_some {A : Type} (o : option A) : bool :=
  match o with Some _ => true | None => false end.

Definition neighbors (cw : Crossword) (var : Var.t) : list Var.t :=
  filter (fun v => negb (Var.eqb v var) && is_some (overlap_map cw v var)) (variables cw).

(** ** Dictionaries *)

Definition dict (V : Type) : Type := list (Var.t * V).

Section Dict.
Context {V : Type}.

Definition keys (d : dict V) : list Var.t := map fst d.

(** [d[k]] *)
Fixpoint dict_get (d : dict V) (k : Var.t) : outcome V :=
  match d with
  | [] => Raise KeyError
  | (k', v) :: d' => if Var.eqb k k' then Ok v else dict_get d' k
  end.

(** [d[k] = v] *)
Fixpoint dict_set (d : dict V) (k : Var.t) (v : V) : dict V :=
  match d with
  | [] => [(k, v)]
  | (k', v') :: d' => if Var.eqb k k' then (k', v) :: d' else (k', v') :: dict_set d' k v
  end.

(** [d.pop(k)] (the value is discarded by the caller) *)
Fixpoint dict_pop (d : dict V) (k : Var.t) : outcome (dict V) :=
  match d with
  | [] => Raise KeyError
  | (k', v') :: d' =>
      if Var.eqb k k' then Ok d'
      else d'' <- dict_pop d' k ;; Ok ((k', v') :: d'')
  end.

End Dict.

Definition Domains : Type := dict (list Word).
Definition Assignment : Type := dict Word.

(** The solver object: [self.crossword] and [self.domains]. *)
Record CrosswordCreator : Type := {
  crossword : Crossword;
  domains : Domains
}.

(** [__init__] *)
Definition init (cw : Crossword) : CrosswordCreator :=
  {| crossword := cw; domains := map (fun var => (var, words cw)) (variables cw) |}.

Definition set_domains (self : CrosswordCreator) (d : Domains) : CrosswordCreator :=
  {| crossword := crossword self; domains := d |}.

(** ** Node consistency *)

(** The inner loop: [for test_word in words.copy(): ...] *)
Definition node_filter (var : Var.t) (ws : list Word) : list Word :=
  fold_left
    (fun acc test_word =>
       if negb (Var.length var =? len test_word)
       then set_remove String.eqb test_word acc
       else acc)
    ws ws.

Definition enforce_node_consistency (self : CrosswordCreator) : CrosswordCreator :=
  set_domains self (map (fun '(var, ws) => (var, node_filter var ws)) (domains self)).

(** ** Arc consistency *)

(** The inner loop of [compare_domain]: is there a [yword] consistent with
    [xword]?  The result is the final value of the flag [consistent]. *)
Fixpoint find_support (x y : nat) (xword : Word) (ywords : list Word) : outcome bool :=
  match ywords with
  | [] => Ok false
  | yword :: rest =>
      if (len yword <? y) || String.eqb xword yword
      then find_support x y xword rest
      else
        c1 <- index xword x ;;
        c2 <- index yword y ;;
        if Ascii.eqb c1 c2 then Ok true else find_support x y xword rest
  end.

(** The outer loop of [compare_domain], over a copy [todo] of [xwords]. *)
Fixpoint compare_loop (x y : nat) (todo xwords ywords : list Word) : outcome (list Word) :=
  match todo with
  | [] => Ok xwords
  | xword :: rest =>
      if len xword <? x
      then compare_loop x y rest xwords ywords
      else
        c <- find_support x y xword ywords ;;
        if negb c
        then compare_loop x y rest (set_remove String.eqb xword xwords) ywords
        else compare_loop x y rest xwords ywords
  end.

Definition compare_domain (x y : nat) (xwords ywords : list Word) : outcome (list Word) :=
  compare_loop x y xwords xwords ywords.

(** [revise]: the new state and the returned flag.  The domains are only
    written on the last line, so an exception leaves them as they were. *)
Definition revise (self : CrosswordCreator) (x y : Var.t) : CrosswordCreator * outcome bool :=
  match overlaps (crossword self) x y with
  | Ok None => (self, Ok false)
  | Ok (Some (a, b)) =>
      match dict_get (domains self) x with
      | Ok xwords =>
          match dict_get (domains self) y with
          | Ok ywords =>
              match compare_domain a b xwords ywords with
              | Ok new_xwords =>
                  let revised := negb (List.length new_xwords =? List.length xwords) in
                  if revised
                  then (set_domains self (dict_set (domains self) x new_xwords), Ok true)
                  else (self, Ok false)
              | Raise e => (self, Raise e)
              | OutOfFuel => (self, OutOfFuel)
              end
          | Raise e => (self, Raise e)
          | OutOfFuel => (self, OutOfFuel)
          end
      | Raise e => (self, Raise e)
      | OutOfFuel => (self, OutOfFuel)
      end
  | Raise e => (self, Raise e)
  | OutOfFuel => (self, OutOfFuel)
  end.

Definition Arc : Type := (Var.t * Var.t)%type.

Definition arc_eqb (a1 a2 : Arc) : bool :=
  Var.eqb (fst a1) (fst a2) && Var.eqb (snd a1) (snd a2).

(** The seed of the queue: every [(var, v)] with [v] a neighbor of [var]. *)
Definition all_arcs (cw : Crossword) : list Arc :=
  fold_left
    (fun arcs var => set_union arc_eqb arcs (map (fun v => (var, v)) (neighbors cw var)))
    (variables cw) [].

(** [arcs.pop()]: the element at position [n] (modulo the size) and the rest. *)
Fixpoint pop_nth (n : nat) (a : Arc) (l : list Arc) : Arc * list Arc :=
  match n, l with
  | 0, _ => (a, l)
  | S n', [] => (a, l)
  | S n', b :: l' => let '(c, r) := pop_nth n' b l' in (c, a :: r)
  end.

Section AC3.
(** The choice made by [set.pop()]. *)
Variable pick : list Arc -> nat.

Definition set_pop (a : Arc) (l : list Arc) : Arc * list Arc :=
  pop_nth (pick (a :: l) mod S (List.length l)) a l.

Fixpoint ac3_loop (fuel : nat) (self : CrosswordCreator) (arcs : list Arc)
  : CrosswordCreator * outcome bool :=
  match fuel with
  | 0 => (self, OutOfFuel)
  | S fuel' =>
      match arcs with
      | [] => (self, Ok true)
      | a :: l =>
          let '((x, y), rest) := set_pop a l in
          match revise self x y with
          | (self', Ok true) =>
              match dict_get (domains self') x with
              | Ok xwords =>
                  if List.length xwords =? 0 then (self', Ok false)
                  else
                    ac3_loop fuel' self'
                      (set_union arc_eqb rest
                         (map (fun z => (z, x))
                            (set_diff Var.eqb (neighbors (crossword self') x) [y])))
              | Raise e => (self', Raise e)
              | OutOfFuel => (self', OutOfFuel)
              end
          | (self', Ok false) => ac3_loop fuel' self' rest
          | (self', Raise e) => (self', Raise e)
          | (self', OutOfFuel) => (self', OutOfFuel)
          end
      end
  end.

Definition total_size (d : Domains) : nat :=
  list_sum (map (fun e => List.length (snd e)) d).

Definition ac3_fuel (self : CrosswordCreator) (arcs : list Arc) : nat :=
  S (total_size (domains self) * S (List.length (variables (crossword self)))
     + List.length arcs).

(** [ac3(arcs)]; [None] is the default argument.  [if not arcs] holds for
    [None] and for an empty collection alike.  A collection that is given
    is a set: the loop calls [arcs.union]. *)
Definition ac3 (self : CrosswordCreator) (arcs : option (list Arc))
  : CrosswordCreator * outcome bool :=
  let queue :=
    match arcs with
    | None | Some [] => all_arcs (crossword self)
    | Some (a :: l) => a :: l
    end in
  ac3_loop (ac3_fuel self queue) self queue.

End AC3.

(** ** Backtracking search *)

(** [sorted(l, key=key, reverse=reverse)]: a stable sort. *)
Section Sorted.
Context {A : Type}.
Variable key : A -> nat.
Variable reverse : bool.

Definition goes_before (a b : A) : bool :=
  if reverse then key b <=? key a else key a <=? key b.

Fixpoint insert (a : A) (l : list A) : list A :=
  match l with
  | [] => [a]
  | b :: l' => if goes_before a b then a :: b :: l' else b :: insert a l'
  end.

Fixpoint sorted (l : list A) : list A :=
  match l with
  | [] => []
  | a :: l' => insert a (sorted l')
  end.

End Sorted.

(** A dictionary comprehension [{v: f(v) for v in vs}]. *)
Fixpoint dict_build {V : Type} (f : Var.t -> outcome V) (vs : list Var.t) : outcome (dict V) :=
  match vs with
  | [] => Ok []
  | v :: vs' => a <- f v ;; d <- dict_build f vs' ;; Ok ((v, a) :: d)
  end.

(** The key [lambda v: d[v]] of a sort over the keys of [d]. *)
Definition key_of (d : dict nat) (v : Var.t) : nat :=
  match dict_get d v with
  | Ok n => n
  | _ => 0
  end.

Definition assignment_complete (self : CrosswordCreator) (assignment : Assignment) : bool :=
  match set_diff Var.eqb (variables (crossword self)) (keys assignment) with
  | [] => true
  | _ :: _ => false
  end.

(** The inner loop of [consistent]: [word] of [var] against every other
    binding.  [Ok false] stands for [return False]. *)
Fixpoint consistent_inner (cw : Crossword) (var : Var.t) (word : Word) (items : Assignment)
  : outcome bool :=
  match items with
  | [] => Ok true
  | (nvar, nword) :: rest =>
      if negb (Var.eqb nvar var)
      then
        o <- overlaps cw nvar var ;;
        match o with
        | Some (a, b) =>
            c1 <- index nword a ;;
            c2 <- index word b ;;
            if negb (Ascii.eqb c1 c2) then Ok false
            else consistent_inner cw var word rest
        | None => consistent_inner cw var word rest
        end
      else consistent_inner cw var word rest
  end.

Fixpoint consistent_outer (cw : Crossword) (todo all : Assignment) : outcome bool :=
  match todo with
  | [] => Ok true
  | (var, word) :: rest =>
      if negb (len word =? Var.length var) then Ok false
      else
        ok <- consistent_inner cw var word all ;;
        if ok then consistent_outer cw rest all else Ok false
  end.

Definition consistent (self : CrosswordCreator) (assignment : Assignment) : outcome bool :=
  if negb (List.length assignment =? List.length (nodup string_dec (map snd assignment)))
  then Ok false
  else consistent_outer (crossword self) assignment assignment.

(** [ruled_out[our_word] += 1] over the words of one neighbor. *)
Fixpoint count_conflicts (our_word : Word) (x y : nat) (n_words : list Word) (acc : nat)
  : outcome nat :=
  match n_words with
  | [] => Ok acc
  | n_word :: rest =>
      c1 <- index our_word x ;;
      c2 <- index n_word y ;;
      count_conflicts our_word x y rest (if negb (Ascii.eqb c1 c2) then S acc else acc)
  end.

Fixpoint ruled_out_word (self : CrosswordCreator) (var : Var.t) (our_word : Word)
    (nb : list Var.t) (acc : nat) : outcome nat :=
  match nb with
  | [] => Ok acc
  | nvar :: rest =>
      o <- overlaps (crossword self) var nvar ;;
      match o with
      | Some (x, y) =>
          n_words <- dict_get (domains self) nvar ;;
          acc' <- count_conflicts our_word x y n_words acc ;;
          ruled_out_word self var our_word rest acc'
      | None => Raise TypeError
      end
  end.

Fixpoint ruled_out_all (self : CrosswordCreator) (var : Var.t) (ws : list Word)
    (nb : list Var.t) : outcome (list (Word * nat)) :=
  match ws with
  | [] => Ok []
  | our_word :: rest =>
      n <- ruled_out_word self var our_word nb 0 ;;
      t <- ruled_out_all self var rest nb ;;
      Ok ((our_word, n) :: t)
  end.

Definition order_domain_values (self : CrosswordCreator) (var : Var.t) (assignment : Assignment)
  : outcome (list Word) :=
  let nb := set_diff Var.eqb (neighbors (crossword self) var) (keys assignment) in
  ws <- dict_get (domains self) var ;;
  ruled_out <- ruled_out_all self var ws nb ;;
  Ok (map fst (sorted snd false ruled_out)).

Definition select_unassigned_variable (self : CrosswordCreator) (assignment : Assignment)
  : outcome Var.t :=
  let vars := set_diff Var.eqb (variables (crossword self)) (keys assignment) in
  num_vals <- dict_build (fun v => ws <- dict_get (domains self) v ;; Ok (List.length ws)) vars ;;
  let deg := map (fun v => (v, List.length (neighbors (crossword self) v))) vars in
  let s := sorted (key_of num_vals) false (sorted (key_of deg) true vars) in
  match s with
  | [] => Raise IndexError
  | v :: _ => Ok v
  end.

(** [if result:] on a value that is [None] or a dictionary. *)
Definition truthy (result : option Assignment) : bool :=
  match result with
  | Some (_ :: _) => true
  | _ => false
  end.

Arguments truthy : simpl never.

(** The state of a search: the solver object and the one assignment
    dictionary that every call mutates; a returned assignment is that same
    dictionary. *)
Definition search_result : Type :=
  (CrosswordCreator * Assignment * outcome (option Assignment))%type.

(** The loop [for value in ...] of [backtrack]; [rec] is the recursive call. *)
Fixpoint try_values (rec : CrosswordCreator -> Assignment -> search_result)
    (var : Var.t) (values : list Word) (self : CrosswordCreator) (assignment : Assignment)
  : search_result :=
  match values with
  | [] => (self, assignment, Ok None)
  | value :: rest =>
      let assignment1 := dict_set assignment var value in
      let undo (self' : CrosswordCreator) (assignment' : Assignment) : search_result :=
        match dict_pop assignment' var with
        | Ok assignment'' => try_values rec var rest self' assignment''
        | Raise e => (self', assignment', Raise e)
        | OutOfFuel => (self', assignment', OutOfFuel)
        end in
      match consistent self assignment1 with
      | Ok true =>
          match rec self assignment1 with
          | (self2, assignment2, Ok result) =>
              if truthy result then (self2, assignment2, Ok result)
              else undo self2 assignment2
          | (self2, assignment2, Raise e) => (self2, assignment2, Raise e)
          | (self2, assignment2, OutOfFuel) => (self2, assignment2, OutOfFuel)
          end
      | Ok false => undo self assignment1
      | Raise e => (self, assignment1, Raise e)
      | OutOfFuel => (self, assignment1, OutOfFuel)
      end
  end.

Fixpoint backtrack_fuel (fuel : nat) (self : CrosswordCreator) (assignment : Assignment)
  : search_result :=
  match fuel with
  | 0 => (self, assignment, OutOfFuel)
  | S fuel' =>
      if assignment_complete self assignment
      then (self, assignment, Ok (Some assignment))
      else
        match select_unassigned_variable self assignment with
        | Ok var =>
            match order_domain_values self var assignment with
            | Ok values => try_values (backtrack_fuel fuel') var values self assignment
            | Raise e => (self, assignment, Raise e)
            | OutOfFuel => (self, assignment, OutOfFuel)
            end
        | Raise e => (self, assignment, Raise e)
        | OutOfFuel => (self, assignment, OutOfFuel)
        end
  end.

(** The recursion is as deep as there are unassigned variables. *)
Definition unassigned (self : CrosswordCreator) (assignment : Assignment) : list Var.t :=
  set_diff Var.eqb (variables (crossword self)) (keys assignment).

Definition backtrack (self : CrosswordCreator) (assignment : Assignment) : search_result :=
  backtrack_fuel (S (List.length (unassigned self assignment))) self assignment.

(** ** The entry point *)

(** The method calls made by [solve], in order. *)
Inductive call : Type := Call_enforce_node_consistency | Call_ac3 | Call_backtrack.

Section Solve.
Variable pick : list Arc -> nat.

(** [solve]: the final solver object, the calls made and the result.
    The value returned by [ac3] is dropped. *)
Definition solve (self : CrosswordCreator)
  : CrosswordCreator * list call * outcome (option Assignment) :=
  let self1 := enforce_node_consistency self in
  match ac3 pick self1 None with
  | (self2, Ok _) =>
      let '(self3, _, r) := backtrack self2 [] in
      (self3, [Call_enforce_node_consistency; Call_ac3; Call_backtrack], r)
  | (self2, Raise e) => (self2, [Call_enforce_node_consistency; Call_ac3], Raise e)
  | (self2, OutOfFuel) => (self2, [Call_enforce_node_consistency; Call_ac3], OutOfFuel)
  end.

End Solve.

(** ** Rendering *)

(** [l[n]] and [l[n] = a] on a Python list, for a non-negative index. *)
Definition list_get {A : Type} (l : list A) (n : nat) : outcome A :=
  match nth_error l n with
  | Some a => Ok a
  | None => Raise IndexError
  end.

Fixpoint list_set {A : Type} (l : list A) (n : nat) (a : A) : outcome (list A) :=
  match l, n with
  | [], _ => Raise IndexError
  | _ :: l', 0 => Ok (a :: l')
  | b :: l', S n' => l'' <- list_set l' n' a ;; Ok (b :: l'')
  end.

(** The 2D array of [letter_grid]: rows of cells, [None] or a letter. *)
Definition Grid : Type := list (list (option ascii)).

(** [letters[i][j] = c]: the row [letters[i]] is fetched and written in
    place; the rows are distinct lists. *)
Definition grid_set (letters : Grid) (i j : nat) (c : ascii) : outcome Grid :=
  row <- list_get letters i ;;
  row' <- list_set row j (Some c) ;;
  list_set letters i row'.

(** [variable.i + (k if direction == Variable.DOWN else 0)] and
    [variable.j + (k if direction == Variable.ACROSS else 0)] *)
Definition cell_row (variable : Var.t) (k : nat) : nat :=
  Var.i variable + (match Var.direction variable with Var.DOWN => k | Var.ACROSS => 0 end).

Definition cell_col (variable : Var.t) (k : nat) : nat :=
  Var.j variable + (match Var.direction variable with Var.ACROSS => k | Var.DOWN => 0 end).

(** The loop [for k in range(len(word))]. *)
Fixpoint write_word (variable : Var.t) (word : Word) (ks : list nat) (letters : Grid)
  : outcome Grid :=
  match ks with
  | [] => Ok letters
  | k :: ks' =>
      c <- index word k ;;
      letters' <- grid_set letters (cell_row variable k) (cell_col variable k) c ;;
      write_word variable word ks' letters'
  end.

(** The loop [for variable, word in assignment.items()]. *)
Fixpoint write_words (items : Assignment) (letters : Grid) : outcome Grid :=
  match items with
  | [] => Ok letters
  | (variable, word) :: rest =>
      letters' <- write_word variable word (seq 0 (len word)) letters ;;
      write_words rest letters'
  end.

(** [letter_grid]; [self.crossword.height] and [self.crossword.width] are
    fields of the puzzle of crossword.py and are taken as parameters. *)
Definition letter_grid (height width : nat) (assignment : Assignment) : outcome Grid :=
  write_words assignment (repeat (repeat None width) height).

(** What [print] writes to the terminal: a letter, a space, the block
    character, or the end of a line. *)
Inductive glyph : Type := Letter (c : ascii) | Blank | Block | Newline.

(** The loop [for j in range(self.crossword.width)] of [print]; [out] is
    what has been written so far. *)
Fixpoint print_cells (structure : list (list bool)) (letters : Grid) (i : nat) (js : list nat)
    (out : list glyph) : list glyph * outcome unit :=
  match js with
  | [] => (out, Ok tt)
  | j :: js' =>
      match (row <- list_get structure i ;; list_get row j) with
      | Ok true =>
          match (row <- list_get letters i ;; list_get row j) with
          | Ok (Some c) => print_cells structure letters i js' (out ++ [Letter c])
          | Ok None => print_cells structure letters i js' (out ++ [Blank])
          | Raise e => (out, Raise e)
          | OutOfFuel => (out, OutOfFuel)
          end
      | Ok false => print_cells structure letters i js' (out ++ [Block])
      | Raise e => (out, Raise e)
      | OutOfFuel => (out, OutOfFuel)
      end
  end.

(** The loop [for i in range(self.crossword.height)] of [print]. *)
Fixpoint print_rows (structure : list (list bool)) (letters : Grid) (width : nat)
    (rows : list nat) (out : list glyph) : list glyph * outcome unit :=
  match rows with
  | [] => (out, Ok tt)
  | i :: rows' =>
      match print_cells structure letters i (seq 0 width) out with
      | (out', Ok _) => print_rows structure letters width rows' (out' ++ [Newline])
      | (out', Raise e) => (out', Raise e)
      | (out', OutOfFuel) => (out', OutOfFuel)
      end
  end.

(** [print]: what is written and how the call ends.  The grid is built
    before the first character is written.  [self.crossword.structure] is
    a field of the puzzle of crossword.py and is taken as a parameter. *)
Definition print (height width : nat) (structure : list (list bool)) (assignment : Assignment)
  : list glyph * outcome unit :=
  match letter_grid height width assignment with
  | Ok letters => print_rows structure letters width (seq 0 height) []
  | Raise e => ([], Raise e)
  | OutOfFuel => ([], OutOfFuel)
  end.

(** ** Concrete puzzles *)

Module Examples.

Definition vA : Var.t := Var.mk 1 0 Var.ACROSS 3.
Definition vB : Var.t := Var.mk 0 1 Var.DOWN 3.

(** Two crossing slots: [vA[1]] is [vB[1]]. *)
Definition cross_overlap (x y : Var.t) : option (nat * nat) :=
  if Var.eqb x vA && Var.eqb y vB then Some (1, 1)
  else if Var.eqb x vB && Var.eqb y vA then Some (1, 1)
  else None.

Definition cross (ws : list Word) : Crossword :=
  {| variables := [vA; vB]; words := ws; overlap_map := cross_overlap |}.

(** Two slots that share a corner: the last cell of [hA] is the first
    cell of [hB]. *)
Definition hA : Var.t := Var.mk 0 0 Var.ACROSS 3.
Definition hB : Var.t := Var.mk 0 2 Var.DOWN 3.

Definition corner_overlap (x y : Var.t) : option (nat * nat) :=
  if Var.eqb x hA && Var.eqb y hB then Some (2, 0)
  else if Var.eqb x hB && Var.eqb y hA then Some (0, 2)
  else None.

Definition corner (ws : list Word) : Crossword :=
  {| variables := [hA; hB]; words := ws; overlap_map := corner_overlap |}.

(** A single slot. *)
Definition lonely (ws : list Word) : Crossword :=
  {| variables := [vA]; words := ws; overlap_map := fun _ _ => None |}.

Definition first_arc (q : list Arc) : nat := 0.

End Examples.

(** * Specification *)

(** The computation ends in Python: it returns or raises. *)
Definition returns {A : Type} (o : outcome A) : Prop := o <> OutOfFuel.

Definition fits (var : Var.t) (w : Word) : bool := Var.length var =? len w.

Definition char_eqb (c1 c2 : option ascii) : bool :=
  match c1, c2 with
  | Some a, Some b => Ascii.eqb a b
  | _, _ => false
  end.

(** [v] supports [w] across the overlap [(x, y)]: another word, not too
    short, with the same character. *)
Definition supports (x y : nat) (w v : Word) : bool :=
  negb ((len v <? y) || String.eqb w v) && char_eqb (String.get x w) (String.get y v).

Definition supported (x y : nat) (ywords : list Word) (w : Word) : bool :=
  existsb (supports x y w) ywords.

(** The words that [compare_domain] keeps. *)
Definition kept (x y : nat) (ywords : list Word) (w : Word) : bool :=
  (len w <? x) || supported x y ywords w.

(** The four ways [revise] ends. *)
Inductive revise_spec (self : CrosswordCreator) (x y : Var.t)
  : CrosswordCreator -> outcome bool -> Prop :=
| revise_no_overlap :
    overlaps (crossword self) x y = Ok None ->
    revise_spec self x y self (Ok false)
| revise_unchanged (a b : nat) (xs ys : list Word) :
    overlaps (crossword self) x y = Ok (Some (a, b)) ->
    dict_get (domains self) x = Ok xs ->
    dict_get (domains self) y = Ok ys ->
    filter (kept a b ys) xs = xs ->
    revise_spec self x y self (Ok false)
| revise_pruned (a b : nat) (xs ys : list Word) :
    overlaps (crossword self) x y = Ok (Some (a, b)) ->
    dict_get (domains self) x = Ok xs ->
    dict_get (domains self) y = Ok ys ->
    List.length (filter (kept a b ys) xs) < List.length xs ->
    revise_spec self x y
      (set_domains self (dict_set (domains self) x (filter (kept a b ys) xs))) (Ok true)
| revise_raise (e : exn) :
    revise_spec self x y self (Raise e).

Definition shrinks (before after : Domains) : Prop :=
  Forall2 (fun b a => fst a = fst b /\ incl (snd a) (snd b)) before after.

(** Every variable keeps its entry, and its domain afterwards is a subset
    of its domain before. *)
Definition never_grows (before after : Domains) : Prop :=
  keys after = keys before /\
  forall v ws', dict_get after v = Ok ws' ->
    exists ws, dict_get before v = Ok ws /\ incl ws' ws.

(** Two states of the solver: same puzzle, smaller domains. *)
Definition pruned (s s' : CrosswordCreator) : Prop :=
  crossword s' = crossword s /\ shrinks (domains s) (domains s').

Definition requeue (cw : Crossword) (rest : list Arc) (x y : Var.t) : list Arc :=
  set_union arc_eqb rest (map (fun z => (z, x)) (set_diff Var.eqb (neighbors cw x) [y])).

Section Runs.
Variable pick : list Arc -> nat.

(** The iterations of the [while] loop, from a state and a queue to the
    final state and the value returned (or the exception raised). *)
Inductive ac3_run : CrosswordCreator -> list Arc -> CrosswordCreator -> outcome bool -> Prop :=
| run_done (s : CrosswordCreator) :
    ac3_run s [] s (Ok true)
| run_keep (s : CrosswordCreator) (a : Arc) (l : list Arc) (x y : Var.t) (rest : list Arc)
    (s' : CrosswordCreator) (r : outcome bool) :
    set_pop pick a l = ((x, y), rest) ->
    revise s x y = (s, Ok false) ->
    ac3_run s rest s' r ->
    ac3_run s (a :: l) s' r
| run_emptied (s : CrosswordCreator) (a : Arc) (l : list Arc) (x y : Var.t) (rest : list Arc)
    (s1 : CrosswordCreator) :
    set_pop pick a l = ((x, y), rest) ->
    revise s x y = (s1, Ok true) ->
    dict_get (domains s1) x = Ok [] ->
    ac3_run s (a :: l) s1 (Ok false)
| run_requeue (s : CrosswordCreator) (a : Arc) (l : list Arc) (x y : Var.t) (rest : list Arc)
    (s1 : CrosswordCreator) (xs : list Word) (s' : CrosswordCreator) (r : outcome bool) :
    set_pop pick a l = ((x, y), rest) ->
    revise s x y = (s1, Ok true) ->
    dict_get (domains s1) x = Ok xs -> xs <> [] ->
    ac3_run s1 (requeue (crossword s1) rest x y) s' r ->
    ac3_run s (a :: l) s' r
| run_raise (s : CrosswordCreator) (a : Arc) (l : list Arc) (x y : Var.t) (rest : list Arc)
    (e : exn) :
    set_pop pick a l = ((x, y), rest) ->
    revise s x y = (s, Raise e) ->
    ac3_run s (a :: l) s (Raise e).

(** The claim C1 as it is worded: after an emptied domain, [ac3] returns
    [False] and [solve] returns [None] without a call of [backtrack]. *)
Definition C1_as_stated (self : CrosswordCreator) : Prop :=
  let self1 := enforce_node_consistency self in
  (exists v ws, dict_get (domains self1) v = Ok ws /\ ws <> [] /\
                dict_get (domains (fst (ac3 pick self1 None))) v = Ok []) ->
  snd (ac3 pick self1 None) = Ok false /\
  snd (solve pick self) = Ok None /\
  ~ In Call_backtrack (snd (fst (solve pick self))).

End Runs.

(** What a call of [backtrack] on [a] leaves behind: the solver object is
    untouched; after [None] the dictionary is as on entry; a returned
    assignment is the dictionary itself, an extension of [a] that is
    complete and, unless it is [a], has passed [consistent]. *)
Definition search_post (self : CrosswordCreator) (a : Assignment) (res : search_result) : Prop :=
  let '(self', a', r) := res in
  self' = self /\
  match r with
  | Ok None => a' = a
  | Ok (Some result) =>
      result = a' /\ (exists suffix, a' = a ++ suffix) /\
      (NoDup (keys a) -> NoDup (keys a')) /\
      assignment_complete self a' = true /\
      (a' = a \/ consistent self a' = Ok true)
  | _ => True
  end.

Definition loop_post (self : CrosswordCreator) (a : Assignment) (res : search_result) : Prop :=
  let '(self', a', r) := res in
  self' = self /\
  match r with
  | Ok None => a' = a
  | Ok (Some result) =>
      result = a' /\ (exists b suffix, a' = a ++ b :: suffix) /\
      (NoDup (keys a) -> NoDup (keys a')) /\
      assignment_complete self a' = true /\
      consistent self a' = Ok true
  | _ => True
  end.

(** The predicate of the specification: the assigned words are pairwise
    distinct, each has the length of its variable, and two assigned
    variables with an overlap [(i, j)] carry the same character there. *)
Definition consistent_spec (cw : Crossword) (a : Assignment) : Prop :=
  (forall v1 w1 v2 w2, In (v1, w1) a -> In (v2, w2) a -> v1 <> v2 -> w1 <> w2) /\
  (forall v w, In (v, w) a -> len w = Var.length v) /\
  (forall v1 w1 v2 w2 i j,
      In (v1, w1) a -> In (v2, w2) a -> v1 <> v2 ->
      overlap_map cw v1 v2 = Some (i, j) ->
      exists c, String.get i w1 = Some c /\ String.get j w2 = Some c).

(** The assignment gives a word to every variable of the puzzle. *)
Definition complete (cw : Crossword) (a : Assignment) : Prop :=
  forall v, In v (variables cw) -> exists w, dict_get a v = Ok w.

(** Modelled from the spec: the overlap map of a puzzle is symmetric, and
    an offset lies inside the word of its variable. *)
Definition well_formed (cw : Crossword) : Prop :=
  forall x y i j,
    In x (variables cw) -> In y (variables cw) -> x <> y ->
    overlap_map cw x y = Some (i, j) ->
    i < Var.length x /\ j < Var.length y /\ overlap_map cw y x = Some (j, i).

Definition node_consistent (self : CrosswordCreator) : Prop :=
  forall v ws w, dict_get (domains self) v = Ok ws -> In w ws -> len w = Var.length v.

(** The state in which [solve] runs AC-3 and the search. *)
Definition ready (self : CrosswordCreator) : Prop :=
  well_formed (crossword self) /\
  keys (domains self) = variables (crossword self) /\
  node_consistent self.

Definition drawn_from (d : Domains) (a : Assignment) : Prop :=
  forall v w, In (v, w) a -> exists ws, dict_get d v = Ok ws /\ In w ws.

(** A solution: a mapping defined on the variables of the puzzle, with
    every word taken from the domain of its variable, that satisfies the
    consistency predicate. *)
Definition solution (self : CrosswordCreator) (a : Assignment) : Prop :=
  NoDup (keys a) /\
  (forall v, In v (keys a) <-> In v (variables (crossword self))) /\
  drawn_from (domains self) a /\
  consistent_spec (crossword self) a.

Definition valid_arcs (cw : Crossword) (arcs : list Arc) : Prop :=
  forall x y, In (x, y) arcs -> In x (variables cw) /\ In y (variables cw) /\ x <> y.

(** A dictionary that the search can hold: its keys are distinct variables
    of the puzzle and every word comes from the domain of its variable. *)
Definition candidate (self : CrosswordCreator) (a : Assignment) : Prop :=
  NoDup (keys a) /\ incl (keys a) (variables (crossword self)) /\ drawn_from (domains self) a.

Definition partial (self : CrosswordCreator) (a : Assignment) : Prop :=
  candidate self a /\ consistent_spec (crossword self) a.

(** What a call of [backtrack] on a consistent partial assignment [a]
    yields: a solution that extends [a], or [None] when no solution
    extends [a]; never an exception. *)
Definition complete_post (self : CrosswordCreator) (a : Assignment) (res : search_result) : Prop :=
  exists a' r, res = (self, a', Ok r) /\
    match r with
    | Some result => result = a' /\ solution self a' /\ incl a a'
    | None => a' = a /\ forall s, solution self s -> ~ incl a s
    end.

Definition loop_complete_post (self : CrosswordCreator) (a : Assignment) (var : Var.t)
    (values : list Word) (res : search_result) : Prop :=
  exists a' r, res = (self, a', Ok r) /\
    match r with
    | Some result => result = a' /\ solution self a' /\ incl a a'
    | None => a' = a /\
        forall s value, solution self s -> incl a s -> In value values -> ~ In (var, value) s
    end.

(** Every word of every domain has a different word in the domain of each
    overlapping variable that carries the same character at the overlap. *)
Definition arc_consistent (self : CrosswordCreator) : Prop :=
  forall x y a b xs ys w,
    In x (variables (crossword self)) -> In y (variables (crossword self)) -> x <> y ->
    overlap_map (crossword self) x y = Some (a, b) ->
    dict_get (domains self) x = Ok xs ->
    dict_get (domains self) y = Ok ys ->
    In w xs ->
    exists v, In v ys /\ v <> w /\
      exists c, String.get a w = Some c /\ String.get b v = Some c.

(** The arc [(x, y)] with overlap [(a, b)] needs no revision. *)
Definition arc_kept (s : CrosswordCreator) (x y : Var.t) (a b : nat) : Prop :=
  forall xs ys w,
    dict_get (domains s) x = Ok xs -> dict_get (domains s) y = Ok ys ->
    In w xs -> kept a b ys w = true.

(** The invariant of the loop: an arc is in the queue or needs no revision. *)
Definition queue_inv (s : CrosswordCreator) (arcs : list Arc) : Prop :=
  forall x y a b,
    In x (variables (crossword s)) -> In y (variables (crossword s)) -> x <> y ->
    overlap_map (crossword s) x y = Some (a, b) ->
    In (x, y) arcs \/ arc_kept s x y a b.

(** [our_word[x] != n_word[y]] *)
Definition differ (x y : nat) (our_word n_word : Word) : bool :=
  negb (char_eqb (String.get x our_word) (String.get y n_word)).

(** The words of the neighbor [nvar] that [our_word] rules out. *)
Definition conflicts_with (self : CrosswordCreator) (var : Var.t) (our_word : Word)
    (nvar : Var.t) : nat :=
  match overlap_map (crossword self) var nvar, dict_get (domains self) nvar with
  | Some (x, y), Ok n_words => List.length (filter (differ x y our_word) n_words)
  | _, _ => 0
  end.

(** The number of values that [our_word] rules out among the neighbors of
    [var] that are not assigned. *)
Definition conflicts (self : CrosswordCreator) (var : Var.t) (assignment : Assignment)
    (our_word : Word) : nat :=
  list_sum (map (conflicts_with self var our_word)
              (set_diff Var.eqb (neighbors (crossword self) var) (keys assignment))).

(** [letters[i][j]] read as a cell: [None] also outside the grid. *)
Definition cell (letters : Grid) (i j : nat) : option ascii :=
  match nth_error letters i with
  | Some row => match nth_error row j with Some x => x | None => None end
  | None => None
  end.

(** A grid of [height] rows of [width] cells. *)
Definition shaped (height width : nat) (letters : Grid) : Prop :=
  List.length letters = height /\ Forall (fun row => List.length row = width) letters.

(** Every cell of every word lies on the grid. *)
Definition fits_grid (height width : nat) (a : Assignment) : Prop :=
  forall variable word k, In (variable, word) a -> k < len word ->
    cell_row variable k < height /\ cell_col variable k < width.

(** Two bindings that reach the same cell put the same letter there. *)
Definition agree (a : Assignment) : Prop :=
  forall v1 w1 k1 c1 v2 w2 k2 c2,
    In (v1, w1) a -> In (v2, w2) a ->
    String.get k1 w1 = Some c1 -> String.get k2 w2 = Some c2 ->
    cell_row v1 k1 = cell_row v2 k2 -> cell_col v1 k1 = cell_col v2 k2 ->
    c1 = c2.

(** Modelled from the spec: the overlap map comes from the geometry of the
    slots; two distinct variables that share a cell have the offsets of
    that cell as their overlap. *)
Definition geometric (cw : Crossword) : Prop :=
  forall x y kx ky,
    In x (variables cw) -> In y (variables cw) -> x <> y ->
    kx < Var.length x -> ky < Var.length y ->
    cell_row x kx = cell_row y ky -> cell_col x kx = cell_col y ky ->
    overlap_map cw x y = Some (kx, ky).

(** The search keeps a candidate a candidate. *)
Definition candidate_post (self : CrosswordCreator) (a : Assignment) (res : search_result)
  : Prop :=
  match snd res with
  | Ok (Some _) => candidate self a -> candidate self (snd (fst res))
  | _ => True
  end.

(** The rows and columns of [self.crossword.structure]. *)
Definition structure_shaped (height width : nat) (structure : list (list bool)) : Prop :=
  List.length structure = height /\ Forall (fun row => List.length row = width) structure.

(** What [print] shows for the cell [(i, j)]. *)
Definition glyph_at (structure : list (list bool)) (letters : Grid) (i j : nat) : glyph :=
  match nth_error structure i with
  | Some row =>
      match nth_error row j with
      | Some true => match cell letters i j with Some c => Letter c | None => Blank end
      | _ => Block
      end
  | None => Block
  end.

(** * Properties *)

Ltac inv H := inversion H; subst; clear H.

(** ** Sets and dictionaries *)

Section SetFacts.
Context {A : Type}.
Variable eqbA : A -> A -> bool.
Hypothesis eqbA_eq : forall a b, eqbA a b = true <-> a = b.

Lemma mem_In (a : A) (l : list A) : mem eqbA a l = true <-> In a l.
Proof.
  unfold mem; rewrite existsb_exists; split.
  - intros [b [Hb Heq]]; apply eqbA_eq in Heq; now subst.
  - intros H; exists a; split; [assumption | now apply eqbA_eq].
Qed.

Lemma mem_false (a : A) (l : list A) : mem eqbA a l = false <-> ~ In a l.
Proof.
  rewrite <- mem_In; destruct (mem eqbA a l); split; congruence.
Qed.

Lemma set_remove_filter (a : A) (l : list A) :
  set_remove eqbA a l = filter (fun b => negb (eqbA a b)) l.
Proof.
  induction l as [|b l IH]; simpl; [reflexivity|].
  destruct (eqbA a b); simpl; now rewrite IH.
Qed.

Lemma set_add_In (l : list A) (a b : A) : In b (set_add eqbA l a) <-> In b l \/ b = a.
Proof.
  unfold set_add; destruct (mem eqbA a l) eqn:E.
  - apply mem_In in E; split; [tauto | intros [H | ->]; assumption].
  - rewrite in_app_iff; simpl; split; intros [H | H]; auto; destruct H; auto; contradiction.
Qed.

Lemma set_union_In (l1 l2 : list A) (b : A) :
  In b (set_union eqbA l1 l2) <-> In b l1 \/ In b l2.
Proof.
  unfold set_union; revert l1; induction l2 as [|a l2 IH]; simpl; intros l1; [tauto|].
  rewrite IH, set_add_In; intuition (subst; auto).
Qed.

Lemma set_add_length (l : list A) (a : A) :
  List.length (set_add eqbA l a) <= S (List.length l).
Proof.
  unfold set_add; destruct (mem eqbA a l); [lia|].
  rewrite length_app; simpl; lia.
Qed.

Lemma set_union_length (l1 l2 : list A) :
  List.length (set_union eqbA l1 l2) <= List.length l1 + List.length l2.
Proof.
  unfold set_union; revert l1; induction l2 as [|a l2 IH]; simpl; intros l1; [lia|].
  specialize (IH (set_add eqbA l1 a)); pose proof (set_add_length l1 a); lia.
Qed.

Lemma set_diff_In (l1 l2 : list A) (b : A) :
  In b (set_diff eqbA l1 l2) <-> In b l1 /\ ~ In b l2.
Proof.
  unfold set_diff; rewrite filter_In, negb_true_iff, mem_false; tauto.
Qed.

End SetFacts.

Lemma string_eqb_eq (a b : string) : String.eqb a b = true <-> a = b.
Proof. apply String.eqb_eq. Qed.

Lemma arc_eqb_eq (a b : Arc) : arc_eqb a b = true <-> a = b.
Proof.
  destruct a as [a1 a2], b as [b1 b2]; unfold arc_eqb; simpl.
  rewrite andb_true_iff, !Var.eqb_eq; split; [intros [-> ->]; reflexivity | intros H; inv H; auto].
Qed.

Lemma filter_length_le {A : Type} (f : A -> bool) (l : list A) :
  List.length (filter f l) <= List.length l.
Proof. induction l as [|a l IH]; simpl; [lia | destruct (f a); simpl; lia]. Qed.

Lemma filter_length_eq {A : Type} (f : A -> bool) (l : list A) :
  List.length (filter f l) = List.length l -> filter f l = l.
Proof.
  induction l as [|a l IH]; simpl; [reflexivity|].
  destruct (f a); simpl; intros H.
  - f_equal; apply IH; lia.
  - pose proof (filter_length_le f l); lia.
Qed.

Lemma filter_id_forall {A : Type} (f : A -> bool) (l : list A) :
  filter f l = l -> forall a, In a l -> f a = true.
Proof.
  intros H a Ha; rewrite <- H in Ha; apply filter_In in Ha; tauto.
Qed.

Lemma filter_filter {A : Type} (f g : A -> bool) (l : list A) :
  filter f (filter g l) = filter (fun a => g a && f a) l.
Proof.
  induction l as [|a l IH]; simpl; [reflexivity|].
  destruct (g a); simpl; [destruct (f a)|]; now rewrite IH.
Qed.

Section DictFacts.
Context {V : Type}.
Implicit Types (d : dict V) (k : Var.t) (v : V).

Lemma dict_get_In d k v : dict_get d k = Ok v -> In (k, v) d.
Proof.
  induction d as [|[k' v'] d IH]; simpl; [discriminate|].
  destruct (Var.eqb_spec k k'); [intros H; inv H; auto | auto].
Qed.

Lemma dict_get_key d k : In k (keys d) <-> exists v, dict_get d k = Ok v.
Proof.
  induction d as [|[k' v'] d IH]; simpl.
  - split; [tauto | intros [v H]; discriminate].
  - destruct (Var.eqb_spec k k'); [subst; split; eauto|].
    rewrite <- IH; split; [intros [H | H]; [congruence | assumption] | auto].
Qed.

Lemma dict_get_outcome d k : (exists v, dict_get d k = Ok v) \/ dict_get d k = Raise KeyError.
Proof.
  induction d as [|[k' v'] d IH]; simpl; [auto|].
  destruct (Var.eqb k k'); eauto.
Qed.

Lemma dict_get_NoDup d k v : NoDup (keys d) -> In (k, v) d -> dict_get d k = Ok v.
Proof.
  induction d as [|[k' v'] d IH]; simpl; [tauto|].
  intros Hnd [H | H]; inv Hnd.
  - inv H; now rewrite Var.eqb_refl.
  - destruct (Var.eqb_spec k k'); [subst | auto].
    exfalso; apply H2; apply in_map_iff; exists (k', v); auto.
Qed.

Lemma dict_set_keys d k v : In k (keys d) -> keys (dict_set d k v) = keys d.
Proof.
  induction d as [|[k' v'] d IH]; simpl; [tauto|].
  destruct (Var.eqb_spec k k'); simpl; [reflexivity|].
  intros [H | H]; [congruence | now rewrite IH].
Qed.

Lemma dict_set_fresh d k v : ~ In k (keys d) -> dict_set d k v = d ++ [(k, v)].
Proof.
  induction d as [|[k' v'] d IH]; simpl; [reflexivity|].
  intros H; destruct (Var.eqb_spec k k'); [subst; tauto|].
  rewrite IH; tauto.
Qed.

Lemma dict_get_set_same d k v : dict_get (dict_set d k v) k = Ok v.
Proof.
  induction d as [|[k' v'] d IH]; simpl; [now rewrite Var.eqb_refl|].
  destruct (Var.eqb k k') eqn:E; simpl; rewrite E; auto.
Qed.

Lemma dict_get_set_other d k k' v : k' <> k -> dict_get (dict_set d k v) k' = dict_get d k'.
Proof.
  intros Hne; induction d as [|[k0 v0] d IH]; simpl.
  - apply Var.eqb_neq in Hne; now rewrite Hne.
  - destruct (Var.eqb_spec k k0); simpl; [subst|].
    + apply Var.eqb_neq in Hne; now rewrite Hne.
    + now rewrite IH.
Qed.

Lemma dict_pop_last d k v : ~ In k (keys d) -> dict_pop (d ++ [(k, v)]) k = Ok d.
Proof.
  induction d as [|[k' v'] d IH]; simpl; intros H.
  - now rewrite Var.eqb_refl.
  - destruct (Var.eqb_spec k k'); [subst; tauto|].
    rewrite IH; [reflexivity | tauto].
Qed.

End DictFacts.

(** ** Node consistency *)

Lemma node_filter_fold (var : Var.t) (todo acc : list Word) :
  fold_left
    (fun acc test_word =>
       if negb (Var.length var =? len test_word)
       then set_remove String.eqb test_word acc
       else acc)
    todo acc
  = filter (fun w => negb (mem String.eqb w todo) || fits var w) acc.
Proof.
  revert acc; induction todo as [|t todo IH]; intros acc; simpl.
  - symmetry; apply forallb_filter_id; apply forallb_forall; reflexivity.
  - rewrite IH; fold (fits var t); destruct (fits var t) eqn:Ht; simpl.
    + apply filter_ext; intros w.
      destruct (String.eqb_spec w t); [subst; rewrite Ht; simpl | reflexivity].
      now rewrite orb_true_r.
    + rewrite set_remove_filter, filter_filter; apply filter_ext; intros w.
      rewrite (String.eqb_sym t w).
      destruct (String.eqb_spec w t); [subst; now rewrite Ht | reflexivity].
Qed.

Lemma node_filter_spec (var : Var.t) (ws : list Word) :
  node_filter var ws = filter (fits var) ws.
Proof.
  unfold node_filter; rewrite node_filter_fold.
  apply filter_ext_in; intros w Hw.
  apply (mem_In String.eqb string_eqb_eq) in Hw; now rewrite Hw.
Qed.

Lemma enforce_node_consistency_keys (self : CrosswordCreator) :
  keys (domains (enforce_node_consistency self)) = keys (domains self).
Proof.
  unfold enforce_node_consistency, keys; simpl; rewrite map_map.
  apply map_ext; intros [var ws]; reflexivity.
Qed.

Lemma enforce_node_consistency_get (self : CrosswordCreator) (v : Var.t) :
  dict_get (domains (enforce_node_consistency self)) v
  = ws <- dict_get (domains self) v ;; Ok (filter (fits v) ws).
Proof.
  unfold enforce_node_consistency; simpl.
  induction (domains self) as [|[k ws] d IH]; simpl; [reflexivity|].
  destruct (Var.eqb_spec v k); [subst; simpl; now rewrite node_filter_spec | apply IH].
Qed.

(** C6.  After [enforce_node_consistency], a word is in the domain of a
    variable exactly when it was there before and its length is the
    variable's length: every remaining word has the right length, and only
    words of another length were removed. *)
Theorem C6_node_consistency (self : CrosswordCreator) (v : Var.t) (ws : list Word)
    (Hws : dict_get (domains self) v = Ok ws) :
  exists ws', dict_get (domains (enforce_node_consistency self)) v = Ok ws' /\
    (forall w, In w ws' -> len w = Var.length v) /\
    (forall w, In w ws' <-> In w ws /\ len w = Var.length v).
Proof.
  exists (filter (fits v) ws).
  rewrite enforce_node_consistency_get, Hws; simpl.
  assert (E : forall w, In w (filter (fits v) ws) <-> In w ws /\ len w = Var.length v).
  { intros w; rewrite filter_In; unfold fits; rewrite Nat.eqb_eq; intuition congruence. }
  split; [reflexivity | split; [intros w Hw; now apply E | exact E]].
Qed.

Lemma C6_node_consistency_witness :
  dict_get (domains (init (Examples.cross ["CAT"; "A"; "TOE"]%string))) Examples.vA
    = Ok ["CAT"; "A"; "TOE"]%string /\
  exists ws',
    dict_get (domains (enforce_node_consistency (init (Examples.cross ["CAT"; "A"; "TOE"]%string))))
      Examples.vA = Ok ws' /\
    (forall w, In w ws' -> len w = Var.length Examples.vA) /\
    (forall w, In w ws' <-> In w ["CAT"; "A"; "TOE"]%string /\ len w = Var.length Examples.vA).
Proof.
  split; [reflexivity|].
  apply (C6_node_consistency (init (Examples.cross ["CAT"; "A"; "TOE"]%string)) Examples.vA).
  reflexivity.
Defined.

(** ** compare_domain *)

Lemma find_support_Ok (x y : nat) (w : Word) (ywords : list Word) (b : bool) :
  find_support x y w ywords = Ok b -> b = supported x y ywords w.
Proof.
  unfold supported; induction ywords as [|v ys IH]; simpl; [congruence|].
  unfold supports at 1.
  destruct ((len v <? y) || String.eqb w v); simpl; [exact IH|].
  unfold index; destruct (String.get x w) as [c1|]; simpl; [|discriminate].
  destruct (String.get y v) as [c2|]; simpl; [|discriminate].
  destruct (Ascii.eqb c1 c2); simpl; [congruence | exact IH].
Qed.

Lemma find_support_safe (x y : nat) (w : Word) (ywords : list Word) :
  x < len w -> (forall v, In v ywords -> y < len v) ->
  exists b, find_support x y w ywords = Ok b.
Proof.
  intros Hx; induction ywords as [|v ys IH]; simpl; intros Hy; [eauto|].
  destruct ((len v <? y) || String.eqb w v); [apply IH; auto|].
  destruct (index_in_bounds w x Hx) as [c1 ->]; simpl.
  destruct (index_in_bounds v y (Hy v (or_introl eq_refl))) as [c2 ->]; simpl.
  destruct (Ascii.eqb c1 c2); [eauto | apply IH; auto].
Qed.

Lemma compare_loop_Ok (x y : nat) (todo xwords ywords r : list Word) :
  compare_loop x y todo xwords ywords = Ok r ->
  r = filter (fun w => negb (mem String.eqb w todo) || kept x y ywords w) xwords.
Proof.
  revert xwords; induction todo as [|t todo IH]; intros xwords; simpl.
  - intros H; inv H; symmetry; apply forallb_filter_id; apply forallb_forall; reflexivity.
  - destruct (len t <? x) eqn:Hlen.
    + intros H; rewrite (IH _ H); apply filter_ext; intros w.
      destruct (String.eqb_spec w t); [subst; unfold kept; rewrite Hlen; simpl | reflexivity].
      now rewrite orb_true_r.
    + destruct (find_support x y t ywords) as [c| |] eqn:Hfs; simpl; try discriminate.
      apply find_support_Ok in Hfs; subst c.
      destruct (supported x y ywords t) eqn:Hs; simpl; intros H; rewrite (IH _ H).
      * apply filter_ext; intros w.
        destruct (String.eqb_spec w t); [subst; unfold kept; rewrite Hs; simpl | reflexivity].
        now rewrite !orb_true_r.
      * rewrite set_remove_filter, filter_filter; apply filter_ext; intros w.
        rewrite (String.eqb_sym t w).
        destruct (String.eqb_spec w t); [subst; unfold kept; now rewrite Hlen, Hs | reflexivity].
Qed.

Lemma compare_domain_Ok (x y : nat) (xwords ywords r : list Word) :
  compare_domain x y xwords ywords = Ok r -> r = filter (kept x y ywords) xwords.
Proof.
  intros H; apply compare_loop_Ok in H; subst r.
  apply filter_ext_in; intros w Hw.
  apply (mem_In String.eqb string_eqb_eq) in Hw; now rewrite Hw.
Qed.

Lemma compare_loop_safe (x y : nat) (todo xwords ywords : list Word) :
  (forall w, In w todo -> x < len w) -> (forall v, In v ywords -> y < len v) ->
  exists r, compare_loop x y todo xwords ywords = Ok r.
Proof.
  intros Hx Hy; revert xwords Hx; induction todo as [|t todo IH]; intros xwords Hx; simpl; [eauto|].
  assert (Hrest : forall w, In w todo -> x < len w) by (intros; apply Hx; now right).
  destruct (len t <? x); [apply IH; auto|].
  destruct (find_support_safe x y t ywords (Hx t (or_introl eq_refl)) Hy) as [c ->]; simpl.
  destruct c; simpl; apply IH; auto.
Qed.

(** [compare_domain] raises nothing but [IndexError]. *)
Lemma find_support_raise (x y : nat) (w : Word) (ywords : list Word) :
  find_support x y w ywords <> OutOfFuel /\
  forall e, find_support x y w ywords = Raise e -> e = IndexError.
Proof.
  induction ywords as [|v ys [IH1 IH2]]; simpl; [split; congruence|].
  destruct ((len v <? y) || String.eqb w v); [auto|].
  unfold index; destruct (String.get x w); simpl; [|split; congruence].
  destruct (String.get y v); simpl; [|split; congruence].
  destruct (Ascii.eqb a a0); [split; congruence | auto].
Qed.

Lemma compare_loop_raise (x y : nat) (todo xwords ywords : list Word) :
  compare_loop x y todo xwords ywords <> OutOfFuel /\
  forall e, compare_loop x y todo xwords ywords = Raise e -> e = IndexError.
Proof.
  revert xwords; induction todo as [|t todo IH]; intros xwords; simpl; [split; congruence|].
  destruct (len t <? x); [apply IH|].
  destruct (find_support_raise x y t ywords) as [H1 H2].
  destruct (find_support x y t ywords) as [c|e|]; simpl; [| |congruence].
  - destruct c; simpl; apply IH.
  - split; [congruence | intros e' H; inv H; auto].
Qed.

(** ** revise *)

Lemma overlaps_outcome (cw : Crossword) (x y : Var.t) :
  (overlaps cw x y = Ok (overlap_map cw x y) /\ In x (variables cw) /\ In y (variables cw) /\ x <> y)
  \/ overlaps cw x y = Raise KeyError.
Proof.
  unfold overlaps.
  destruct (mem Var.eqb x (variables cw)) eqn:Hx; simpl; [|auto].
  destruct (mem Var.eqb y (variables cw)) eqn:Hy; simpl; [|auto].
  destruct (Var.eqb_spec x y); simpl; [auto|].
  left; repeat split; try assumption; apply (mem_In Var.eqb Var.eqb_eq); assumption.
Qed.

Lemma overlaps_defined (cw : Crossword) (x y : Var.t) :
  In x (variables cw) -> In y (variables cw) -> x <> y ->
  overlaps cw x y = Ok (overlap_map cw x y).
Proof.
  intros Hx Hy Hne; unfold overlaps.
  apply (mem_In Var.eqb Var.eqb_eq) in Hx, Hy; apply Var.eqb_neq in Hne.
  now rewrite Hx, Hy, Hne.
Qed.

Lemma revise_cases (self : CrosswordCreator) (x y : Var.t) :
  revise_spec self x y (fst (revise self x y)) (snd (revise self x y)).
Proof.
  unfold revise.
  destruct (overlaps_outcome (crossword self) x y) as [[Ho _] | Ho]; rewrite Ho;
    [|apply revise_raise].
  destruct (overlap_map (crossword self) x y) as [[a b]|] eqn:Hm;
    [|now apply revise_no_overlap].
  destruct (dict_get_outcome (domains self) x) as [[xs Hx] | Hx]; rewrite Hx;
    [|apply revise_raise].
  destruct (dict_get_outcome (domains self) y) as [[ys Hy] | Hy]; rewrite Hy;
    [|apply revise_raise].
  destruct (compare_domain a b xs ys) as [r|e|] eqn:Hc.
  - apply compare_domain_Ok in Hc; subst r.
    destruct (Nat.eqb_spec (List.length (filter (kept a b ys) xs)) (List.length xs)) as [E|E]; simpl.
    + apply (revise_unchanged self x y a b xs ys); auto using filter_length_eq.
    + apply (revise_pruned self x y a b xs ys); auto.
      pose proof (filter_length_le (kept a b ys) xs); lia.
  - apply revise_raise.
  - exfalso; exact (proj1 (compare_loop_raise a b xs xs ys) Hc).
Qed.

Lemma revise_crossword (self : CrosswordCreator) (x y : Var.t) :
  crossword (fst (revise self x y)) = crossword self.
Proof. destruct (revise_cases self x y); reflexivity. Qed.

Lemma revise_in_bounds (self : CrosswordCreator) (x y : Var.t) (a b : nat)
    (xwords ywords : list Word) :
  overlaps (crossword self) x y = Ok (Some (a, b)) ->
  dict_get (domains self) x = Ok xwords ->
  dict_get (domains self) y = Ok ywords ->
  (forall w, In w xwords -> a < len w) ->
  (forall v, In v ywords -> b < len v) ->
  (forall w, In w xwords -> exists c, find_support a b w ywords = Ok c) /\
  (exists new_xwords, compare_domain a b xwords ywords = Ok new_xwords) /\
  (exists revised, snd (revise self x y) = Ok revised).
Proof.
  intros Ho Hx Hy Hlx Hly.
  split; [intros w Hw; apply find_support_safe; auto|].
  destruct (compare_loop_safe a b xwords xwords ywords Hlx Hly) as [r Hr].
  split; [exists r; exact Hr|].
  unfold revise; rewrite Ho, Hx, Hy; unfold compare_domain; rewrite Hr.
  destruct (negb (List.length r =? List.length xwords)); simpl; eauto.
Qed.

(** C10.  When every word of the domain of [x] is longer than the offset
    [a] and every word of the domain of [y] is longer than the offset [b],
    [compare_domain] indexes no word out of range: every search for a
    supporting word ends with a flag, [compare_domain] returns a set of
    words, and [revise] returns a flag; no [IndexError] is raised. *)
Theorem C10_revise_in_bounds (self : CrosswordCreator) (x y : Var.t) (a b : nat)
    (xwords ywords : list Word)
    (Ho : overlaps (crossword self) x y = Ok (Some (a, b)))
    (Hx : dict_get (domains self) x = Ok xwords)
    (Hy : dict_get (domains self) y = Ok ywords)
    (Hlx : forall w, In w xwords -> a < len w)
    (Hly : forall v, In v ywords -> b < len v) :
  (forall w, In w xwords -> exists c, find_support a b w ywords = Ok c) /\
  (exists new_xwords, compare_domain a b xwords ywords = Ok new_xwords) /\
  (exists revised, snd (revise self x y) = Ok revised).
Proof. now apply revise_in_bounds. Qed.

(** ** Domains only shrink *)

Lemma shrinks_refl (d : Domains) : shrinks d d.
Proof.
  induction d as [|e d IH]; constructor; [split; [reflexivity | apply incl_refl] | exact IH].
Qed.

Lemma shrinks_trans (d1 d2 d3 : Domains) : shrinks d1 d2 -> shrinks d2 d3 -> shrinks d1 d3.
Proof.
  intros H12; revert d3; induction H12 as [|e1 e2 d1 d2 [Hk Hi] _ IH]; intros d3 H23; inv H23.
  - constructor.
  - constructor; [|now apply IH].
    destruct H1 as [Hk' Hi']; split; [congruence | eapply incl_tran; eassumption].
Qed.

Lemma shrinks_set (d : Domains) (x : Var.t) (xs xs' : list Word) :
  dict_get d x = Ok xs -> incl xs' xs -> shrinks d (dict_set d x xs').
Proof.
  induction d as [|[k ws] d IH]; simpl; [discriminate|].
  destruct (Var.eqb_spec x k); intros Hget Hincl.
  - inv Hget; constructor; [split; [reflexivity | assumption] | apply shrinks_refl].
  - constructor; [split; [reflexivity | apply incl_refl] | now apply IH].
Qed.

Lemma shrinks_never_grows (d d' : Domains) : shrinks d d' -> never_grows d d'.
Proof.
  intros H; split.
  - unfold keys; induction H as [|e e' d d' [Hk _] _ IH]; simpl; [reflexivity | now rewrite Hk, IH].
  - intros v; induction H as [|[k ws] [k' ws'] d d' [Hk Hi] _ IH]; simpl in *; [discriminate|].
    subst k'; destruct (Var.eqb v k); [|exact IH].
    intros ws0 E; inv E; eauto.
Qed.

Lemma shrinks_get (d d' : Domains) (v : Var.t) (ws : list Word) :
  shrinks d d' -> dict_get d v = Ok ws -> exists ws', dict_get d' v = Ok ws' /\ incl ws' ws.
Proof.
  intros H; induction H as [|[k ws0] [k' ws0'] d d' [Hk Hi] _ IH]; simpl in *; [discriminate|].
  subst k'; destruct (Var.eqb v k); [|exact IH].
  intros E; inv E; eauto.
Qed.

Lemma pruned_refl (s : CrosswordCreator) : pruned s s.
Proof. split; [reflexivity | apply shrinks_refl]. Qed.

Lemma pruned_trans (s1 s2 s3 : CrosswordCreator) : pruned s1 s2 -> pruned s2 s3 -> pruned s1 s3.
Proof.
  intros [H1 H2] [H3 H4]; split; [congruence | eapply shrinks_trans; eassumption].
Qed.

Lemma enforce_node_consistency_pruned (self : CrosswordCreator) :
  pruned self (enforce_node_consistency self).
Proof.
  split; [reflexivity|]; unfold enforce_node_consistency; simpl.
  induction (domains self) as [|[k ws] d IH]; simpl; constructor; [|exact IH].
  split; [reflexivity|]; simpl; rewrite node_filter_spec; apply incl_filter.
Qed.

Lemma revise_pruned_state (self : CrosswordCreator) (x y : Var.t) :
  pruned self (fst (revise self x y)).
Proof.
  destruct (revise_cases self x y); try apply pruned_refl.
  split; [reflexivity|]; simpl.
  eapply shrinks_set; [eassumption | apply incl_filter].
Qed.

Section AC3Facts.
Variable pick : list Arc -> nat.

(** A relation that every [revise] step satisfies holds between the
    states before and after the loop. *)
Lemma ac3_loop_rel (R : CrosswordCreator -> CrosswordCreator -> Prop) :
  (forall s, R s s) ->
  (forall s1 s2 s3, R s1 s2 -> R s2 s3 -> R s1 s3) ->
  (forall s x y, R s (fst (revise s x y))) ->
  forall fuel s arcs, R s (fst (ac3_loop pick fuel s arcs)).
Proof.
  intros Hrefl Htrans Hstep; induction fuel as [|fuel IH]; intros s arcs; simpl; [apply Hrefl|].
  destruct arcs as [|a l]; [apply Hrefl|].
  destruct (set_pop pick a l) as [[x y] rest].
  pose proof (Hstep s x y) as Hs.
  destruct (revise s x y) as [s' [[|]|e|]]; simpl in *; try exact Hs.
  - destruct (dict_get (domains s') x) as [xs|e|]; simpl; try exact Hs.
    destruct (List.length xs =? 0); simpl; [exact Hs|].
    eapply Htrans; [exact Hs | apply IH].
  - eapply Htrans; [exact Hs | apply IH].
Qed.

Lemma ac3_loop_pruned (fuel : nat) (s : CrosswordCreator) (arcs : list Arc) :
  pruned s (fst (ac3_loop pick fuel s arcs)).
Proof.
  apply ac3_loop_rel; [apply pruned_refl | apply pruned_trans | apply revise_pruned_state].
Qed.

Lemma ac3_pruned (s : CrosswordCreator) (arcs : option (list Arc)) :
  pruned s (fst (ac3 pick s arcs)).
Proof. unfold ac3; apply ac3_loop_pruned. Qed.

End AC3Facts.

(** ** Sorting and selection *)

Section SortedFacts.
Context {A : Type}.
Variable key : A -> nat.
Variable reverse : bool.

Lemma insert_In (a b : A) (l : list A) : In b (insert key reverse a l) <-> b = a \/ In b l.
Proof.
  induction l as [|c l IH]; simpl; [intuition|].
  destruct (goes_before key reverse a c); simpl; [intuition | rewrite IH; intuition].
Qed.

Lemma sorted_In (b : A) (l : list A) : In b (sorted key reverse l) <-> In b l.
Proof.
  induction l as [|a l IH]; simpl; [tauto|].
  rewrite insert_In, IH; intuition.
Qed.

End SortedFacts.

(** The first element of an ascending sort has the least key. *)
Lemma sorted_head_min {A : Type} (key : A -> nat) (l : list A) (h : A) (t : list A) :
  sorted key false l = h :: t -> forall a, In a l -> key h <= key a.
Proof.
  revert h t; induction l as [|b l IH]; simpl; intros h t E a Ha; [contradiction|].
  destruct (sorted key false l) as [|h' t'] eqn:Es.
  - simpl in E; inv E.
    destruct Ha as [-> | Ha]; [lia|].
    apply (sorted_In key false) in Ha; rewrite Es in Ha; contradiction.
  - specialize (IH h' t' eq_refl).
    simpl in E; unfold goes_before in E.
    destruct (Nat.leb_spec (key b) (key h')); inv E.
    + destruct Ha as [-> | Ha]; [lia | specialize (IH a Ha); lia].
    + destruct Ha as [-> | Ha]; [lia | exact (IH a Ha)].
Qed.

Lemma dict_build_get {V : Type} (f : Var.t -> outcome V) (vs : list Var.t) (d : dict V) :
  dict_build f vs = Ok d -> forall v, In v vs -> dict_get d v = f v.
Proof.
  revert d; induction vs as [|v0 vs IH]; simpl; intros d E v Hv; [contradiction|].
  destruct (f v0) as [a0| |] eqn:E0; simpl in E; try discriminate.
  destruct (dict_build f vs) as [d0| |]; simpl in E; try discriminate.
  inv E; simpl.
  destruct (Var.eqb_spec v v0); [subst; auto|].
  destruct Hv as [Hv | Hv]; [congruence | now apply IH].
Qed.

Lemma dict_build_defined {V : Type} (f : Var.t -> outcome V) (vs : list Var.t) :
  (forall v, In v vs -> exists a, f v = Ok a) -> exists d, dict_build f vs = Ok d.
Proof.
  induction vs as [|v0 vs IH]; simpl; intros H; [eauto|].
  destruct (H v0 (or_introl eq_refl)) as [a0 ->]; simpl.
  destruct IH as [d ->]; simpl; eauto.
Qed.

Lemma select_unassigned_variable_In (self : CrosswordCreator) (a : Assignment) (var : Var.t) :
  select_unassigned_variable self a = Ok var ->
  In var (variables (crossword self)) /\ ~ In var (keys a).
Proof.
  unfold select_unassigned_variable.
  destruct (dict_build _ _) as [num_vals| |]; simpl; try discriminate.
  match goal with |- context [sorted ?k false ?l] => destruct (sorted k false l) as [|h t] eqn:Es end;
    intros E; inv E.
  assert (H : In var (var :: t)) by (now left).
  rewrite <- Es in H; apply sorted_In, sorted_In in H.
  now apply (set_diff_In Var.eqb Var.eqb_eq) in H.
Qed.

Lemma assignment_complete_true (self : CrosswordCreator) (a : Assignment) :
  assignment_complete self a = true <->
  forall v, In v (variables (crossword self)) -> In v (keys a).
Proof.
  unfold assignment_complete.
  destruct (set_diff Var.eqb (variables (crossword self)) (keys a)) as [|u l] eqn:E; split; intros H.
  - intros v Hv; destruct (in_dec Var.eq_dec v (keys a)) as [Hin | Hout]; [assumption|].
    assert (Hd : In v (set_diff Var.eqb (variables (crossword self)) (keys a)))
      by (apply (set_diff_In Var.eqb Var.eqb_eq); auto).
    rewrite E in Hd; contradiction.
  - reflexivity.
  - discriminate.
  - assert (Hd : In u (set_diff Var.eqb (variables (crossword self)) (keys a)))
      by (rewrite E; now left).
    apply (set_diff_In Var.eqb Var.eqb_eq) in Hd; destruct Hd as [Hu Hn]; elim Hn; auto.
Qed.

(** ** The search: state and undo *)

Lemma truthy_app (a : Assignment) (b : Var.t * Word) (l : Assignment) :
  truthy (Some (a ++ b :: l)) = true.
Proof. destruct a; reflexivity. Qed.

Lemma try_values_post (rec : CrosswordCreator -> Assignment -> search_result) (var : Var.t) :
  (forall s a0, search_post s a0 (rec s a0)) ->
  forall values self a, ~ In var (keys a) ->
    loop_post self a (try_values rec var values self a).
Proof.
  intros Hrec values self a Hfresh.
  induction values as [|value rest IH]; simpl; [split; reflexivity|].
  rewrite (dict_set_fresh a var value Hfresh).
  destruct (consistent self (a ++ [(var, value)])) as [[|]|e|] eqn:Hc; simpl; try (split; auto; fail).
  - pose proof (Hrec self (a ++ [(var, value)])) as Hr.
    destruct (rec self (a ++ [(var, value)])) as [[self2 a2] [[result|]|e|]];
      simpl in Hr |- *; try (destruct Hr; split; auto; fail).
    + destruct Hr as [-> [-> [[suffix Hs] [Hnd [Hcomp Hcons]]]]]; subst a2.
      rewrite <- app_assoc; simpl.
      rewrite <- app_assoc in Hcomp, Hcons, Hnd; simpl in Hcomp, Hcons, Hnd.
      rewrite truthy_app; split; [reflexivity|].
      split; [reflexivity|]; split; [eauto|]; split; [|split; [assumption|]].
      * intros Hk; apply Hnd; unfold keys in *; rewrite map_app; simpl.
        apply NoDup_Add with (a := var) (l := map fst a); [|constructor; assumption].
        replace (map fst a) with (map fst a ++ []) at 1 by apply app_nil_r.
        apply Add_app.
      * destruct Hcons as [Hcons | Hcons]; [|assumption].
        assert (suffix = []).
        { apply (f_equal (@List.length _)) in Hcons; rewrite !length_app in Hcons; simpl in Hcons.
          destruct suffix; [reflexivity | simpl in Hcons; lia]. }
        subst suffix; exact Hc.
    + destruct Hr as [-> ->].
      rewrite (dict_pop_last a var value Hfresh); exact IH.
  - rewrite (dict_pop_last a var value Hfresh); exact IH.
Qed.

Lemma backtrack_fuel_post (fuel : nat) (self : CrosswordCreator) (a : Assignment) :
  search_post self a (backtrack_fuel fuel self a).
Proof.
  revert self a; induction fuel as [|fuel IH]; intros self a; simpl; [split; auto|].
  destruct (assignment_complete self a) eqn:Hcomp; simpl.
  - split; [reflexivity|]; split; [reflexivity|].
    split; [exists []; now rewrite app_nil_r|]; auto.
  - destruct (select_unassigned_variable self a) as [var|e|] eqn:Hsel; simpl; auto.
    destruct (order_domain_values self var a) as [values|e|]; simpl; auto.
    apply select_unassigned_variable_In in Hsel; destruct Hsel as [_ Hfresh].
    pose proof (try_values_post (backtrack_fuel fuel) var IH values self a Hfresh) as H.
    destruct (try_values (backtrack_fuel fuel) var values self a) as [[self' a'] [[result|]|e|]];
      simpl in H |- *; auto.
    destruct H as [-> [-> [[b [suffix Hs]] [Hnd [Hc Hcons]]]]].
    repeat split; eauto.
Qed.

Lemma filter_length_lt {A : Type} (f g : A -> bool) (l : list A) (x0 : A) :
  (forall x, g x = true -> f x = true) ->
  In x0 l -> f x0 = true -> g x0 = false ->
  List.length (filter g l) < List.length (filter f l).
Proof.
  intros Hgf; induction l as [|x l IH]; simpl; intros Hin Hf Hg; [contradiction|].
  assert (Hle : List.length (filter g l) <= List.length (filter f l)).
  { clear IH Hin; induction l as [|y l IHl]; simpl; [lia|].
    destruct (g y) eqn:Gy; [rewrite (Hgf y Gy); simpl; lia|].
    destruct (f y); simpl; lia. }
  destruct Hin as [-> | Hin].
  - rewrite Hf, Hg; simpl; lia.
  - specialize (IH Hin Hf Hg).
    destruct (g x) eqn:Gx; [rewrite (Hgf x Gx); simpl; lia|].
    destruct (f x); simpl; lia.
Qed.

(** ** The fuel of the search is enough *)

Lemma returns_bind {A B : Type} (m : outcome A) (k : A -> outcome B) :
  returns m -> (forall a, returns (k a)) -> returns (bind m k).
Proof. unfold returns; destruct m; simpl; auto; congruence. Qed.

Lemma returns_Ok {A : Type} (a : A) : returns (Ok a).
Proof. discriminate. Qed.

Lemma returns_Raise {A : Type} (e : exn) : returns (@Raise A e).
Proof. discriminate. Qed.

Lemma index_returns (w : Word) (k : nat) : returns (index w k).
Proof. unfold index; destruct (String.get k w); discriminate. Qed.

Lemma overlaps_returns (cw : Crossword) (x y : Var.t) : returns (overlaps cw x y).
Proof. unfold overlaps; destruct (_ && _); discriminate. Qed.

Lemma dict_get_returns {V : Type} (d : dict V) (k : Var.t) : returns (dict_get d k).
Proof. destruct (dict_get_outcome d k) as [[v H] | H]; rewrite H; discriminate. Qed.

Lemma dict_build_returns {V : Type} (f : Var.t -> outcome V) (vs : list Var.t) :
  (forall v, returns (f v)) -> returns (dict_build f vs).
Proof.
  intros Hf; induction vs as [|v vs IH]; simpl; [discriminate|].
  apply returns_bind; [apply Hf|]; intros a.
  apply returns_bind; [exact IH|]; intros d; discriminate.
Qed.

Create HintDb returns.

#[local] Hint Resolve returns_Ok returns_Raise index_returns overlaps_returns
  dict_get_returns : returns.

Lemma consistent_returns (self : CrosswordCreator) (a : Assignment) : returns (consistent self a).
Proof.
  assert (Hin : forall var word items, returns (consistent_inner (crossword self) var word items)).
  { intros var word items; induction items as [|[nv nw] items IH]; simpl; auto with returns.
    destruct (negb (Var.eqb nv var)); [|exact IH].
    apply returns_bind; auto with returns; intros [[i j]|]; [|exact IH].
    apply returns_bind; auto with returns; intros c1.
    apply returns_bind; auto with returns; intros c2.
    destruct (negb (Ascii.eqb c1 c2)); auto with returns. }
  assert (Hout : forall todo all, returns (consistent_outer (crossword self) todo all)).
  { intros todo all; induction todo as [|[v w] todo IH]; simpl; auto with returns.
    destruct (negb (len w =? Var.length v)); auto with returns.
    apply returns_bind; [apply Hin|]; intros [|]; auto with returns. }
  unfold consistent; destruct (negb _); auto with returns.
Qed.

Lemma select_unassigned_variable_returns (self : CrosswordCreator) (a : Assignment) :
  returns (select_unassigned_variable self a).
Proof.
  unfold select_unassigned_variable; apply returns_bind.
  - apply dict_build_returns; intros v; apply returns_bind; auto with returns.
  - intros num_vals; destruct (sorted _ _ _); auto with returns.
Qed.

Lemma order_domain_values_returns (self : CrosswordCreator) (var : Var.t) (a : Assignment) :
  returns (order_domain_values self var a).
Proof.
  assert (Hc : forall w x y ws acc, returns (count_conflicts w x y ws acc)).
  { intros w x y ws; induction ws as [|n_word ws IH]; intros acc; simpl; auto with returns.
    apply returns_bind; auto with returns; intros c1.
    apply returns_bind; auto with returns. }
  assert (Hw : forall w nb acc, returns (ruled_out_word self var w nb acc)).
  { intros w nb; induction nb as [|nvar nb IH]; intros acc; simpl; auto with returns.
    apply returns_bind; auto with returns; intros [[x y]|]; auto with returns.
    apply returns_bind; auto with returns; intros n_words.
    apply returns_bind; auto with returns. }
  assert (Ha : forall ws nb, returns (ruled_out_all self var ws nb)).
  { intros ws nb; induction ws as [|w ws IH]; simpl; auto with returns.
    apply returns_bind; auto; intros n.
    apply returns_bind; auto with returns. }
  unfold order_domain_values; apply returns_bind; auto with returns; intros ws.
  apply returns_bind; auto with returns.
Qed.

Lemma try_values_returns (rec : CrosswordCreator -> Assignment -> search_result)
    (bound : nat) (var : Var.t) (self : CrosswordCreator) (a : Assignment) :
  (forall s a0, search_post s a0 (rec s a0)) ->
  (forall a0, List.length (unassigned self a0) < bound -> returns (snd (rec self a0))) ->
  In var (unassigned self a) -> List.length (unassigned self a) <= bound ->
  forall values, returns (snd (try_values rec var values self a)).
Proof.
  intros Hpost Hrec Hu Hbound values.
  pose proof Hu as Hu'; apply (set_diff_In Var.eqb Var.eqb_eq) in Hu'; destruct Hu' as [_ Hfresh].
  induction values as [|value rest IH]; simpl; [discriminate|].
  rewrite (dict_set_fresh a var value Hfresh).
  pose proof (consistent_returns self (a ++ [(var, value)])) as Hc.
  destruct (consistent self (a ++ [(var, value)])) as [[|]|e|]; simpl;
    [| | discriminate | contradiction].
  - pose proof (Hpost self (a ++ [(var, value)])) as P.
    assert (Hr : returns (snd (rec self (a ++ [(var, value)])))).
    { apply Hrec.
      assert (Hlt : List.length (unassigned self (a ++ [(var, value)]))
                    < List.length (unassigned self a)); [|lia].
      unfold unassigned, set_diff.
      apply filter_length_lt with (x0 := var).
      - intros x Hx; apply negb_true_iff in Hx; apply negb_true_iff.
        apply (mem_false Var.eqb Var.eqb_eq); apply (mem_false Var.eqb Var.eqb_eq) in Hx.
        intros Hin; apply Hx; unfold keys; rewrite map_app; apply in_app_iff; now left.
      - apply (set_diff_In Var.eqb Var.eqb_eq) in Hu; tauto.
      - apply negb_true_iff, (mem_false Var.eqb Var.eqb_eq); exact Hfresh.
      - apply negb_false_iff, (mem_In Var.eqb Var.eqb_eq).
        unfold keys; rewrite map_app; apply in_app_iff; right; now left. }
    destruct (rec self (a ++ [(var, value)])) as [[self2 a2] [[result|]|e|]];
      simpl in P, Hr |- *; [| | discriminate | contradiction].
    + destruct P as [-> [-> [[suffix ->] _]]].
      rewrite <- app_assoc; simpl; rewrite truthy_app; discriminate.
    + destruct P as [-> ->]; change (truthy None) with false; cbv iota.
      rewrite (dict_pop_last a var value Hfresh); exact IH.
  - rewrite (dict_pop_last a var value Hfresh); exact IH.
Qed.

Lemma backtrack_fuel_returns (fuel : nat) (self : CrosswordCreator) (a : Assignment) :
  List.length (unassigned self a) < fuel -> returns (snd (backtrack_fuel fuel self a)).
Proof.
  revert a; induction fuel as [|fuel IH]; intros a Hlt; [lia|]; simpl.
  destruct (assignment_complete self a); [discriminate|].
  pose proof (select_unassigned_variable_returns self a) as Hs.
  destruct (select_unassigned_variable self a) as [var|e|] eqn:Hsel; simpl;
    [| discriminate | contradiction].
  pose proof (order_domain_values_returns self var a) as Ho.
  destruct (order_domain_values self var a) as [values|e|]; simpl;
    [| discriminate | contradiction].
  apply try_values_returns with (bound := fuel); [apply backtrack_fuel_post | exact IH | | lia].
  apply select_unassigned_variable_In in Hsel.
  apply (set_diff_In Var.eqb Var.eqb_eq); exact Hsel.
Qed.

(** [backtrack] never runs out of fuel. *)
Lemma backtrack_returns (self : CrosswordCreator) (a : Assignment) :
  returns (snd (backtrack self a)).
Proof. unfold backtrack; apply backtrack_fuel_returns; lia. Qed.

(** ** The consistency check *)

Lemma nodup_length_le (l : list string) : List.length (nodup string_dec l) <= List.length l.
Proof.
  induction l as [|a l IH]; simpl; [lia|].
  destruct (in_dec string_dec a l); simpl; lia.
Qed.

Lemma nodup_length_eq (l : list string) :
  List.length (nodup string_dec l) = List.length l <-> NoDup l.
Proof.
  split.
  - induction l as [|a l IH]; simpl; [constructor|].
    pose proof (nodup_length_le l) as Hle.
    destruct (in_dec string_dec a l); simpl; intros H; [lia|].
    constructor; [assumption | apply IH; lia].
  - intros H; now rewrite nodup_fixed_point.
Qed.

Lemma NoDup_values_distinct (a : Assignment) :
  NoDup (map snd a) ->
  forall v1 w1 v2 w2, In (v1, w1) a -> In (v2, w2) a -> v1 <> v2 -> w1 <> w2.
Proof.
  induction a as [|[v w] a IH]; simpl; intros Hnd v1 w1 v2 w2 H1 H2 Hne; [contradiction|].
  inv Hnd; intros ->.
  destruct H1 as [H1 | H1], H2 as [H2 | H2].
  - congruence.
  - inv H1; apply H3; apply in_map_iff; exists (v2, w2); auto.
  - inv H2; apply H3; apply in_map_iff; exists (v1, w2); auto.
  - exact (IH H4 v1 w2 v2 w2 H1 H2 Hne eq_refl).
Qed.

Lemma distinct_NoDup_values (a : Assignment) :
  NoDup (keys a) ->
  (forall v1 w1 v2 w2, In (v1, w1) a -> In (v2, w2) a -> v1 <> v2 -> w1 <> w2) ->
  NoDup (map snd a).
Proof.
  induction a as [|[v w] a IH]; simpl; intros Hk Hd; [constructor|].
  inv Hk; constructor.
  - intros Hin; apply in_map_iff in Hin; destruct Hin as [[v' w'] [E Hin]]; simpl in E; subst w'.
    apply (Hd v w v' w); auto.
    intros ->; apply H1; apply in_map_iff; exists (v', w); auto.
  - apply IH; [assumption|]; intros v1 w1 v2 w2 H3 H4; apply Hd; auto.
Qed.

Lemma consistent_inner_true (cw : Crossword) (var : Var.t) (word : Word) (items : Assignment) :
  consistent_inner cw var word items = Ok true ->
  forall nvar nword i j, In (nvar, nword) items -> nvar <> var ->
    overlap_map cw nvar var = Some (i, j) ->
    exists c, String.get i nword = Some c /\ String.get j word = Some c.
Proof.
  induction items as [|[nv nw] items IH]; simpl; intros H nvar nword i j Hin Hne Ho; [contradiction|].
  destruct (Var.eqb_spec nv var) as [E|E]; simpl in H.
  - destruct Hin as [Hin | Hin]; [inv Hin; contradiction | eauto].
  - destruct (overlaps_outcome cw nv var) as [[Hov _] | Hov]; rewrite Hov in H; simpl in H;
      [|discriminate].
    destruct (overlap_map cw nv var) as [[i0 j0]|] eqn:Hm.
    + unfold index in H.
      destruct (String.get i0 nw) as [c1|] eqn:G1; simpl in H; [|discriminate].
      destruct (String.get j0 word) as [c2|] eqn:G2; simpl in H; [|discriminate].
      destruct (Ascii.eqb_spec c1 c2); simpl in H; [subst c2 | discriminate].
      destruct Hin as [Hin | Hin]; [inv Hin | eauto].
      rewrite Hm in Ho; inv Ho; eauto.
    + destruct Hin as [Hin | Hin]; [inv Hin; congruence | eauto].
Qed.

Lemma consistent_inner_false (cw : Crossword) (var : Var.t) (word : Word) (items : Assignment) :
  consistent_inner cw var word items = Ok false ->
  exists nvar nword i j c1 c2, In (nvar, nword) items /\ nvar <> var /\
    overlap_map cw nvar var = Some (i, j) /\
    String.get i nword = Some c1 /\ String.get j word = Some c2 /\ c1 <> c2.
Proof.
  induction items as [|[nv nw] items IH]; simpl; intros H; [discriminate|].
  assert (Hrest : consistent_inner cw var word items = Ok false ->
    exists nvar nword i j c1 c2, In (nvar, nword) ((nv, nw) :: items) /\ nvar <> var /\
      overlap_map cw nvar var = Some (i, j) /\
      String.get i nword = Some c1 /\ String.get j word = Some c2 /\ c1 <> c2).
  { intros H'; destruct (IH H') as (nvar & nword & i & j & c1 & c2 & Hin & Hrest);
      exists nvar, nword, i, j, c1, c2; split; [now right | exact Hrest]. }
  destruct (Var.eqb_spec nv var) as [E|E]; simpl in H; [auto|].
  destruct (overlaps_outcome cw nv var) as [[Hov _] | Hov]; rewrite Hov in H; simpl in H;
    [|discriminate].
  destruct (overlap_map cw nv var) as [[i0 j0]|] eqn:Hm; [|auto].
  unfold index in H.
  destruct (String.get i0 nw) as [c1|] eqn:G1; simpl in H; [|discriminate].
  destruct (String.get j0 word) as [c2|] eqn:G2; simpl in H; [|discriminate].
  destruct (Ascii.eqb_spec c1 c2); simpl in H; [auto|].
  exists nv, nw, i0, j0, c1, c2; repeat split; auto.
Qed.

Lemma consistent_outer_true (cw : Crossword) (todo all : Assignment) :
  consistent_outer cw todo all = Ok true ->
  forall var word, In (var, word) todo ->
    len word = Var.length var /\ consistent_inner cw var word all = Ok true.
Proof.
  induction todo as [|[v w] todo IH]; simpl; intros H var word Hin; [contradiction|].
  destruct (Nat.eqb_spec (len w) (Var.length v)); simpl in H; [|discriminate].
  destruct (consistent_inner cw v w all) as [[|]| |] eqn:Hi; simpl in H; try discriminate.
  destruct Hin as [Hin | Hin]; [inv Hin; auto | auto].
Qed.

Lemma consistent_outer_false (cw : Crossword) (todo all : Assignment) :
  consistent_outer cw todo all = Ok false ->
  exists var word, In (var, word) todo /\
    (len word <> Var.length var \/ consistent_inner cw var word all = Ok false).
Proof.
  induction todo as [|[v w] todo IH]; simpl; intros H; [discriminate|].
  destruct (Nat.eqb_spec (len w) (Var.length v)); simpl in H; [|exists v, w; auto].
  destruct (consistent_inner cw v w all) as [[|]| |] eqn:Hi; simpl in H; try discriminate.
  - destruct (IH H) as (var & word & Hin & Hbad); exists var, word; auto.
  - exists v, w; auto.
Qed.

Lemma consistent_true (self : CrosswordCreator) (a : Assignment) :
  consistent self a = Ok true -> consistent_spec (crossword self) a.
Proof.
  unfold consistent.
  destruct (Nat.eqb_spec (List.length a) (List.length (nodup string_dec (map snd a)))) as [E|E];
    simpl; [|discriminate].
  intros H; split; [|split].
  - apply NoDup_values_distinct; apply nodup_length_eq; rewrite <- E; now rewrite length_map.
  - intros v w Hin; exact (proj1 (consistent_outer_true _ _ _ H v w Hin)).
  - intros v1 w1 v2 w2 i j H1 H2 Hne Ho.
    destruct (consistent_outer_true _ _ _ H v2 w2 H2) as [_ Hi].
    exact (consistent_inner_true _ _ _ _ Hi v1 w1 i j H1 Hne Ho).
Qed.

Lemma consistent_false (self : CrosswordCreator) (a : Assignment) :
  NoDup (keys a) -> consistent self a = Ok false -> ~ consistent_spec (crossword self) a.
Proof.
  unfold consistent; intros Hk H [Hd [Hl Ho]].
  destruct (Nat.eqb_spec (List.length a) (List.length (nodup string_dec (map snd a)))) as [E|E];
    simpl in H.
  - apply consistent_outer_false in H; destruct H as (var & word & Hin & [Hbad | Hbad]).
    + apply Hbad; auto.
    + apply consistent_inner_false in Hbad.
      destruct Hbad as (nvar & nword & i & j & c1 & c2 & Hin' & Hne & Hm & G1 & G2 & Hc).
      destruct (Ho nvar nword var word i j Hin' Hin Hne Hm) as [c [G1' G2']]; congruence.
  - apply E; rewrite (proj2 (nodup_length_eq (map snd a))); [now rewrite length_map|].
    now apply distinct_NoDup_values.
Qed.

Lemma consistent_spec_nil (cw : Crossword) : consistent_spec cw [].
Proof. repeat split; simpl; intros; contradiction. Qed.

Lemma complete_of_keys (cw : Crossword) (a : Assignment) :
  (forall v, In v (variables cw) -> In v (keys a)) -> complete cw a.
Proof. intros H v Hv; apply dict_get_key; auto. Qed.

(** ** The queue of arcs *)

Lemma pop_nth_spec (n : nat) (a : Arc) (l : list Arc) :
  List.length (snd (pop_nth n a l)) = List.length l /\
  forall e, In e (a :: l) <-> e = fst (pop_nth n a l) \/ In e (snd (pop_nth n a l)).
Proof.
  revert a l; induction n as [|n IH]; intros a l; simpl.
  - split; [reflexivity | intros e; intuition].
  - destruct l as [|b l]; simpl; [split; [reflexivity | intros e; intuition]|].
    specialize (IH b l); destruct (pop_nth n b l) as [c r]; simpl in *.
    destruct IH as [Hlen Hin]; split; [now rewrite Hlen|].
    intros e; specialize (Hin e); intuition.
Qed.

Lemma fold_union_In {A B : Type} (eqbB : B -> B -> bool)
    (eqbB_eq : forall a b, eqbB a b = true <-> a = b)
    (g : A -> list B) (l : list A) (acc : list B) (e : B) :
  In e (fold_left (fun arcs var => set_union eqbB arcs (g var)) l acc) <->
  In e acc \/ exists var, In var l /\ In e (g var).
Proof.
  revert acc; induction l as [|a l IH]; simpl; intros acc.
  - split; [auto | intros [H | [var [[] _]]]; exact H].
  - rewrite IH, (set_union_In eqbB eqbB_eq); split.
    + intros [[H | H] | [var [Hv He]]]; eauto.
    + intros [H | [var [[-> | Hv] He]]]; eauto.
Qed.

Lemma all_arcs_In (cw : Crossword) (x y : Var.t) :
  In (x, y) (all_arcs cw) <-> In x (variables cw) /\ In y (neighbors cw x).
Proof.
  unfold all_arcs; rewrite (fold_union_In arc_eqb arc_eqb_eq); simpl; split.
  - intros [[] | [var [Hv He]]].
    apply in_map_iff in He; destruct He as [v [E Hn]]; inv E; auto.
  - intros [Hx Hy]; right; exists x; split; [assumption|].
    apply in_map_iff; exists y; auto.
Qed.

Lemma neighbors_In (cw : Crossword) (var v : Var.t) :
  In v (neighbors cw var) <->
  In v (variables cw) /\ v <> var /\ overlap_map cw v var <> None.
Proof.
  unfold neighbors; rewrite filter_In, andb_true_iff, negb_true_iff, Var.eqb_neq.
  destruct (overlap_map cw v var); simpl; intuition congruence.
Qed.

(** ** Claims on the state: C7, C8, C9 *)

(** C7.  When [backtrack] returns [None], the assignment dictionary is
    exactly as it was when the call was entered: every binding the call
    added has been removed again. *)
Theorem C7_backtrack_undo (self self' : CrosswordCreator) (a a' : Assignment)
    (H : backtrack self a = (self', a', Ok None)) :
  a' = a.
Proof.
  pose proof (backtrack_fuel_post (S (List.length (unassigned self a))) self a) as P.
  unfold backtrack in H; rewrite H in P; simpl in P; tauto.
Qed.

Lemma C7_backtrack_undo_witness :
  backtrack (init (Examples.cross ["CAT"; "DOG"]%string)) [(Examples.vA, "CAT"%string)]
    = (init (Examples.cross ["CAT"; "DOG"]%string), [(Examples.vA, "CAT"%string)], Ok None) /\
  [(Examples.vA, "CAT"%string)] = [(Examples.vA, "CAT"%string)].
Proof.
  split; [vm_compute; reflexivity|].
  apply (C7_backtrack_undo (init (Examples.cross ["CAT"; "DOG"]%string))
           (init (Examples.cross ["CAT"; "DOG"]%string))).
  vm_compute; reflexivity.
Defined.

(** C8.  [enforce_node_consistency], [revise] and [ac3] leave every
    variable with a subset of the domain it had before the call, however
    the call ends; [backtrack] leaves the solver object, and so
    [self.domains], as it found it. *)
Theorem C8_domains_never_grow (pick : list Arc -> nat) (self : CrosswordCreator)
    (x y : Var.t) (arcs : option (list Arc)) (a : Assignment) :
  never_grows (domains self) (domains (enforce_node_consistency self)) /\
  never_grows (domains self) (domains (fst (revise self x y))) /\
  never_grows (domains self) (domains (fst (ac3 pick self arcs))) /\
  domains (fst (fst (backtrack self a))) = domains self.
Proof.
  split; [|split; [|split]].
  - apply shrinks_never_grows, enforce_node_consistency_pruned.
  - apply shrinks_never_grows, revise_pruned_state.
  - apply shrinks_never_grows, ac3_pruned.
  - pose proof (backtrack_fuel_post (S (List.length (unassigned self a))) self a) as P.
    unfold backtrack; destruct (backtrack_fuel _ self a) as [[s' a'] r]; simpl in *.
    destruct P as [-> _]; reflexivity.
Qed.

(** C9.  [ac3] called with an empty collection of arcs does what it does
    with [arcs=None]: the queue is seeded with the pairs [(v, n)] for every
    variable [v] and every neighbor [n] of [v], and the loop runs on it. *)
Theorem C9_ac3_empty_arcs (pick : list Arc -> nat) (self : CrosswordCreator) :
  ac3 pick self (Some []) = ac3 pick self None /\
  ac3 pick self (Some []) =
    ac3_loop pick (ac3_fuel self (all_arcs (crossword self))) self (all_arcs (crossword self)) /\
  forall v n, In (v, n) (all_arcs (crossword self)) <->
    In v (variables (crossword self)) /\ In n (neighbors (crossword self) v).
Proof.
  split; [reflexivity | split; [reflexivity | apply all_arcs_In]].
Qed.

(** ** The AC-3 loop as a run *)

Lemma total_size_set (d : Domains) (x : Var.t) (xs xs' : list Word) :
  dict_get d x = Ok xs ->
  total_size (dict_set d x xs') + List.length xs = total_size d + List.length xs'.
Proof.
  unfold total_size; induction d as [|[k ws] d IH]; simpl; [discriminate|].
  destruct (Var.eqb_spec x k); simpl; intros H.
  - inv H; lia.
  - specialize (IH H); lia.
Qed.

Lemma neighbors_length (cw : Crossword) (x : Var.t) :
  List.length (neighbors cw x) <= List.length (variables cw).
Proof. apply filter_length_le. Qed.

Section AC3Run.
Variable pick : list Arc -> nat.

Lemma revise_pair (s : CrosswordCreator) (x y : Var.t) (s1 : CrosswordCreator) (r : outcome bool) :
  revise s x y = (s1, r) -> revise_spec s x y s1 r.
Proof. intros H; pose proof (revise_cases s x y) as C; now rewrite H in C. Qed.

Lemma ac3_loop_run (fuel : nat) (s : CrosswordCreator) (arcs : list Arc) :
  snd (ac3_loop pick fuel s arcs) <> OutOfFuel ->
  ac3_run pick s arcs (fst (ac3_loop pick fuel s arcs)) (snd (ac3_loop pick fuel s arcs)).
Proof.
  revert s arcs; induction fuel as [|fuel IH]; intros s arcs; simpl; [congruence|].
  destruct arcs as [|a l]; simpl; [intros _; constructor|].
  destruct (set_pop pick a l) as [[x y] rest] eqn:Hpop.
  destruct (revise s x y) as [s1 r1] eqn:Hrev.
  pose proof (revise_pair s x y s1 r1 Hrev) as C.
  destruct C as [Ho | a0 b0 xs ys Ho Hx Hy Hf | a0 b0 xs ys Ho Hx Hy Hlt | e].
  - intros H; eapply run_keep; eauto.
  - intros H; eapply run_keep; eauto.
  - simpl; rewrite dict_get_set_same.
    destruct (filter (kept a0 b0 ys) xs) as [|w ws] eqn:Ef; simpl.
    + intros _; eapply run_emptied; eauto.
      simpl; rewrite <- Ef; apply dict_get_set_same.
    + intros H.
      eapply (run_requeue pick s a l x y rest _ (w :: ws));
        [exact Hpop | exact Hrev | simpl; apply dict_get_set_same | discriminate
        | apply IH; exact H].
  - intros _; eapply run_raise; eauto.
Qed.

(** The fuel of [ac3] is enough: a revision removes a word, and it adds
    fewer arcs than there are variables. *)
Lemma ac3_loop_fuel (fuel : nat) (s : CrosswordCreator) (arcs : list Arc) :
  total_size (domains s) * S (List.length (variables (crossword s))) + List.length arcs < fuel ->
  snd (ac3_loop pick fuel s arcs) <> OutOfFuel.
Proof.
  revert s arcs; induction fuel as [|fuel IH]; intros s arcs Hm; simpl; [lia|].
  destruct arcs as [|a l]; simpl; [congruence|].
  unfold set_pop.
  pose proof (pop_nth_spec (pick (a :: l) mod S (List.length l)) a l) as [Hlen _].
  destruct (pop_nth (pick (a :: l) mod S (List.length l)) a l) as [[x y] rest]; simpl in Hlen.
  destruct (revise s x y) as [s1 r1] eqn:Hrev.
  pose proof (revise_pair s x y s1 r1 Hrev) as C.
  simpl in Hm.
  destruct C as [Ho | a0 b0 xs ys Ho Hx Hy Hf | a0 b0 xs ys Ho Hx Hy Hlt | e].
  - apply IH; lia.
  - apply IH; lia.
  - simpl; rewrite dict_get_set_same.
    destruct (List.length (filter (kept a0 b0 ys) xs) =? 0); simpl; [congruence|].
    apply IH; simpl.
    pose proof (total_size_set (domains s) x xs (filter (kept a0 b0 ys) xs) Hx) as Ht.
    pose proof (set_union_length arc_eqb rest
      (map (fun z => (z, x)) (set_diff Var.eqb (neighbors (crossword s) x) [y]))) as Hu.
    rewrite length_map in Hu.
    pose proof (filter_length_le (fun a => negb (mem Var.eqb a [y])) (neighbors (crossword s) x)) as Hd.
    pose proof (neighbors_length (crossword s) x) as Hn.
    unfold set_diff in *.
    remember (total_size (dict_set (domains s) x (filter (kept a0 b0 ys) xs))) as T'.
    remember (total_size (domains s)) as T.
    remember (List.length (variables (crossword s))) as N.
    assert (T' + 1 <= T) by lia.
    assert (T' * S N + S N <= T * S N) by nia.
    lia.
  - simpl; congruence.
Qed.

Lemma ac3_run_of_ac3 (s : CrosswordCreator) (arcs : option (list Arc)) :
  exists queue,
    (queue = match arcs with
             | None | Some [] => all_arcs (crossword s)
             | Some (a :: l) => a :: l
             end) /\
    ac3_run pick s queue (fst (ac3 pick s arcs)) (snd (ac3 pick s arcs)).
Proof.
  eexists; split; [reflexivity|].
  unfold ac3; apply ac3_loop_run, ac3_loop_fuel; unfold ac3_fuel; lia.
Qed.

Lemma ac3_no_OutOfFuel (s : CrosswordCreator) (arcs : option (list Arc)) :
  snd (ac3 pick s arcs) <> OutOfFuel.
Proof. unfold ac3; apply ac3_loop_fuel; unfold ac3_fuel; lia. Qed.

(** A run that does not return [False] leaves no domain empty that was
    not empty before. *)
Lemma ac3_run_nonempty (s : CrosswordCreator) (arcs : list Arc) (s' : CrosswordCreator)
    (r : outcome bool) :
  ac3_run pick s arcs s' r -> r <> Ok false ->
  forall v ws, dict_get (domains s) v = Ok ws -> ws <> [] ->
    exists ws', dict_get (domains s') v = Ok ws' /\ ws' <> [].
Proof.
  induction 1 as [s | s a l x y rest s' r Hpop Hrev Hrun IH | s a l x y rest s1 Hpop Hrev Hget
                 | s a l x y rest s1 xs s' r Hpop Hrev Hget Hne Hrun IH | s a l x y rest e Hpop Hrev];
    intros Hr v ws Hv Hws; eauto; [congruence|].
  assert (H1 : exists ws1, dict_get (domains s1) v = Ok ws1 /\ ws1 <> []).
  { apply revise_pair in Hrev; inv Hrev; simpl in *.
    destruct (Var.eqb_spec v x); [subst v|].
    - rewrite dict_get_set_same in *; inv Hget; eauto.
    - rewrite dict_get_set_other by assumption; eauto. }
  destruct H1 as [ws1 [Hg1 Hn1]]; exact (IH Hr v ws1 Hg1 Hn1).
Qed.

End AC3Run.

(** ** Selecting a variable *)

(** With every unassigned variable in [self.domains], the selection
    returns an unassigned variable whose domain is the smallest. *)
Lemma select_unassigned_variable_min (self : CrosswordCreator) (a : Assignment) :
  (forall u, In u (unassigned self a) -> exists ws, dict_get (domains self) u = Ok ws) ->
  unassigned self a <> [] ->
  exists var ws, select_unassigned_variable self a = Ok var /\
    In var (unassigned self a) /\ dict_get (domains self) var = Ok ws /\
    forall u ws_u, In u (unassigned self a) -> dict_get (domains self) u = Ok ws_u ->
      List.length ws <= List.length ws_u.
Proof.
  intros Hdef Hne; unfold select_unassigned_variable; fold (unassigned self a).
  set (f := fun v => ws <- dict_get (domains self) v ;; Ok (List.length ws)).
  destruct (dict_build_defined f (unassigned self a)) as [num_vals Hb].
  { intros u Hu; destruct (Hdef u Hu) as [ws Hws]; exists (List.length ws); unfold f; now rewrite Hws. }
  rewrite Hb; simpl.
  assert (Hkey : forall u ws_u, In u (unassigned self a) -> dict_get (domains self) u = Ok ws_u ->
                   key_of num_vals u = List.length ws_u).
  { intros u ws_u Hu Hg; unfold key_of; rewrite (dict_build_get f _ _ Hb u Hu); unfold f; now rewrite Hg. }
  set (deg := map (fun v => (v, List.length (neighbors (crossword self) v))) (unassigned self a)).
  destruct (sorted (key_of num_vals) false (sorted (key_of deg) true (unassigned self a)))
    as [|h t] eqn:Es.
  - exfalso; destruct (unassigned self a) as [|u l] eqn:Eu; [congruence|].
    assert (Hin : In u (sorted (key_of num_vals) false (sorted (key_of deg) true (u :: l))))
      by (apply sorted_In, sorted_In; now left).
    rewrite Es in Hin; contradiction.
  - assert (Hh : In h (unassigned self a)).
    { assert (Hin : In h (h :: t)) by now left.
      rewrite <- Es in Hin; now apply sorted_In, sorted_In in Hin. }
    destruct (Hdef h Hh) as [ws Hws]; exists h, ws; repeat split; auto.
    intros u ws_u Hu Hg.
    rewrite <- (Hkey h ws Hh Hws), <- (Hkey u ws_u Hu Hg).
    apply (sorted_head_min _ _ _ _ Es); now apply sorted_In.
Qed.

Lemma unassigned_nil (self : CrosswordCreator) :
  unassigned self [] = variables (crossword self).
Proof.
  unfold unassigned, set_diff; simpl.
  apply forallb_filter_id; apply forallb_forall; reflexivity.
Qed.

Lemma unassigned_In (self : CrosswordCreator) (a : Assignment) (v : Var.t) :
  In v (unassigned self a) <-> In v (variables (crossword self)) /\ ~ In v (keys a).
Proof. apply (set_diff_In Var.eqb Var.eqb_eq). Qed.

(** With an empty domain in it, the search from the empty assignment ends
    in its first call: the selected variable has no candidate. *)
Lemma backtrack_empty_domain (self : CrosswordCreator) (v : Var.t) :
  incl (variables (crossword self)) (keys (domains self)) ->
  In v (variables (crossword self)) ->
  dict_get (domains self) v = Ok [] ->
  backtrack self [] = (self, [], Ok None).
Proof.
  intros Hkeys Hv Hempty; unfold backtrack; simpl.
  destruct (assignment_complete self []) eqn:Hc.
  - rewrite assignment_complete_true in Hc; exfalso; exact (Hc v Hv).
  - destruct (select_unassigned_variable_min self []) as (var & ws & Hsel & Hin & Hget & Hmin).
    + intros u Hu; rewrite unassigned_nil in Hu; apply dict_get_key, Hkeys, Hu.
    + rewrite unassigned_nil; intros E; rewrite E in Hv; contradiction.
    + rewrite Hsel.
      assert (Hws : ws = []).
      { rewrite unassigned_nil in Hmin; specialize (Hmin v [] Hv Hempty).
        destruct ws; [reflexivity | simpl in Hmin; lia]. }
      subst ws; unfold order_domain_values; rewrite Hget; reflexivity.
Qed.

(** ** Failure of AC-3 and the entry point: C1, C2, C5 *)

Section AC3Failure.
Variable pick : list Arc -> nat.

(** A domain that is emptied during a run ends the run with [False]; the
    variable is one of the puzzle. *)
Lemma ac3_run_emptied (s : CrosswordCreator) (arcs : list Arc) (s' : CrosswordCreator)
    (r : outcome bool) :
  ac3_run pick s arcs s' r ->
  forall v ws, dict_get (domains s) v = Ok ws -> ws <> [] ->
    dict_get (domains s') v = Ok [] ->
    r = Ok false /\ In v (variables (crossword s)).
Proof.
  induction 1 as [s | s a l x y rest s' r Hpop Hrev Hrun IH | s a l x y rest s1 Hpop Hrev Hget
                 | s a l x y rest s1 xs s' r Hpop Hrev Hget Hne Hrun IH | s a l x y rest e Hpop Hrev];
    intros v ws Hv Hws Hend; try congruence; eauto.
  - apply revise_pair in Hrev; inv Hrev; simpl in *.
    destruct (Var.eqb_spec v x); [subst v|].
    + split; [reflexivity|].
      destruct (overlaps_outcome (crossword s) x y) as [[_ [Hx _]] | Ho]; [assumption | congruence].
    + rewrite dict_get_set_other in Hend by assumption; congruence.
  - assert (Hcw : crossword s1 = crossword s)
      by (pose proof (revise_crossword s x y) as C; now rewrite Hrev in C).
    rewrite <- Hcw.
    assert (H1 : exists ws1, dict_get (domains s1) v = Ok ws1 /\ ws1 <> []).
    { apply revise_pair in Hrev; inv Hrev; simpl in *.
      destruct (Var.eqb_spec v x); [subst v|].
      - rewrite dict_get_set_same in *; inv Hget; eauto.
      - rewrite dict_get_set_other by assumption; eauto. }
    destruct H1 as [ws1 [Hg1 Hn1]]; exact (IH v ws1 Hg1 Hn1 Hend).
Qed.

(** Whenever a domain is empty after node consistency and AC-3, whichever
    of the two emptied it and whatever [ac3] returned, [solve] calls
    [backtrack] and returns [None]. *)
Lemma solve_empty_domain (self : CrosswordCreator) (v : Var.t) (b : bool) :
  keys (domains self) = variables (crossword self) ->
  In v (variables (crossword self)) ->
  snd (ac3 pick (enforce_node_consistency self) None) = Ok b ->
  dict_get (domains (fst (ac3 pick (enforce_node_consistency self) None))) v = Ok [] ->
  solve pick self =
    (fst (ac3 pick (enforce_node_consistency self) None),
     [Call_enforce_node_consistency; Call_ac3; Call_backtrack], Ok None).
Proof.
  intros Hkeys Hv Hr Hafter; unfold solve.
  pose proof (ac3_pruned pick (enforce_node_consistency self) None) as [Hcw Hsh].
  apply shrinks_never_grows in Hsh; destruct Hsh as [Hk _].
  rewrite enforce_node_consistency_keys, Hkeys in Hk.
  destruct (ac3 pick (enforce_node_consistency self) None) as [self2 r2].
  simpl in Hr, Hcw, Hk, Hafter |- *; subst r2.
  rewrite (backtrack_empty_domain self2 v); [reflexivity | | | assumption].
  - rewrite Hk, Hcw; apply incl_refl.
  - now rewrite Hcw.
Qed.

(** C1 (amended).  When the domain of a variable becomes empty during
    AC-3 propagation, [ac3] returns [False], whatever arcs it was given.
    [solve] drops that value and still calls [backtrack] on the empty
    assignment; on a solver whose domains cover the variables of the
    puzzle that call returns [None], and so does [solve]. *)
Theorem C1_ac3_failure (self : CrosswordCreator) (v : Var.t) (ws : list Word)
    (Hkeys : keys (domains self) = variables (crossword self))
    (Hbefore : dict_get (domains (enforce_node_consistency self)) v = Ok ws)
    (Hne : ws <> [])
    (Hafter : dict_get (domains (fst (ac3 pick (enforce_node_consistency self) None))) v = Ok []) :
  snd (ac3 pick (enforce_node_consistency self) None) = Ok false /\
  (forall (s : CrosswordCreator) (arcs : option (list Arc)) (u : Var.t) (us : list Word),
      dict_get (domains s) u = Ok us -> us <> [] ->
      dict_get (domains (fst (ac3 pick s arcs))) u = Ok [] ->
      snd (ac3 pick s arcs) = Ok false) /\
  solve pick self =
    (fst (ac3 pick (enforce_node_consistency self) None),
     [Call_enforce_node_consistency; Call_ac3; Call_backtrack], Ok None).
Proof.
  assert (Hgen : forall s arcs u us,
             dict_get (domains s) u = Ok us -> us <> [] ->
             dict_get (domains (fst (ac3 pick s arcs))) u = Ok [] ->
             snd (ac3 pick s arcs) = Ok false /\ In u (variables (crossword s))).
  { intros s arcs u us Hu Hus Hend.
    destruct (ac3_run_of_ac3 pick s arcs) as [queue [_ Hrun]].
    exact (ac3_run_emptied _ _ _ _ Hrun u us Hu Hus Hend). }
  destruct (Hgen _ None v ws Hbefore Hne Hafter) as [Hr Hv].
  split; [exact Hr | split; [intros s arcs u us H1 H2 H3; exact (proj1 (Hgen s arcs u us H1 H2 H3))|]].
  exact (solve_empty_domain self v false Hkeys Hv Hr Hafter).
Qed.

End AC3Failure.

Lemma C1_ac3_failure_witness :
  keys (domains (init (Examples.cross ["CAT"; "DOG"]%string)))
    = variables (crossword (init (Examples.cross ["CAT"; "DOG"]%string))) /\
  dict_get (domains (enforce_node_consistency (init (Examples.cross ["CAT"; "DOG"]%string))))
    Examples.vA = Ok ["CAT"; "DOG"]%string /\
  ["CAT"; "DOG"]%string <> [] /\
  dict_get (domains (fst (ac3 Examples.first_arc
     (enforce_node_consistency (init (Examples.cross ["CAT"; "DOG"]%string))) None)))
    Examples.vA = Ok [] /\
  snd (ac3 Examples.first_arc
         (enforce_node_consistency (init (Examples.cross ["CAT"; "DOG"]%string))) None) = Ok false /\
  solve Examples.first_arc (init (Examples.cross ["CAT"; "DOG"]%string)) =
    (fst (ac3 Examples.first_arc
            (enforce_node_consistency (init (Examples.cross ["CAT"; "DOG"]%string))) None),
     [Call_enforce_node_consistency; Call_ac3; Call_backtrack], Ok None).
Proof.
  split; [reflexivity | split; [reflexivity | split; [discriminate | split; [vm_compute; reflexivity|]]]].
  pose proof (C1_ac3_failure Examples.first_arc (init (Examples.cross ["CAT"; "DOG"]%string))
                Examples.vA ["CAT"; "DOG"]%string eq_refl eq_refl
                ltac:(discriminate) ltac:(vm_compute; reflexivity)) as H.
  exact (conj (proj1 H) (proj2 (proj2 H))).
Defined.

(** C1 as worded fails: on two crossing slots with the words CAT and DOG,
    AC-3 empties a domain and returns [False], and [solve] goes on to call
    [backtrack]. *)
Lemma C1_counterexample :
  ~ C1_as_stated Examples.first_arc (init (Examples.cross ["CAT"; "DOG"]%string)).
Proof.
  unfold C1_as_stated; intros H.
  destruct H as [_ [_ Hlog]].
  - exists Examples.vA, ["CAT"; "DOG"]%string.
    split; [reflexivity | split; [discriminate | vm_compute; reflexivity]].
  - apply Hlog; vm_compute; auto.
Qed.

(** An assignment returned by the search from the empty assignment is
    complete and satisfies the consistency predicate. *)
Lemma backtrack_sound (self self' : CrosswordCreator) (a' a : Assignment) :
  backtrack self [] = (self', a', Ok (Some a)) ->
  complete (crossword self) a /\ consistent_spec (crossword self) a.
Proof.
  intros H.
  pose proof (backtrack_fuel_post (S (List.length (unassigned self []))) self []) as P.
  unfold backtrack in H; rewrite H in P; simpl in P.
  destruct P as [-> [-> [_ [_ [Hcomp Hcons]]]]]; split.
  - apply complete_of_keys, assignment_complete_true, Hcomp.
  - destruct Hcons as [-> | Hcons]; [apply consistent_spec_nil | now apply consistent_true].
Qed.

(** [solve] never runs out of fuel. *)
Lemma solve_returns (pick : list Arc -> nat) (self : CrosswordCreator) :
  returns (snd (solve pick self)).
Proof.
  unfold solve.
  pose proof (ac3_no_OutOfFuel pick (enforce_node_consistency self) None) as Ha.
  destruct (ac3 pick (enforce_node_consistency self) None) as [self2 [b|e|]]; simpl in *;
    [| discriminate | contradiction].
  pose proof (backtrack_returns self2 []) as Hb.
  destruct (backtrack self2 []) as [[self3 a3] r]; exact Hb.
Qed.

(** C2.  An assignment returned by [solve] gives a word to every variable
    of the puzzle and satisfies the consistency predicate: the words are
    pairwise distinct, each has the length of its variable, and the
    characters agree at every overlap. *)
Theorem C2_solve_sound (pick : list Arc -> nat) (self self' : CrosswordCreator)
    (log : list call) (a : Assignment)
    (H : solve pick self = (self', log, Ok (Some a))) :
  complete (crossword self) a /\ consistent_spec (crossword self) a.
Proof.
  unfold solve in H.
  pose proof (ac3_pruned pick (enforce_node_consistency self) None) as [Hcw _].
  destruct (ac3 pick (enforce_node_consistency self) None) as [self2 r2]; simpl in Hcw.
  destruct r2 as [b|e|]; try discriminate.
  destruct (backtrack self2 []) as [[self3 a3] r3] eqn:Hb; inv H.
  rewrite <- Hcw; exact (backtrack_sound self2 self' a3 a Hb).
Qed.

Lemma C2_solve_sound_witness :
  solve Examples.first_arc (init (Examples.cross ["CAT"; "DOG"; "TOE"; "EAR"; "A"]%string)) =
    (fst (fst (solve Examples.first_arc
                 (init (Examples.cross ["CAT"; "DOG"; "TOE"; "EAR"; "A"]%string)))),
     snd (fst (solve Examples.first_arc
                 (init (Examples.cross ["CAT"; "DOG"; "TOE"; "EAR"; "A"]%string)))),
     Ok (Some [(Examples.vA, "CAT"%string); (Examples.vB, "EAR"%string)])) /\
  complete (Examples.cross ["CAT"; "DOG"; "TOE"; "EAR"; "A"]%string)
    [(Examples.vA, "CAT"%string); (Examples.vB, "EAR"%string)] /\
  consistent_spec (Examples.cross ["CAT"; "DOG"; "TOE"; "EAR"; "A"]%string)
    [(Examples.vA, "CAT"%string); (Examples.vB, "EAR"%string)].
Proof.
  split; [vm_compute; reflexivity|].
  apply (C2_solve_sound Examples.first_arc
           (init (Examples.cross ["CAT"; "DOG"; "TOE"; "EAR"; "A"]%string))
           (fst (fst (solve Examples.first_arc
                        (init (Examples.cross ["CAT"; "DOG"; "TOE"; "EAR"; "A"]%string)))))
           (snd (fst (solve Examples.first_arc
                        (init (Examples.cross ["CAT"; "DOG"; "TOE"; "EAR"; "A"]%string)))))).
  vm_compute; reflexivity.
Defined.

(** C5 fails on the code.  A puzzle with one slot of length 3 and the word
    list [AB]: node consistency empties the only domain, the queue of arcs
    is empty, and [ac3] returns [True]. *)
Theorem C5_ac3_true_on_empty_domain (pick : list Arc -> nat) :
  let self := enforce_node_consistency (init (Examples.lonely ["AB"]%string)) in
  dict_get (domains self) Examples.vA = Ok [] /\
  ac3 pick self None = (self, Ok true).
Proof. split; reflexivity. Qed.

(** The same with neighbors: with no word at all both domains are empty,
    no revision changes them, and [ac3] returns [True]. *)
Example ac3_true_on_empty_word_list :
  ac3 Examples.first_arc (init (Examples.cross [])) None = (init (Examples.cross []), Ok true).
Proof. reflexivity. Qed.

(** ** Well-formed puzzles and solutions *)

Lemma ready_pruned (s s' : CrosswordCreator) : ready s -> pruned s s' -> ready s'.
Proof.
  intros [Hwf [Hk Hnc]] [Hcw Hsh].
  apply shrinks_never_grows in Hsh; destruct Hsh as [Hk' Hsub].
  split; [now rewrite Hcw | split; [congruence|]].
  intros v ws' w Hg Hw; destruct (Hsub v ws' Hg) as [ws [Hg0 Hi]]; eauto.
Qed.

Lemma ready_enforce (self : CrosswordCreator) :
  well_formed (crossword self) -> keys (domains self) = variables (crossword self) ->
  ready (enforce_node_consistency self).
Proof.
  intros Hwf Hk; split; [exact Hwf | split].
  - now rewrite enforce_node_consistency_keys.
  - intros v ws' w Hg Hw; rewrite enforce_node_consistency_get in Hg.
    destruct (dict_get (domains self) v) as [ws| |]; simpl in Hg; inv Hg.
    apply filter_In in Hw; destruct Hw as [_ Hf]; unfold fits in Hf.
    symmetry; now apply Nat.eqb_eq.
Qed.

Lemma ready_get (self : CrosswordCreator) (v : Var.t) :
  ready self -> In v (variables (crossword self)) -> exists ws, dict_get (domains self) v = Ok ws.
Proof. intros [_ [Hk _]] Hv; apply dict_get_key; now rewrite Hk. Qed.

Lemma revise_safe (self : CrosswordCreator) (x y : Var.t) :
  ready self -> In x (variables (crossword self)) -> In y (variables (crossword self)) -> x <> y ->
  exists b, snd (revise self x y) = Ok b.
Proof.
  intros Hready Hx Hy Hne.
  destruct (overlap_map (crossword self) x y) as [[a b]|] eqn:Hm.
  - destruct (ready_get self x Hready Hx) as [xs Hgx].
    destruct (ready_get self y Hready Hy) as [ys Hgy].
    destruct Hready as [Hwf [_ Hnc]].
    destruct (Hwf x y a b Hx Hy Hne Hm) as [Ha [Hb _]].
    refine (proj2 (proj2 (revise_in_bounds self x y a b xs ys _ Hgx Hgy _ _))).
    + rewrite overlaps_defined by assumption; now rewrite Hm.
    + intros w Hw; rewrite (Hnc x xs w Hgx Hw); exact Ha.
    + intros w Hw; rewrite (Hnc y ys w Hgy Hw); exact Hb.
  - unfold revise; rewrite overlaps_defined by assumption; rewrite Hm; simpl; eauto.
Qed.

Lemma all_arcs_valid (cw : Crossword) : valid_arcs cw (all_arcs cw).
Proof.
  intros x y H; apply all_arcs_In in H; destruct H as [Hx Hy].
  apply neighbors_In in Hy; intuition.
Qed.

Section AC3Total.
Variable pick : list Arc -> nat.

Lemma set_pop_In (a : Arc) (l : list Arc) (x y : Var.t) (rest : list Arc) :
  set_pop pick a l = ((x, y), rest) ->
  In (x, y) (a :: l) /\ incl rest (a :: l).
Proof.
  unfold set_pop; intros H.
  destruct (pop_nth_spec (pick (a :: l) mod S (List.length l)) a l) as [_ Hin].
  rewrite H in Hin; simpl in Hin; split.
  - apply Hin; now left.
  - intros e He; apply Hin; now right.
Qed.

Lemma requeue_valid (cw : Crossword) (rest : list Arc) (x y : Var.t) :
  valid_arcs cw rest -> In x (variables cw) -> valid_arcs cw (requeue cw rest x y).
Proof.
  intros Hrest Hx u v H; unfold requeue in H.
  apply (set_union_In arc_eqb arc_eqb_eq) in H; destruct H as [H | H]; [auto|].
  apply in_map_iff in H; destruct H as [z [E Hz]]; inv E.
  apply (set_diff_In Var.eqb Var.eqb_eq) in Hz; destruct Hz as [Hz _].
  apply neighbors_In in Hz; intuition.
Qed.

(** On a well-formed puzzle with node-consistent domains the loop raises
    no exception. *)
Lemma ac3_run_returns (s : CrosswordCreator) (arcs : list Arc) (s' : CrosswordCreator)
    (r : outcome bool) :
  ac3_run pick s arcs s' r -> ready s -> valid_arcs (crossword s) arcs ->
  exists b, r = Ok b.
Proof.
  induction 1 as [s | s a l x y rest s' r Hpop Hrev Hrun IH | s a l x y rest s1 Hpop Hrev Hget
                 | s a l x y rest s1 xs s' r Hpop Hrev Hget Hne Hrun IH | s a l x y rest e Hpop Hrev];
    intros Hready Hvalid; eauto.
  - apply IH; [assumption|].
    destruct (set_pop_In _ _ _ _ _ Hpop) as [_ Hrest]; intros u v Huv; apply Hvalid, Hrest, Huv.
  - destruct (set_pop_In _ _ _ _ _ Hpop) as [Hxy Hrest].
    pose proof (revise_pruned_state s x y) as Hp; rewrite Hrev in Hp; simpl in Hp.
    apply IH; [eapply ready_pruned; eassumption|].
    destruct Hp as [Hcw _]; rewrite Hcw.
    apply requeue_valid; [intros u v Huv; apply Hvalid, Hrest, Huv | apply (Hvalid x y Hxy)].
  - destruct (set_pop_In _ _ _ _ _ Hpop) as [Hxy _].
    destruct (Hvalid x y Hxy) as [Hx [Hy Hxy']].
    destruct (revise_safe s x y Hready Hx Hy Hxy') as [b Hb].
    rewrite Hrev in Hb; discriminate.
Qed.

Lemma ac3_returns (s : CrosswordCreator) :
  ready s -> exists b, snd (ac3 pick s None) = Ok b.
Proof.
  intros Hready; destruct (ac3_run_of_ac3 pick s None) as [queue [-> Hrun]].
  eapply ac3_run_returns; [exact Hrun | exact Hready | apply all_arcs_valid].
Qed.

End AC3Total.

(** ** Pruning keeps every solution *)

Lemma solution_pruned_back (s s' : CrosswordCreator) (a : Assignment) :
  pruned s s' -> solution s' a -> solution s a.
Proof.
  intros [Hcw Hsh] [Hnd [Hk [Hd Hc]]]; rewrite Hcw in *.
  split; [assumption | split; [exact Hk | split; [|assumption]]].
  intros v w Hin; destruct (Hd v w Hin) as [ws' [Hg Hw]].
  destruct (proj2 (shrinks_never_grows _ _ Hsh) v ws' Hg) as [ws [Hg0 Hi]]; eauto.
Qed.

Lemma solution_enforce (self : CrosswordCreator) (a : Assignment) :
  solution self a -> solution (enforce_node_consistency self) a.
Proof.
  intros [Hnd [Hk [Hd Hc]]].
  split; [assumption | split; [exact Hk | split; [|assumption]]].
  intros v w Hin; destruct (Hd v w Hin) as [ws [Hg Hw]].
  exists (filter (fits v) ws); rewrite enforce_node_consistency_get, Hg; split; [reflexivity|].
  apply filter_In; split; [assumption|].
  destruct Hc as [_ [Hl _]]; unfold fits; apply Nat.eqb_eq; symmetry; exact (Hl v w Hin).
Qed.

Lemma solution_supported (self : CrosswordCreator) (sol : Assignment) (x y : Var.t)
    (a b : nat) (ys : list Word) (w : Word) :
  solution self sol ->
  overlaps (crossword self) x y = Ok (Some (a, b)) ->
  dict_get (domains self) y = Ok ys ->
  In (x, w) sol ->
  supported a b ys w = true.
Proof.
  intros [Hnd [Hk [Hd [Hdis [_ Hov]]]]] Ho Hgy Hin.
  destruct (overlaps_outcome (crossword self) x y) as [[Ho' [Hx [Hy Hne]]] | Ho']; [|congruence].
  rewrite Ho' in Ho; inv Ho.
  apply Hk, in_map_iff in Hy; destruct Hy as [[y' w'] [E Hin']]; simpl in E; subst y'.
  destruct (Hd y w' Hin') as [ys' [Hgy' Hw']]; rewrite Hgy in Hgy'; inv Hgy'.
  destruct (Hov x w y w' a b Hin Hin' Hne H0) as [c [G1 G2]].
  unfold supported; apply existsb_exists; exists w'; split; [assumption|].
  unfold supports; rewrite G1, G2; simpl; rewrite Ascii.eqb_refl, andb_true_r.
  apply negb_true_iff, orb_false_iff; split.
  - apply Nat.ltb_ge; apply get_Some_inv in G2; unfold len; lia.
  - apply String.eqb_neq; exact (Hdis x w y w' Hin Hin' Hne).
Qed.

Lemma solution_revise (self : CrosswordCreator) (x y : Var.t) (sol : Assignment) :
  solution self sol -> solution (fst (revise self x y)) sol.
Proof.
  intros Hsol; destruct (revise_cases self x y) as [Ho | a b xs ys Ho Hx Hy Hf | a b xs ys Ho Hx Hy Hlt | e];
    try assumption.
  pose proof Hsol as [Hnd [Hk [Hd Hc]]].
  split; [assumption | split; [exact Hk | split; [|assumption]]].
  intros v w Hin; simpl.
  destruct (Var.eqb_spec v x); [subst v|].
  - rewrite dict_get_set_same; eexists; split; [reflexivity|].
    destruct (Hd x w Hin) as [xs' [Hg Hw]]; rewrite Hx in Hg; inv Hg.
    apply filter_In; split; [assumption|].
    unfold kept; rewrite (solution_supported self sol x y a b ys w Hsol Ho Hy Hin).
    apply orb_true_r.
  - rewrite dict_get_set_other by assumption; exact (Hd v w Hin).
Qed.

Lemma solution_ac3 (pick : list Arc -> nat) (self : CrosswordCreator)
    (arcs : option (list Arc)) (sol : Assignment) :
  solution self sol -> solution (fst (ac3 pick self arcs)) sol.
Proof.
  unfold ac3.
  apply (ac3_loop_rel pick (fun s s' => solution s sol -> solution s' sol)); auto.
  intros s x y; apply solution_revise.
Qed.

(** ** The checks of the search raise nothing *)

Lemma consistent_inner_safe (cw : Crossword) (var : Var.t) (word : Word) (items : Assignment) :
  well_formed cw -> In var (variables cw) -> len word = Var.length var ->
  (forall v w, In (v, w) items -> In v (variables cw) /\ len w = Var.length v) ->
  exists b, consistent_inner cw var word items = Ok b.
Proof.
  intros Hwf Hvar Hlen; induction items as [|[nv nw] items IH]; simpl; intros Hitems; [eauto|].
  assert (Hrest : exists b, consistent_inner cw var word items = Ok b)
    by (apply IH; intros v w Hin; apply Hitems; now right).
  destruct (Hitems nv nw (or_introl eq_refl)) as [Hnv Hnl].
  destruct (Var.eqb_spec nv var) as [E|E]; simpl; [exact Hrest|].
  rewrite overlaps_defined by assumption; simpl.
  destruct (overlap_map cw nv var) as [[i j]|] eqn:Hm; [|exact Hrest].
  destruct (Hwf nv var i j Hnv Hvar E Hm) as [Hi [Hj _]].
  destruct (index_in_bounds nw i) as [c1 ->]; [lia|]; simpl.
  destruct (index_in_bounds word j) as [c2 ->]; [lia|]; simpl.
  destruct (Ascii.eqb c1 c2); simpl; [exact Hrest | eauto].
Qed.

Lemma consistent_outer_safe (cw : Crossword) (todo all : Assignment) :
  well_formed cw ->
  (forall v w, In (v, w) all -> In v (variables cw) /\ len w = Var.length v) ->
  incl todo all ->
  exists b, consistent_outer cw todo all = Ok b.
Proof.
  intros Hwf Hall; induction todo as [|[v w] todo IH]; simpl; intros Hincl; [eauto|].
  destruct (Hall v w (Hincl _ (or_introl eq_refl))) as [Hv Hl].
  destruct (Nat.eqb_spec (len w) (Var.length v)); simpl; [|eauto].
  destruct (consistent_inner_safe cw v w all Hwf Hv Hl Hall) as [b ->]; simpl.
  destruct b; [|eauto].
  apply IH; intros b0 Hb0; apply Hincl; now right.
Qed.

Lemma consistent_safe (self : CrosswordCreator) (a : Assignment) :
  well_formed (crossword self) ->
  (forall v w, In (v, w) a -> In v (variables (crossword self)) /\ len w = Var.length v) ->
  exists b, consistent self a = Ok b.
Proof.
  intros Hwf Ha; unfold consistent.
  destruct (negb _); [eauto|].
  apply consistent_outer_safe; auto using incl_refl.
Qed.

Lemma count_conflicts_safe (our_word : Word) (x y : nat) (n_words : list Word) (acc : nat) :
  x < len our_word -> (forall w, In w n_words -> y < len w) ->
  exists n, count_conflicts our_word x y n_words acc = Ok n.
Proof.
  intros Hx; revert acc; induction n_words as [|w ws IH]; simpl; intros acc Hy; [eauto|].
  destruct (index_in_bounds our_word x Hx) as [c1 ->]; simpl.
  destruct (index_in_bounds w y (Hy w (or_introl eq_refl))) as [c2 ->]; simpl.
  apply IH; auto.
Qed.

Lemma ruled_out_word_safe (self : CrosswordCreator) (var : Var.t) (our_word : Word)
    (nb : list Var.t) (acc : nat) :
  ready self -> In var (variables (crossword self)) -> len our_word = Var.length var ->
  (forall nvar, In nvar nb -> In nvar (neighbors (crossword self) var)) ->
  exists n, ruled_out_word self var our_word nb acc = Ok n.
Proof.
  intros Hready Hvar Hlen; revert acc; induction nb as [|nvar nb IH]; simpl; intros acc Hnb; [eauto|].
  pose proof (Hnb nvar (or_introl eq_refl)) as Hn; apply neighbors_In in Hn.
  destruct Hn as [Hnv [Hne Hdef]].
  destruct (overlap_map (crossword self) nvar var) as [[j i]|] eqn:Hm; [|congruence].
  pose proof Hready as [Hwf [_ Hnc]].
  destruct (Hwf nvar var j i Hnv Hvar Hne Hm) as [Hj [Hi Hsym]].
  rewrite overlaps_defined by auto; rewrite Hsym; simpl.
  destruct (ready_get self nvar Hready Hnv) as [n_words Hg]; rewrite Hg; simpl.
  destruct (count_conflicts_safe our_word i j n_words acc) as [acc' ->]; [lia | |].
  - intros w Hw; rewrite (Hnc nvar n_words w Hg Hw); exact Hj.
  - simpl; apply IH; auto.
Qed.

Lemma ruled_out_all_safe (self : CrosswordCreator) (var : Var.t) (ws : list Word)
    (nb : list Var.t) :
  ready self -> In var (variables (crossword self)) ->
  (forall w, In w ws -> len w = Var.length var) ->
  (forall nvar, In nvar nb -> In nvar (neighbors (crossword self) var)) ->
  exists r, ruled_out_all self var ws nb = Ok r /\ map fst r = ws.
Proof.
  intros Hready Hvar Hws Hnb; induction ws as [|w ws IH]; simpl; [eauto|].
  destruct (ruled_out_word_safe self var w nb 0 Hready Hvar (Hws w (or_introl eq_refl)) Hnb)
    as [n ->]; simpl.
  destruct IH as [r [-> Hr]]; [intros w0 Hw0; apply Hws; now right|]; simpl.
  eexists; split; [reflexivity | simpl; now rewrite Hr].
Qed.

Lemma order_domain_values_Ok (self : CrosswordCreator) (var : Var.t) (a : Assignment)
    (values : list Word) :
  order_domain_values self var a = Ok values ->
  exists ws, dict_get (domains self) var = Ok ws /\ forall w, In w values <-> In w ws.
Proof.
  unfold order_domain_values.
  destruct (dict_get (domains self) var) as [ws| |]; simpl; try discriminate.
  assert (Hmap : forall nb r, ruled_out_all self var ws nb = Ok r -> map fst r = ws).
  { intros nb; induction ws as [|w ws IH]; simpl; intros r H; [now inv H|].
    destruct (ruled_out_word self var w nb 0); simpl in H; try discriminate.
    destruct (ruled_out_all self var ws nb) as [t| |]; simpl in H; try discriminate.
    inv H; simpl; f_equal; apply IH; reflexivity. }
  destruct (ruled_out_all self var ws _) as [r| |] eqn:Hr; simpl; try discriminate.
  intros H; inv H; exists ws; split; [reflexivity|].
  intros w; rewrite <- (Hmap _ r Hr), !in_map_iff; split; intros [e [E He]]; exists e; split; auto.
  - exact (proj1 (sorted_In snd false e r) He).
  - exact (proj2 (sorted_In snd false e r) He).
Qed.

Lemma order_domain_values_safe (self : CrosswordCreator) (var : Var.t) (a : Assignment) :
  ready self -> In var (variables (crossword self)) ->
  exists values, order_domain_values self var a = Ok values.
Proof.
  intros Hready Hvar; unfold order_domain_values.
  destruct (ready_get self var Hready Hvar) as [ws Hg]; rewrite Hg; simpl.
  destruct (ruled_out_all_safe self var ws
              (set_diff Var.eqb (neighbors (crossword self) var) (keys a)) Hready Hvar)
    as [r [-> _]]; simpl; eauto.
  - intros w Hw; destruct Hready as [_ [_ Hnc]]; exact (Hnc var ws w Hg Hw).
  - intros nvar Hn; now apply (set_diff_In Var.eqb Var.eqb_eq) in Hn.
Qed.

(** ** Completeness of the search *)

Lemma consistent_spec_incl (cw : Crossword) (a s : Assignment) :
  incl a s -> consistent_spec cw s -> consistent_spec cw a.
Proof.
  intros Hi [H1 [H2 H3]]; split; [|split].
  - intros v1 w1 v2 w2 A B; apply H1; auto.
  - intros v w A; apply H2; auto.
  - intros v1 w1 v2 w2 i j A B; apply H3; auto.
Qed.

Lemma candidate_words (self : CrosswordCreator) (a : Assignment) :
  ready self -> candidate self a ->
  forall v w, In (v, w) a -> In v (variables (crossword self)) /\ len w = Var.length v.
Proof.
  intros [_ [_ Hnc]] [_ [Hk Hd]] v w Hin; split.
  - apply Hk, in_map_iff; exists (v, w); auto.
  - destruct (Hd v w Hin) as [ws [Hg Hw]]; exact (Hnc v ws w Hg Hw).
Qed.

Lemma candidate_extend (self : CrosswordCreator) (a : Assignment) (var : Var.t) (value : Word)
    (ws : list Word) :
  candidate self a -> In var (unassigned self a) ->
  dict_get (domains self) var = Ok ws -> In value ws ->
  candidate self (a ++ [(var, value)]).
Proof.
  intros [Hnd [Hk Hd]] Hu Hg Hv; apply unassigned_In in Hu; destruct Hu as [Hvar Hfresh].
  unfold candidate, keys; rewrite map_app; simpl; split; [|split].
  - apply NoDup_Add with (a := var) (l := map fst a); [|constructor; assumption].
    replace (map fst a) with (map fst a ++ []) at 1 by apply app_nil_r.
    apply Add_app.
  - intros u Hu; apply in_app_iff in Hu; destruct Hu as [Hu | [<- | []]]; auto.
  - intros v w Hin; apply in_app_iff in Hin; destruct Hin as [Hin | [E | []]]; [auto|].
    inv E; eauto.
Qed.

Lemma partial_complete_solution (self : CrosswordCreator) (a : Assignment) :
  partial self a -> assignment_complete self a = true -> solution self a.
Proof.
  intros [[Hnd [Hk Hd]] Hc] Hcomp; rewrite assignment_complete_true in Hcomp.
  split; [assumption | split; [|split; assumption]].
  intros v; split; [apply Hk | apply Hcomp].
Qed.

Lemma unassigned_extend (self : CrosswordCreator) (a : Assignment) (var : Var.t) (value : Word) :
  In var (unassigned self a) ->
  List.length (unassigned self (a ++ [(var, value)])) < List.length (unassigned self a).
Proof.
  intros Hu; pose proof Hu as Hu'; apply unassigned_In in Hu'; destruct Hu' as [Hvar Hfresh].
  unfold unassigned, set_diff; apply filter_length_lt with (x0 := var); auto.
  - intros x Hx; apply negb_true_iff in Hx; apply negb_true_iff.
    apply (mem_false Var.eqb Var.eqb_eq); apply (mem_false Var.eqb Var.eqb_eq) in Hx.
    intros Hin; apply Hx; unfold keys; rewrite map_app; apply in_app_iff; now left.
  - apply negb_true_iff, (mem_false Var.eqb Var.eqb_eq); exact Hfresh.
  - apply negb_false_iff, (mem_In Var.eqb Var.eqb_eq).
    unfold keys; rewrite map_app; apply in_app_iff; right; now left.
Qed.

Lemma try_values_complete (rec : CrosswordCreator -> Assignment -> search_result)
    (bound : nat) (self : CrosswordCreator) (a : Assignment) (var : Var.t) (ws : list Word) :
  (forall a0, partial self a0 -> List.length (unassigned self a0) < bound ->
              complete_post self a0 (rec self a0)) ->
  ready self -> partial self a -> In var (unassigned self a) ->
  List.length (unassigned self a) <= bound ->
  dict_get (domains self) var = Ok ws ->
  forall values, incl values ws ->
    loop_complete_post self a var values (try_values rec var values self a).
Proof.
  intros Hrec Hready [Hcand Hspec] Hu Hbound Hg.
  pose proof Hu as Hu'; apply unassigned_In in Hu'; destruct Hu' as [Hvar Hfresh].
  induction values as [|value rest IH]; intros Hvals; simpl.
  - exists a, None; split; [reflexivity | split; [reflexivity|]]; intros s value _ _ [].
  - rewrite (dict_set_fresh a var value Hfresh).
    assert (Hc1 : candidate self (a ++ [(var, value)])).
    { eapply candidate_extend; eauto; apply Hvals; now left. }
    assert (Hundo : (forall s, solution self s -> incl a s -> ~ In (var, value) s) ->
              loop_complete_post self a var (value :: rest) (try_values rec var rest self a)).
    { intros Hno; destruct IH as (a' & r & E & P); [intros w Hw; apply Hvals; now right|].
      exists a', r; split; [exact E|]; destruct r as [result|]; [exact P|].
      destruct P as [-> P]; split; [reflexivity|].
      intros s v Hs Hi [<- | Hin]; [now apply Hno | now apply P]. }
    destruct (consistent_safe self (a ++ [(var, value)]) (proj1 Hready)
                (candidate_words self _ Hready Hc1)) as [b Hb]; rewrite Hb.
    destruct b.
    + assert (Hp1 : partial self (a ++ [(var, value)])).
      { split; [exact Hc1 | now apply consistent_true]. }
      destruct (Hrec _ Hp1) as (a2 & r2 & E2 & P2).
      { pose proof (unassigned_extend self a var value Hu); lia. }
      rewrite E2; destruct r2 as [result|].
      * destruct P2 as [-> [Hsol Hincl]].
        assert (Hin : In (var, value) a2) by (apply Hincl, in_app_iff; right; now left).
        destruct a2 as [|b0 l0]; [contradiction|].
        change (truthy (Some (b0 :: l0))) with true; cbv iota.
        exists (b0 :: l0), (Some (b0 :: l0)); split; [reflexivity|].
        split; [reflexivity | split; [exact Hsol|]].
        intros e He; apply Hincl, in_app_iff; now left.
      * destruct P2 as [-> Hno].
        change (truthy None) with false; cbv iota.
        rewrite (dict_pop_last a var value Hfresh).
        apply Hundo; intros s Hs Hi Hin; apply (Hno s Hs).
        intros e He; apply in_app_iff in He; destruct He as [He | [<- | []]]; auto.
    + rewrite (dict_pop_last a var value Hfresh).
      apply Hundo; intros s Hs Hi Hin.
      apply (consistent_false self (a ++ [(var, value)])); [exact (proj1 Hc1) | exact Hb|].
      apply consistent_spec_incl with (s := s); [|exact (proj2 (proj2 (proj2 Hs)))].
      intros e He; apply in_app_iff in He; destruct He as [He | [<- | []]]; auto.
Qed.

Lemma backtrack_fuel_complete (fuel : nat) (self : CrosswordCreator) :
  ready self ->
  forall a, partial self a -> List.length (unassigned self a) < fuel ->
    complete_post self a (backtrack_fuel fuel self a).
Proof.
  intros Hready; induction fuel as [|fuel IH]; intros a Hp Hlt; [lia|]; simpl.
  destruct (assignment_complete self a) eqn:Hcomp.
  - exists a, (Some a); split; [reflexivity | split; [reflexivity|]].
    split; [now apply partial_complete_solution | apply incl_refl].
  - assert (Hne : unassigned self a <> []).
    { unfold unassigned; unfold assignment_complete in Hcomp.
      destruct (set_diff Var.eqb (variables (crossword self)) (keys a)); congruence. }
    destruct (select_unassigned_variable_min self a) as (var & ws & Hsel & Hu & Hg & _);
      [|exact Hne|].
    { intros u Hu; apply unassigned_In in Hu; apply ready_get; tauto. }
    rewrite Hsel.
    pose proof Hu as Hu'; apply unassigned_In in Hu'; destruct Hu' as [Hvar Hfresh].
    destruct (order_domain_values_safe self var a Hready Hvar) as [values Hv]; rewrite Hv.
    destruct (order_domain_values_Ok self var a values Hv) as [ws' [Hg' Hin]].
    rewrite Hg in Hg'; inv Hg'.
    destruct (try_values_complete (backtrack_fuel fuel) fuel self a var ws' IH Hready Hp Hu
                ltac:(lia) Hg values) as (a' & r & E & P).
    { intros w Hw; now apply Hin. }
    exists a', r; split; [exact E|]; destruct r as [result|]; [exact P|].
    destruct P as [-> P]; split; [reflexivity|].
    intros s Hs Hi.
    pose proof Hs as [Hnd [Hk [Hd Hc]]].
    apply Hk, in_map_iff in Hvar; destruct Hvar as [[var' w] [E' Hw]]; simpl in E'; subst var'.
    apply (P s w Hs Hi); [|exact Hw].
    apply Hin; destruct (Hd var w Hw) as [ws0 [Hg0 Hw0]]; rewrite Hg in Hg0; now inv Hg0.
Qed.

Lemma partial_nil (self : CrosswordCreator) : partial self [].
Proof.
  split; [|apply consistent_spec_nil].
  split; [constructor | split; [intros v [] | intros v w []]].
Qed.

Lemma backtrack_complete (self : CrosswordCreator) :
  ready self -> complete_post self [] (backtrack self []).
Proof.
  intros Hready; unfold backtrack.
  apply backtrack_fuel_complete; [exact Hready | apply partial_nil | lia].
Qed.

(** C3.  On a well-formed puzzle, whatever the domains hold, [solve]
    returns: a solution drawn from the domains when there is one, [None]
    when there is none. *)
Theorem C3_solve_complete (pick : list Arc -> nat) (self : CrosswordCreator)
    (Hwf : well_formed (crossword self))
    (Hkeys : keys (domains self) = variables (crossword self)) :
  exists self' log r, solve pick self = (self', log, Ok r) /\
    ((exists a, solution self a) -> exists a', r = Some a' /\ solution self a') /\
    ((~ exists a, solution self a) -> r = None).
Proof.
  pose proof (ready_enforce self Hwf Hkeys) as Hready1.
  pose proof (enforce_node_consistency_pruned self) as Hp1.
  pose proof (ac3_pruned pick (enforce_node_consistency self) None) as Hp2.
  pose proof (ready_pruned _ _ Hready1 Hp2) as Hready2.
  pose proof (pruned_trans _ _ _ Hp1 Hp2) as Hp.
  assert (Hkeep : forall a, solution self a ->
            solution (fst (ac3 pick (enforce_node_consistency self) None)) a)
    by (intros a Ha; apply solution_ac3, solution_enforce, Ha).
  destruct (ac3_returns pick _ Hready1) as [b Hb].
  pose proof (backtrack_complete _ Hready2) as (a' & r & E & P).
  unfold solve.
  destruct (ac3 pick (enforce_node_consistency self) None) as [self2 r2]; simpl in *.
  subst r2; rewrite E.
  exists self2, [Call_enforce_node_consistency; Call_ac3; Call_backtrack], r.
  split; [reflexivity|].
  destruct r as [result|].
  - destruct P as [-> [Hsol _]]; split.
    + intros _; exists a'; split; [reflexivity | exact (solution_pruned_back _ _ _ Hp Hsol)].
    + intros Hno; exfalso; apply Hno; exists a'; exact (solution_pruned_back _ _ _ Hp Hsol).
  - destruct P as [-> Hno]; split; [|reflexivity].
    intros [a Ha]; exfalso; apply (Hno a (Hkeep a Ha)); intros e [].
Qed.

(** ** Arc consistency after AC-3 *)

(** C4 fails on the code.  Two slots of length 3 that share a corner,
    [hA[2] = hB[0]], and the words A, ABC, CDE in both domains: [ac3]
    returns [True] and leaves the word A in the domain of [hA], although A
    has no third character; the loop of [compare_domain] skips a word
    shorter than the offset instead of removing it. *)
Theorem C4_ac3_keeps_short_word :
  let self := init (Examples.corner ["A"; "ABC"; "CDE"]%string) in
  let self' := fst (ac3 Examples.first_arc self None) in
  snd (ac3 Examples.first_arc self None) = Ok true /\
  dict_get (domains self') Examples.hA = Ok ["A"; "ABC"]%string /\
  dict_get (domains self') Examples.hB = Ok ["CDE"]%string /\
  overlap_map (crossword self') Examples.hA Examples.hB = Some (2, 0) /\
  String.get 2 "A" = None /\
  ~ arc_consistent self'.
Proof.
  cbv zeta.
  assert (E : ac3 Examples.first_arc (init (Examples.corner ["A"; "ABC"; "CDE"]%string)) None
              = (set_domains (init (Examples.corner ["A"; "ABC"; "CDE"]%string))
                   [(Examples.hA, ["A"; "ABC"]%string); (Examples.hB, ["CDE"]%string)], Ok true))
    by (vm_compute; reflexivity).
  rewrite E; simpl fst; simpl snd.
  repeat (split; [reflexivity|]).
  intros H.
  destruct (H Examples.hA Examples.hB 2 0 ["A"; "ABC"]%string ["CDE"]%string "A"%string)
    as [v [_ [_ [c [Hc _]]]]]; simpl; auto; try reflexivity; discriminate.
Qed.

Lemma supports_inv (a b : nat) (w v : Word) :
  supports a b w v = true ->
  v <> w /\ exists c, String.get a w = Some c /\ String.get b v = Some c.
Proof.
  unfold supports; rewrite andb_true_iff, negb_true_iff, orb_false_iff.
  intros [[_ Hne] Hc]; apply String.eqb_neq in Hne; split; [congruence|].
  destruct (String.get a w) as [c1|], (String.get b v) as [c2|]; simpl in Hc; try discriminate.
  apply Ascii.eqb_eq in Hc; subst; eauto.
Qed.

Lemma supports_sym (a b : nat) (w v : Word) :
  supports a b w v = true -> supports b a v w = true.
Proof.
  intros H; destruct (supports_inv a b w v H) as [Hne [c [G1 G2]]].
  unfold supports; rewrite G1, G2; simpl; rewrite Ascii.eqb_refl, andb_true_r.
  apply negb_true_iff, orb_false_iff; split.
  - apply Nat.ltb_ge; apply get_Some_inv in G1; unfold len; lia.
  - now apply String.eqb_neq.
Qed.

Section AC3Sound.
Variable pick : list Arc -> nat.

Lemma queue_inv_requeue (s : CrosswordCreator) (l : list Arc) (a0 : Arc) (x y : Var.t)
    (rest : list Arc) (a b : nat) (xs ys : list Word) :
  well_formed (crossword s) ->
  set_pop pick a0 l = ((x, y), rest) ->
  overlaps (crossword s) x y = Ok (Some (a, b)) ->
  dict_get (domains s) x = Ok xs ->
  dict_get (domains s) y = Ok ys ->
  queue_inv s (a0 :: l) ->
  queue_inv (set_domains s (dict_set (domains s) x (filter (kept a b ys) xs)))
    (requeue (crossword s) rest x y).
Proof.
  intros Hwf Hpop Ho Hgx Hgy Hinv u v a' b' Hu Hv Huv Hm; simpl in *.
  destruct (overlaps_outcome (crossword s) x y) as [[Ho' [Hx [Hy Hxy]]] | Ho']; [|congruence].
  rewrite Ho' in Ho; inv Ho.
  destruct (Hwf x y a b Hx Hy Hxy H0) as [_ [_ Hsym]].
  unfold set_pop in Hpop.
  destruct (pop_nth_spec (pick (a0 :: l) mod S (List.length l)) a0 l) as [_ Hin].
  rewrite Hpop in Hin; simpl in Hin.
  destruct (Hinv u v a' b' Hu Hv Huv Hm) as [Hq | Hk].
  - apply Hin in Hq; destruct Hq as [E | Hq].
    + inv E; right; rewrite H0 in Hm; inv Hm.
      intros xs' ys' w; simpl; rewrite dict_get_set_same.
      rewrite dict_get_set_other by congruence; rewrite Hgy.
      intros E1 E2 Hw; injection E1 as <-; injection E2 as <-; apply filter_In in Hw; tauto.
    + left; apply (set_union_In arc_eqb arc_eqb_eq); now left.
  - destruct (Var.eqb_spec v x) as [->|Hvx].
    + destruct (Var.eqb_spec u y) as [->|Huy].
      * right; rewrite Hsym in Hm; inv Hm.
        intros ys' xs' w; simpl; rewrite dict_get_set_same.
        rewrite dict_get_set_other by congruence; rewrite Hgy.
        intros E1 E2 Hw; injection E1 as <-; injection E2 as <-.
        pose proof (Hk ys xs w Hgy Hgx Hw) as Hkw.
        unfold kept in *; destruct (len w <? a') ; simpl in *; [reflexivity|].
        unfold supported in *; apply existsb_exists in Hkw; destruct Hkw as [v' [Hv' Hs]].
        apply existsb_exists; exists v'; split; [|exact Hs].
        apply filter_In; split; [assumption|].
        unfold kept, supported; apply orb_true_iff; right.
        apply existsb_exists; exists w; split; [assumption | now apply supports_sym].
      * left; apply (set_union_In arc_eqb arc_eqb_eq); right.
        apply in_map_iff; exists u; split; [reflexivity|].
        apply (set_diff_In Var.eqb Var.eqb_eq); split.
        -- apply neighbors_In; repeat split; [assumption | assumption | congruence].
        -- intros [E | []]; congruence.
    + right; intros xs' ys' w; simpl.
      rewrite (dict_get_set_other (domains s) x v) by assumption.
      destruct (Var.eqb_spec u x) as [->|Hux].
      * rewrite dict_get_set_same; intros E1 E2 Hw; injection E1 as <-.
        apply filter_In in Hw; destruct Hw as [Hw _]; exact (Hk xs ys' w Hgx E2 Hw).
      * rewrite dict_get_set_other by assumption; apply Hk.
Qed.

Lemma ac3_run_sound (s : CrosswordCreator) (arcs : list Arc) (s' : CrosswordCreator)
    (r : outcome bool) :
  ac3_run pick s arcs s' r -> well_formed (crossword s) -> queue_inv s arcs ->
  r = Ok true -> queue_inv s' [].
Proof.
  induction 1 as [s | s a l x y rest s' r Hpop Hrev Hrun IH | s a l x y rest s1 Hpop Hrev Hget
                 | s a l x y rest s1 xs s' r Hpop Hrev Hget Hne Hrun IH | s a l x y rest e Hpop Hrev];
    intros Hwf Hinv Hr; try discriminate; auto.
  - apply IH; auto.
    intros u v a' b' Hu Hv Huv Hm.
    destruct (Hinv u v a' b' Hu Hv Huv Hm) as [Hq | Hk]; [|now right].
    unfold set_pop in Hpop.
    destruct (pop_nth_spec (pick (a :: l) mod S (List.length l)) a l) as [_ Hin].
    rewrite Hpop in Hin; simpl in Hin.
    apply Hin in Hq; destruct Hq as [E | Hq]; [|now left].
    inv E; right.
    apply revise_pair in Hrev; inversion Hrev as [Ho | a0 b0 xs ys Ho Hx Hy Hf | |]; subst.
    + destruct (overlaps_outcome (crossword s) x y) as [[Ho' _] | Ho']; congruence.
    + destruct (overlaps_outcome (crossword s) x y) as [[Ho' _] | Ho']; [|congruence].
      rewrite Ho' in Ho; injection Ho as Ho; rewrite Hm in Ho; injection Ho as <- <-.
      intros xs' ys' w E1 E2 Hw; rewrite Hx in E1; rewrite Hy in E2;
        injection E1 as <-; injection E2 as <-.
      exact (filter_id_forall _ _ Hf w Hw).
  - apply revise_pair in Hrev; inversion Hrev as [| | a0 b0 xs0 ys0 Ho Hx Hy Hlt |]; subst.
    apply IH; auto; simpl.
    eapply queue_inv_requeue; eauto.
Qed.

(** On a well-formed puzzle with node-consistent domains, a run of
    [ac3()] that returns [True] leaves the domains arc consistent. *)
Lemma ac3_arc_consistent (s : CrosswordCreator) :
  ready s -> snd (ac3 pick s None) = Ok true -> arc_consistent (fst (ac3 pick s None)).
Proof.
  intros Hready Hr.
  destruct (ac3_run_of_ac3 pick s None) as [queue [-> Hrun]].
  pose proof (ready_pruned _ _ Hready (ac3_pruned pick s None)) as [Hwf' [_ Hnc']].
  assert (Hinv : queue_inv (fst (ac3 pick s None)) []).
  { eapply ac3_run_sound; [exact Hrun | exact (proj1 Hready) | | exact Hr].
    intros x y a b Hx Hy Hxy Hm; left; apply all_arcs_In; split; [assumption|].
    destruct (proj1 Hready x y a b Hx Hy Hxy Hm) as [_ [_ Hsym]].
    apply neighbors_In; repeat split; [assumption | congruence | congruence]. }
  intros x y a b xs ys w Hx Hy Hxy Hm Hgx Hgy Hw.
  destruct (Hinv x y a b Hx Hy Hxy Hm) as [[] | Hk].
  specialize (Hk xs ys w Hgx Hgy Hw).
  destruct (Hwf' x y a b Hx Hy Hxy Hm) as [Ha _].
  unfold kept in Hk; rewrite (proj2 (Nat.ltb_ge (len w) a)) in Hk
    by (rewrite (Hnc' x xs w Hgx Hw); lia).
  simpl in Hk; unfold supported in Hk; apply existsb_exists in Hk.
  destruct Hk as [v [Hv Hs]]; exists v; split; [assumption|].
  now apply supports_inv.
Qed.

End AC3Sound.

(** ** The theorems at concrete puzzles *)

Lemma cross_well_formed (ws : list Word) : well_formed (Examples.cross ws).
Proof.
  intros x y i j Hx Hy Hne Hm; simpl in Hx, Hy.
  destruct Hx as [<- | [<- | []]], Hy as [<- | [<- | []]]; try congruence;
    vm_compute in Hm; injection Hm as <- <-; vm_compute; repeat split; lia.
Qed.

Lemma C3_solve_complete_witness :
  well_formed (crossword (init (Examples.cross ["CAT"; "DOG"; "TOE"; "EAR"; "A"]%string))) /\
  keys (domains (init (Examples.cross ["CAT"; "DOG"; "TOE"; "EAR"; "A"]%string)))
    = variables (crossword (init (Examples.cross ["CAT"; "DOG"; "TOE"; "EAR"; "A"]%string))) /\
  exists self' log r,
    solve Examples.first_arc (init (Examples.cross ["CAT"; "DOG"; "TOE"; "EAR"; "A"]%string))
      = (self', log, Ok r) /\
    ((exists a, solution (init (Examples.cross ["CAT"; "DOG"; "TOE"; "EAR"; "A"]%string)) a) ->
     exists a', r = Some a' /\
       solution (init (Examples.cross ["CAT"; "DOG"; "TOE"; "EAR"; "A"]%string)) a') /\
    ((~ exists a, solution (init (Examples.cross ["CAT"; "DOG"; "TOE"; "EAR"; "A"]%string)) a) ->
     r = None).
Proof.
  split; [apply cross_well_formed | split; [reflexivity|]].
  apply (C3_solve_complete Examples.first_arc
           (init (Examples.cross ["CAT"; "DOG"; "TOE"; "EAR"; "A"]%string))).
  - apply cross_well_formed.
  - reflexivity.
Defined.

Lemma C10_revise_in_bounds_witness :
  let self := enforce_node_consistency
                (init (Examples.cross ["CAT"; "DOG"; "TOE"; "EAR"; "A"]%string)) in
  overlaps (crossword self) Examples.vA Examples.vB = Ok (Some (1, 1)) /\
  dict_get (domains self) Examples.vA = Ok ["CAT"; "DOG"; "TOE"; "EAR"]%string /\
  dict_get (domains self) Examples.vB = Ok ["CAT"; "DOG"; "TOE"; "EAR"]%string /\
  (forall w, In w ["CAT"; "DOG"; "TOE"; "EAR"]%string -> 1 < len w) /\
  (forall w, In w ["CAT"; "DOG"; "TOE"; "EAR"]%string ->
     exists c, find_support 1 1 w ["CAT"; "DOG"; "TOE"; "EAR"]%string = Ok c) /\
  (exists new_xwords,
     compare_domain 1 1 ["CAT"; "DOG"; "TOE"; "EAR"]%string ["CAT"; "DOG"; "TOE"; "EAR"]%string
       = Ok new_xwords) /\
  (exists revised, snd (revise self Examples.vA Examples.vB) = Ok revised).
Proof.
  cbv zeta.
  assert (Hl : forall w, In w ["CAT"; "DOG"; "TOE"; "EAR"]%string -> 1 < len w)
    by (intros w [<- | [<- | [<- | [<- | []]]]]; simpl; lia).
  split; [reflexivity | split; [reflexivity | split; [reflexivity | split; [exact Hl|]]]].
  apply (C10_revise_in_bounds
           (enforce_node_consistency
              (init (Examples.cross ["CAT"; "DOG"; "TOE"; "EAR"; "A"]%string)))
           Examples.vA Examples.vB 1 1
           ["CAT"; "DOG"; "TOE"; "EAR"]%string ["CAT"; "DOG"; "TOE"; "EAR"]%string);
    [reflexivity | reflexivity | reflexivity | exact Hl | exact Hl].
Defined.

(** The two outcomes of [solve] on the crossing slots. *)
Example solve_finds_cat_and_ear :
  snd (solve Examples.first_arc (init (Examples.cross ["CAT"; "DOG"; "TOE"; "EAR"; "A"]%string)))
  = Ok (Some [(Examples.vA, "CAT"%string); (Examples.vB, "EAR"%string)]).
Proof. vm_compute; reflexivity. Qed.

Example solve_no_solution :
  snd (solve Examples.first_arc (init (Examples.cross ["CAT"; "DOG"; "A"]%string))) = Ok None.
Proof. vm_compute; reflexivity. Qed.

(** A word as long as the offset is indexed out of range. *)
Example compare_domain_raises :
  compare_domain 2 0 ["AB"]%string ["CDE"]%string = Raise IndexError.
Proof. reflexivity. Qed.

(** On node-consistent domains the run of [ac3] ends arc consistent. *)
Example ac3_arc_consistent_on_cross :
  arc_consistent
    (fst (ac3 Examples.first_arc
            (enforce_node_consistency
               (init (Examples.cross ["CAT"; "DOG"; "TOE"; "EAR"; "A"]%string))) None)).
Proof.
  apply ac3_arc_consistent; [|vm_compute; reflexivity].
  apply ready_enforce; [apply cross_well_formed | reflexivity].
Qed.

(** * Further properties of the code *)

(** ** Fresh domains and node consistency *)

Lemma init_get (cw : Crossword) (v : Var.t) :
  dict_get (domains (init cw)) v
  = if mem Var.eqb v (variables cw) then Ok (words cw) else Raise KeyError.
Proof.
  unfold init; simpl; induction (variables cw) as [|u vs IH]; simpl; [reflexivity|].
  destruct (Var.eqb v u); simpl; [reflexivity | exact IH].
Qed.

(** X1.  Node consistency on a fresh solver leaves in the domain of a
    variable exactly the words of the list that have the length of the
    variable, in the order of the list; a slot that is not a variable of
    the puzzle has no domain ([KeyError]). *)
Theorem X1_fresh_domains_by_length (cw : Crossword) (v : Var.t) :
  (In v (variables cw) ->
   dict_get (domains (enforce_node_consistency (init cw))) v
   = Ok (filter (fun w => len w =? Var.length v) (words cw))) /\
  (~ In v (variables cw) ->
   dict_get (domains (enforce_node_consistency (init cw))) v = Raise KeyError).
Proof.
  rewrite enforce_node_consistency_get, init_get; split; intros H.
  - apply (mem_In Var.eqb Var.eqb_eq) in H; rewrite H; simpl; f_equal.
    apply filter_ext; intros w; unfold fits; apply Nat.eqb_sym.
  - apply (mem_false Var.eqb Var.eqb_eq) in H; rewrite H; reflexivity.
Qed.

(** X2.  Node consistency is idempotent: a second run changes nothing. *)
Theorem X2_node_consistency_idempotent (self : CrosswordCreator) :
  enforce_node_consistency (enforce_node_consistency self) = enforce_node_consistency self.
Proof.
  unfold enforce_node_consistency, set_domains; simpl; f_equal.
  rewrite map_map; apply map_ext; intros [var ws]; f_equal.
  rewrite !node_filter_spec, filter_filter; apply filter_ext; intros w.
  destruct (fits var w); reflexivity.
Qed.

(** ** compare_domain and revise *)

Lemma supports_iff (x y : nat) (w v : Word) :
  supports x y w v = true <->
  y <= len v /\ v <> w /\ exists c, String.get x w = Some c /\ String.get y v = Some c.
Proof.
  split.
  - intros H; destruct (supports_inv x y w v H) as [Hne Hc]; repeat split; auto.
    unfold supports in H; apply andb_true_iff in H; destruct H as [H _].
    apply negb_true_iff, orb_false_iff in H; destruct H as [H _].
    now apply Nat.ltb_ge in H.
  - intros [Hy [Hne [c [G1 G2]]]]; unfold supports; rewrite G1, G2; simpl.
    rewrite Ascii.eqb_refl, andb_true_r; apply negb_true_iff, orb_false_iff; split.
    + now apply Nat.ltb_ge.
    + apply String.eqb_neq; congruence.
Qed.

Lemma kept_iff (x y : nat) (ywords : list Word) (w : Word) :
  kept x y ywords w = true <->
  len w < x \/
  exists v, In v ywords /\ y <= len v /\ v <> w /\
    exists c, String.get x w = Some c /\ String.get y v = Some c.
Proof.
  unfold kept, supported; rewrite orb_true_iff, Nat.ltb_lt, existsb_exists.
  split; (intros [H | [v [Hv Hs]]]; [now left | right; exists v; split; [assumption|]]).
  - now apply supports_iff.
  - now apply supports_iff.
Qed.

(** X3.  When [compare_domain] returns, it returns the words of [xwords],
    in their order, that are shorter than the offset [x] or agree at the
    overlap with a different word of [ywords] of length at least [y]:
    words too short to be compared are kept, not removed. *)
Theorem X3_compare_domain_result (x y : nat) (xwords ywords r : list Word)
    (H : compare_domain x y xwords ywords = Ok r) :
  r = filter (kept x y ywords) xwords /\
  forall w, In w r <->
    In w xwords /\
    (len w < x \/
     exists v, In v ywords /\ y <= len v /\ v <> w /\
       exists c, String.get x w = Some c /\ String.get y v = Some c).
Proof.
  apply compare_domain_Ok in H; split; [exact H|].
  intros w; subst r; rewrite filter_In, kept_iff; reflexivity.
Qed.

Lemma X3_compare_domain_result_witness :
  compare_domain 2 0 ["A"; "ABC"; "CDE"]%string ["A"; "ABC"; "CDE"]%string
    = Ok ["A"; "ABC"]%string /\
  ["A"; "ABC"]%string = filter (kept 2 0 ["A"; "ABC"; "CDE"]%string) ["A"; "ABC"; "CDE"]%string /\
  forall w, In w ["A"; "ABC"]%string <->
    In w ["A"; "ABC"; "CDE"]%string /\
    (len w < 2 \/
     exists v, In v ["A"; "ABC"; "CDE"]%string /\ 0 <= len v /\ v <> w /\
       exists c, String.get 2 w = Some c /\ String.get 0 v = Some c).
Proof.
  split; [reflexivity|].
  apply (X3_compare_domain_result 2 0 ["A"; "ABC"; "CDE"]%string ["A"; "ABC"; "CDE"]%string).
  reflexivity.
Defined.

Lemma find_support_index_error (x y : nat) (w : Word) (ywords : list Word) (v : Word) :
  len w = x -> In v ywords -> y <= len v -> v <> w ->
  find_support x y w ywords = Raise IndexError.
Proof.
  intros Hw; induction ywords as [|v0 ys IH]; simpl; intros Hin Hy Hne; [contradiction|].
  destruct ((len v0 <? y) || String.eqb w v0) eqn:Hskip.
  - destruct Hin as [-> | Hin]; [|auto].
    apply orb_true_iff in Hskip; destruct Hskip as [Hs | Hs].
    + apply Nat.ltb_lt in Hs; lia.
    + apply String.eqb_eq in Hs; congruence.
  - unfold index; destruct (String.get x w) as [c|] eqn:G; [|reflexivity].
    apply get_Some_inv in G; unfold len in Hw; lia.
Qed.

(** X4.  The guard of [compare_domain] is off by one.  When a word of
    [xwords] is exactly as long as the offset [x] and [ywords] holds a
    different word of length at least [y], the call raises [IndexError]. *)
Theorem X4_compare_domain_index_error (x y : nat) (xwords ywords : list Word) (w v : Word)
    (Hw : In w xwords) (Hlen : len w = x)
    (Hv : In v ywords) (Hy : y <= len v) (Hne : v <> w) :
  compare_domain x y xwords ywords = Raise IndexError.
Proof.
  unfold compare_domain; generalize xwords at 2; revert Hw.
  induction xwords as [|t todo IH]; simpl; intros Hin acc; [contradiction|].
  destruct (Nat.ltb_spec (len t) x) as [Hlt | Hge].
  - destruct Hin as [-> | Hin]; [lia | auto].
  - destruct (find_support_raise x y t ywords) as [Hf He].
    destruct (find_support x y t ywords) as [c|e|] eqn:Hfs; simpl; [| |congruence].
    + destruct Hin as [-> | Hin].
      * rewrite (find_support_index_error x y w ywords v Hlen Hv Hy Hne) in Hfs; discriminate.
      * destruct c; simpl; auto.
    + now rewrite (He e eq_refl).
Qed.

Lemma X4_compare_domain_index_error_witness :
  In "AB"%string ["AB"; "ABC"]%string /\ len "AB"%string = 2 /\
  In "CDE"%string ["CDE"]%string /\ 0 <= len "CDE"%string /\ "CDE"%string <> "AB"%string /\
  compare_domain 2 0 ["AB"; "ABC"]%string ["CDE"]%string = Raise IndexError.
Proof.
  assert (H1 : In "AB"%string ["AB"; "ABC"]%string) by (now left).
  assert (H2 : In "CDE"%string ["CDE"]%string) by (now left).
  assert (H3 : "CDE"%string <> "AB"%string) by discriminate.
  repeat (split; [first [assumption | reflexivity | simpl; lia]|]).
  exact (X4_compare_domain_index_error 2 0 ["AB"; "ABC"]%string ["CDE"]%string
           "AB"%string "CDE"%string H1 eq_refl H2 ltac:(simpl; lia) H3).
Defined.

(** X5.  The flag returned by [revise] tells whether the domain of [x]
    changed.  After [False] the solver is as it was.  After [True] the
    domain of [x] has lost at least one word and gained none, and no other
    domain has changed. *)
Theorem X5_revise_flag (self self' : CrosswordCreator) (x y : Var.t) (revised : bool)
    (H : revise self x y = (self', Ok revised)) :
  crossword self' = crossword self /\
  (revised = false -> self' = self) /\
  (revised = true ->
   exists xs xs', dict_get (domains self) x = Ok xs /\
     dict_get (domains self') x = Ok xs' /\
     List.length xs' < List.length xs /\ incl xs' xs /\
     forall v, v <> x -> dict_get (domains self') v = dict_get (domains self) v).
Proof.
  apply revise_pair in H.
  inversion H as [Ho | a b xs ys Ho Hx Hy Hf | a b xs ys Ho Hx Hy Hlt | e]; subst.
  - repeat split; auto; discriminate.
  - repeat split; auto; discriminate.
  - split; [reflexivity | split; [discriminate|]]; intros _.
    exists xs, (filter (kept a b ys) xs); simpl.
    rewrite dict_get_set_same; repeat split; auto using incl_filter.
    intros v Hv; now apply dict_get_set_other.
Qed.

Lemma X5_revise_flag_witness :
  let self := init (Examples.cross ["CAT"; "DOG"; "TOE"]%string) in
  let self' := set_domains self
                 [(Examples.vA, ["DOG"; "TOE"]%string);
                  (Examples.vB, ["CAT"; "DOG"; "TOE"]%string)] in
  revise self Examples.vA Examples.vB = (self', Ok true) /\
  crossword self' = crossword self /\
  (true = false -> self' = self) /\
  (true = true ->
   exists xs xs', dict_get (domains self) Examples.vA = Ok xs /\
     dict_get (domains self') Examples.vA = Ok xs' /\
     List.length xs' < List.length xs /\ incl xs' xs /\
     forall v, v <> Examples.vA -> dict_get (domains self') v = dict_get (domains self) v).
Proof.
  cbv zeta; split; [vm_compute; reflexivity|].
  apply (X5_revise_flag (init (Examples.cross ["CAT"; "DOG"; "TOE"]%string)) _
           Examples.vA Examples.vB true).
  vm_compute; reflexivity.
Defined.

(** ** The AC-3 loop *)

Section AC3More.
Variable pick : list Arc -> nat.

Lemma ac3_loop_more_fuel (fuel : nat) (s : CrosswordCreator) (arcs : list Arc) :
  returns (snd (ac3_loop pick fuel s arcs)) ->
  forall fuel', fuel <= fuel' -> ac3_loop pick fuel' s arcs = ac3_loop pick fuel s arcs.
Proof.
  revert s arcs; induction fuel as [|fuel IH]; intros s arcs Hr fuel' Hle.
  - exfalso; apply Hr; reflexivity.
  - destruct fuel' as [|fuel']; [lia|]; simpl in *.
    destruct arcs as [|a l]; [reflexivity|].
    destruct (set_pop pick a l) as [[x y] rest].
    destruct (revise s x y) as [s1 [[|]|e|]]; try reflexivity.
    + destruct (dict_get (domains s1) x) as [xs|e|]; try reflexivity.
      destruct (List.length xs =? 0); [reflexivity|].
      apply IH; [exact Hr | lia].
    + apply IH; [exact Hr | lia].
Qed.

(** X6.  The loop of [ac3] terminates.  Each pass either shortens the
    queue or removes a word from a domain and adds fewer arcs than there
    are variables, so [total_size * (variables + 1) + arcs] passes are
    enough; with that many or more the result is the result of [ac3]. *)
Theorem X6_ac3_terminates (self : CrosswordCreator) (arcs : list Arc) (fuel : nat)
    (Hfuel : total_size (domains self) * S (List.length (variables (crossword self)))
             + List.length arcs < fuel) :
  returns (snd (ac3_loop pick fuel self arcs)) /\
  ac3_loop pick fuel self arcs = ac3_loop pick (ac3_fuel self arcs) self arcs /\
  returns (snd (ac3 pick self (Some arcs))) /\ returns (snd (ac3 pick self None)).
Proof.
  assert (H0 : returns (snd (ac3_loop pick (ac3_fuel self arcs) self arcs)))
    by (apply ac3_loop_fuel; unfold ac3_fuel; lia).
  split; [now apply ac3_loop_fuel|].
  split; [apply ac3_loop_more_fuel; [exact H0 | unfold ac3_fuel; lia]|].
  split; apply ac3_no_OutOfFuel.
Qed.

Lemma ac3_run_false (s : CrosswordCreator) (arcs : list Arc) (s' : CrosswordCreator)
    (r : outcome bool) :
  ac3_run pick s arcs s' r -> r = Ok false ->
  exists x xs, In x (variables (crossword s)) /\
    dict_get (domains s) x = Ok xs /\ xs <> [] /\ dict_get (domains s') x = Ok [].
Proof.
  induction 1 as [s | s a l x y rest s' r Hpop Hrev Hrun IH | s a l x y rest s1 Hpop Hrev Hget
                 | s a l x y rest s1 xs s' r Hpop Hrev Hget Hne Hrun IH | s a l x y rest e Hpop Hrev];
    intros Hr; try discriminate; auto.
  - apply revise_pair in Hrev.
    inversion Hrev as [| | a0 b0 xs ys Ho Hx Hy Hlt |]; subst.
    exists x, xs; repeat split; auto.
    + destruct (overlaps_outcome (crossword s) x y) as [[_ [Hin _]] | Ho']; [assumption | congruence].
    + intros ->; simpl in Hlt; lia.
  - destruct (IH Hr) as (u & us & Hu & Hg & Hn & He).
    pose proof (revise_pruned_state s x y) as [Hcw Hsh]; rewrite Hrev in Hcw, Hsh; simpl in *.
    destruct (proj2 (shrinks_never_grows _ _ Hsh) u us Hg) as [us0 [Hg0 Hi]].
    exists u, us0; repeat split; auto; [congruence|].
    intros ->; destruct us as [|w us]; [congruence | exact (Hi w (or_introl eq_refl))].
Qed.

(** X7.  [ac3] returns [False] only after it has emptied a domain: some
    variable of the puzzle had words in its domain when [ac3] was called
    and has none when it returns. *)
Theorem X7_ac3_false_emptied (self self' : CrosswordCreator) (arcs : option (list Arc))
    (H : ac3 pick self arcs = (self', Ok false)) :
  exists x xs, In x (variables (crossword self)) /\
    dict_get (domains self) x = Ok xs /\ xs <> [] /\ dict_get (domains self') x = Ok [].
Proof.
  destruct (ac3_run_of_ac3 pick self arcs) as [queue [_ Hrun]].
  rewrite H in Hrun; simpl in Hrun; exact (ac3_run_false _ _ _ _ Hrun eq_refl).
Qed.

(** X8.  On a well-formed puzzle whose domains are node consistent,
    [ac3()] raises no exception: it returns [True] or [False], and the
    domains stay node consistent. *)
Theorem X8_ac3_raises_nothing (self : CrosswordCreator) (Hready : ready self) :
  (exists b, snd (ac3 pick self None) = Ok b) /\ ready (fst (ac3 pick self None)).
Proof.
  split; [now apply ac3_returns | eapply ready_pruned; [exact Hready | apply ac3_pruned]].
Qed.

(** X9.  On a well-formed puzzle whose domains are node consistent, when
    [ac3()] returns [True] the domains are arc consistent: for every pair
    of variables with an overlap [(a, b)], each word [w] left in the first
    domain has a different word [v] in the second with [w[a] = v[b]]. *)
Theorem X9_ac3_arc_consistent (self : CrosswordCreator) (Hready : ready self)
    (Htrue : snd (ac3 pick self None) = Ok true) :
  arc_consistent (fst (ac3 pick self None)).
Proof.
  intros x y a b xs ys w Hx Hy Hxy Hm Hgx Hgy Hw.
  pose proof (ac3_arc_consistent pick self Hready Htrue) as Hac.
  exact (Hac x y a b xs ys w Hx Hy Hxy Hm Hgx Hgy Hw).
Qed.

(** X10.  Pruning is safe: node consistency, [revise] and [ac3] remove no
    word that a solution assigns, so a solution of the puzzle for the
    domains before the call is one for the domains after it. *)
Theorem X10_pruning_keeps_solutions (self : CrosswordCreator) (sol : Assignment)
    (x y : Var.t) (arcs : option (list Arc)) (Hsol : solution self sol) :
  solution (enforce_node_consistency self) sol /\
  solution (fst (revise self x y)) sol /\
  solution (fst (ac3 pick self arcs)) sol.
Proof.
  split; [now apply solution_enforce | split; [now apply solution_revise | now apply solution_ac3]].
Qed.

End AC3More.

Lemma ready_cross (ws : list Word) : ready (enforce_node_consistency (init (Examples.cross ws))).
Proof. apply ready_enforce; [apply cross_well_formed | reflexivity]. Qed.

Lemma X6_ac3_terminates_witness :
  let self := init (Examples.cross ["CAT"; "DOG"]%string) in
  total_size (domains self) * S (List.length (variables (crossword self)))
    + List.length (all_arcs (crossword self)) < 20 /\
  returns (snd (ac3_loop Examples.first_arc 20 self (all_arcs (crossword self)))) /\
  ac3_loop Examples.first_arc 20 self (all_arcs (crossword self))
    = ac3_loop Examples.first_arc (ac3_fuel self (all_arcs (crossword self))) self
        (all_arcs (crossword self)) /\
  returns (snd (ac3 Examples.first_arc self (Some (all_arcs (crossword self))))) /\
  returns (snd (ac3 Examples.first_arc self None)).
Proof.
  cbv zeta; split; [vm_compute; lia|].
  apply (X6_ac3_terminates Examples.first_arc (init (Examples.cross ["CAT"; "DOG"]%string))).
  vm_compute; lia.
Defined.

Lemma X7_ac3_false_emptied_witness :
  let self := init (Examples.cross ["CAT"; "DOG"]%string) in
  let self' := fst (ac3 Examples.first_arc self None) in
  ac3 Examples.first_arc self None = (self', Ok false) /\
  exists x xs, In x (variables (crossword self)) /\
    dict_get (domains self) x = Ok xs /\ xs <> [] /\ dict_get (domains self') x = Ok [].
Proof.
  cbv zeta; split; [vm_compute; reflexivity|].
  apply (X7_ac3_false_emptied Examples.first_arc
           (init (Examples.cross ["CAT"; "DOG"]%string)) _ None).
  vm_compute; reflexivity.
Defined.

Lemma X8_ac3_raises_nothing_witness :
  let self := enforce_node_consistency
                (init (Examples.cross ["CAT"; "DOG"; "TOE"; "EAR"; "A"]%string)) in
  ready self /\
  (exists b, snd (ac3 Examples.first_arc self None) = Ok b) /\
  ready (fst (ac3 Examples.first_arc self None)).
Proof.
  cbv zeta; split; [apply ready_cross|].
  apply (X8_ac3_raises_nothing Examples.first_arc), ready_cross.
Defined.

Lemma X9_ac3_arc_consistent_witness :
  let self := enforce_node_consistency
                (init (Examples.cross ["CAT"; "DOG"; "TOE"; "EAR"; "A"]%string)) in
  ready self /\ snd (ac3 Examples.first_arc self None) = Ok true /\
  arc_consistent (fst (ac3 Examples.first_arc self None)).
Proof.
  cbv zeta; split; [apply ready_cross | split; [vm_compute; reflexivity|]].
  apply (X9_ac3_arc_consistent Examples.first_arc); [apply ready_cross | vm_compute; reflexivity].
Defined.

Lemma cat_ear_solution :
  solution (init (Examples.cross ["CAT"; "DOG"; "TOE"; "EAR"; "A"]%string))
    [(Examples.vA, "CAT"%string); (Examples.vB, "EAR"%string)].
Proof.
  split; [|split; [|split]].
  - repeat constructor; simpl; intuition discriminate.
  - intros v; simpl; tauto.
  - intros v w [E | [E | []]]; inversion E; subst; eexists; (split; [reflexivity|]);
      simpl; tauto.
  - apply (consistent_true (init (Examples.cross ["CAT"; "DOG"; "TOE"; "EAR"; "A"]%string))).
    vm_compute; reflexivity.
Qed.

Lemma X10_pruning_keeps_solutions_witness :
  let self := init (Examples.cross ["CAT"; "DOG"; "TOE"; "EAR"; "A"]%string) in
  let sol := [(Examples.vA, "CAT"%string); (Examples.vB, "EAR"%string)] in
  solution self sol /\
  solution (enforce_node_consistency self) sol /\
  solution (fst (revise self Examples.vA Examples.vB)) sol /\
  solution (fst (ac3 Examples.first_arc self None)) sol.
Proof.
  cbv zeta; split; [apply cat_ear_solution|].
  apply (X10_pruning_keeps_solutions Examples.first_arc), cat_ear_solution.
Defined.

(** ** The fixpoint of AC-3 *)

Lemma kept_mono (a b : nat) (ys ys' : list Word) (w : Word) :
  incl ys ys' -> kept a b ys w = true -> kept a b ys' w = true.
Proof.
  unfold kept, supported; intros Hi H; apply orb_true_iff in H; apply orb_true_iff.
  destruct H as [H | H]; [now left | right].
  apply existsb_exists in H; destruct H as [v [Hv Hs]]; apply existsb_exists; eauto.
Qed.

Lemma shrinks_set_above (d t : Domains) (x : Var.t) (xs xs' : list Word) :
  shrinks d t -> dict_get d x = Ok xs ->
  (forall xt, dict_get t x = Ok xt -> incl xt xs') ->
  shrinks (dict_set d x xs') t.
Proof.
  intros H; induction H as [|[k ws] [k' wt] d t [Hk Hi] Hrest IH]; simpl in *; [discriminate|].
  subst k'; destruct (Var.eqb_spec x k); intros Hg Hsub.
  - constructor; [split; [reflexivity | apply Hsub; reflexivity] | exact Hrest].
  - constructor; [split; [reflexivity | exact Hi] | now apply IH].
Qed.

(** A revision of a state cuts nothing from a smaller state that needs no
    revision. *)
Lemma revise_above (s t : CrosswordCreator) (x y : Var.t) :
  pruned s t -> queue_inv t [] -> pruned (fst (revise s x y)) t.
Proof.
  intros [Hcw Hsh] Hinv.
  destruct (revise_cases s x y) as [Ho | a b xs ys Ho Hx Hy Hf | a b xs ys Ho Hx Hy Hlt | e];
    try (split; assumption).
  split; [exact Hcw|]; simpl.
  destruct (overlaps_outcome (crossword s) x y) as [[Ho' [Hxv [Hyv Hne]]] | Ho']; [|congruence].
  rewrite Ho' in Ho; injection Ho as Hm.
  rewrite <- Hcw in Hxv, Hyv, Hm.
  destruct (Hinv x y a b Hxv Hyv Hne Hm) as [[] | Hk].
  apply shrinks_set_above with (xs := xs); auto.
  intros xt Hgt w Hw.
  destruct (shrinks_get _ _ y ys Hsh Hy) as [yt [Hgy Hiy]].
  destruct (proj2 (shrinks_never_grows _ _ Hsh) x xt Hgt) as [xs0 [Hg0 Hi0]].
  rewrite Hx in Hg0; injection Hg0 as <-.
  apply filter_In; split; [now apply Hi0|].
  apply kept_mono with (ys := yt); [exact Hiy | exact (Hk xt yt w Hgt Hgy Hw)].
Qed.

Lemma ac3_above (pick : list Arc -> nat) (s t : CrosswordCreator) (arcs : option (list Arc)) :
  queue_inv t [] -> pruned s t -> pruned (fst (ac3 pick s arcs)) t.
Proof.
  intros Hinv; unfold ac3.
  apply (ac3_loop_rel pick (fun u u' => pruned u t -> pruned u' t)); auto.
  intros u x y Hu; now apply revise_above.
Qed.

Lemma ac3_true_stable (pick : list Arc -> nat) (s s' : CrosswordCreator) :
  well_formed (crossword s) -> ac3 pick s None = (s', Ok true) -> queue_inv s' [].
Proof.
  intros Hwf H.
  destruct (ac3_run_of_ac3 pick s None) as [queue [-> Hrun]].
  rewrite H in Hrun; simpl in Hrun.
  eapply ac3_run_sound; [exact Hrun | exact Hwf | | reflexivity].
  intros x y a b Hx Hy Hxy Hm; left; apply all_arcs_In; split; [assumption|].
  destruct (Hwf x y a b Hx Hy Hxy Hm) as [_ [_ Hsym]].
  apply neighbors_In; repeat split; [assumption | congruence | congruence].
Qed.

Lemma ac3_true_false_absurd (pick1 pick2 : list Arc -> nat) (s s1 s2 : CrosswordCreator) :
  well_formed (crossword s) ->
  ac3 pick1 s None = (s1, Ok true) -> ac3 pick2 s None = (s2, Ok false) -> False.
Proof.
  intros Hwf H1 H2.
  pose proof (ac3_true_stable pick1 s s1 Hwf H1) as Hst.
  pose proof (ac3_pruned pick1 s None) as Hp1; rewrite H1 in Hp1; simpl in Hp1.
  pose proof (ac3_above pick2 s s1 None Hst Hp1) as Hab; rewrite H2 in Hab; simpl in Hab.
  destruct (ac3_run_of_ac3 pick2 s None) as [q2 [_ Hrun2]]; rewrite H2 in Hrun2; simpl in Hrun2.
  destruct (ac3_run_false pick2 _ _ _ _ Hrun2 eq_refl) as (x & xs & Hx & Hg & Hn & He).
  destruct (shrinks_get _ _ x [] (proj2 Hab) He) as [x1 [Hg1 Hi1]].
  destruct (ac3_run_of_ac3 pick1 s None) as [q1 [_ Hrun1]]; rewrite H1 in Hrun1; simpl in Hrun1.
  destruct (ac3_run_nonempty pick1 _ _ _ _ Hrun1 ltac:(discriminate) x xs Hg Hn)
    as [ws' [Hg' Hn']].
  rewrite Hg1 in Hg'; injection Hg' as <-.
  destruct x1 as [|w x1]; [congruence | exact (Hi1 w (or_introl eq_refl))].
Qed.

(** X11.  The order in which [ac3()] pops the arcs does not matter on a
    well-formed puzzle: two runs that return, whatever element
    [arcs.pop()] picks in each, return the same flag, and when the flag is
    [True] every variable ends with the same set of words in both. *)
Theorem X11_ac3_order_independent (pick1 pick2 : list Arc -> nat)
    (self s1 s2 : CrosswordCreator) (b1 b2 : bool)
    (Hwf : well_formed (crossword self))
    (H1 : ac3 pick1 self None = (s1, Ok b1))
    (H2 : ac3 pick2 self None = (s2, Ok b2)) :
  b1 = b2 /\
  (b1 = true ->
   keys (domains s1) = keys (domains s2) /\
   forall v ws1, dict_get (domains s1) v = Ok ws1 ->
     exists ws2, dict_get (domains s2) v = Ok ws2 /\ forall w, In w ws1 <-> In w ws2).
Proof.
  destruct b1, b2.
  - split; [reflexivity|]; intros _.
    pose proof (ac3_pruned pick1 self None) as Hp1; rewrite H1 in Hp1; simpl in Hp1.
    pose proof (ac3_pruned pick2 self None) as Hp2; rewrite H2 in Hp2; simpl in Hp2.
    pose proof (ac3_above pick2 self s1 None (ac3_true_stable _ _ _ Hwf H1) Hp1) as A21.
    pose proof (ac3_above pick1 self s2 None (ac3_true_stable _ _ _ Hwf H2) Hp2) as A12.
    rewrite H2 in A21; rewrite H1 in A12; simpl in A21, A12.
    split; [exact (proj1 (shrinks_never_grows _ _ (proj2 A21)))|].
    intros v ws1 Hg1.
    destruct (shrinks_get _ _ v ws1 (proj2 A12) Hg1) as [ws2 [Hg2 Hi2]].
    exists ws2; split; [exact Hg2|].
    destruct (shrinks_get _ _ v ws2 (proj2 A21) Hg2) as [ws1' [Hg1' Hi1]].
    rewrite Hg1 in Hg1'; injection Hg1' as <-.
    intros w; split; [apply Hi1 | apply Hi2].
  - exfalso; exact (ac3_true_false_absurd pick1 pick2 self s1 s2 Hwf H1 H2).
  - exfalso; exact (ac3_true_false_absurd pick2 pick1 self s2 s1 Hwf H2 H1).
  - split; [reflexivity | discriminate].
Qed.

Definition last_arc (q : list Arc) : nat := List.length q - 1.

Lemma X11_ac3_order_independent_witness :
  let self := init (Examples.cross ["CAT"; "DOG"; "TOE"; "EAR"; "OAT"]%string) in
  well_formed (crossword self) /\
  ac3 Examples.first_arc self None = (fst (ac3 Examples.first_arc self None), Ok true) /\
  ac3 last_arc self None = (fst (ac3 last_arc self None), Ok true) /\
  true = true /\
  (true = true ->
   keys (domains (fst (ac3 Examples.first_arc self None)))
     = keys (domains (fst (ac3 last_arc self None))) /\
   forall v ws1, dict_get (domains (fst (ac3 Examples.first_arc self None))) v = Ok ws1 ->
     exists ws2, dict_get (domains (fst (ac3 last_arc self None))) v = Ok ws2 /\
       forall w, In w ws1 <-> In w ws2).
Proof.
  cbv zeta; split; [apply cross_well_formed|].
  split; [vm_compute; reflexivity | split; [vm_compute; reflexivity|]].
  apply (X11_ac3_order_independent Examples.first_arc last_arc
           (init (Examples.cross ["CAT"; "DOG"; "TOE"; "EAR"; "OAT"]%string))).
  - apply cross_well_formed.
  - vm_compute; reflexivity.
  - vm_compute; reflexivity.
Defined.

Lemma ac3_loop_stable (pick : list Arc -> nat) (t : CrosswordCreator) :
  ready t -> queue_inv t [] ->
  forall fuel arcs, valid_arcs (crossword t) arcs -> List.length arcs < fuel ->
    ac3_loop pick fuel t arcs = (t, Ok true).
Proof.
  intros Hready Hinv; induction fuel as [|fuel IH]; intros arcs Hvalid Hlt; [lia|]; simpl.
  destruct arcs as [|a l]; [reflexivity|].
  destruct (set_pop pick a l) as [[x y] rest] eqn:Hpop.
  destruct (set_pop_In pick _ _ _ _ _ Hpop) as [Hxy Hrest].
  assert (Hlen : List.length rest = List.length l).
  { unfold set_pop in Hpop.
    pose proof (pop_nth_spec (pick (a :: l) mod S (List.length l)) a l) as [Hl _].
    now rewrite Hpop in Hl. }
  destruct (Hvalid x y Hxy) as [Hx [Hy Hne]].
  destruct (revise_safe t x y Hready Hx Hy Hne) as [b Hb].
  destruct (revise t x y) as [t1 r1] eqn:Hrev; simpl in Hb; subst r1.
  assert (Hsame : t1 = t /\ b = false).
  { apply revise_pair in Hrev.
    inversion Hrev as [Ho | a0 b0 xs ys Ho Hgx Hgy Hf | a0 b0 xs ys Ho Hgx Hgy Hl |]; subst; auto.
    exfalso.
    destruct (overlaps_outcome (crossword t) x y) as [[Ho' _] | Ho']; [|congruence].
    rewrite Ho' in Ho; injection Ho as Hm.
    destruct (Hinv x y a0 b0 Hx Hy Hne Hm) as [[] | Hk].
    assert (E : filter (kept a0 b0 ys) xs = xs).
    { apply forallb_filter_id, forallb_forall; intros w Hw; exact (Hk xs ys w Hgx Hgy Hw). }
    rewrite E in Hl; lia. }
  destruct Hsame as [-> ->].
  apply IH; [|simpl in Hlt; lia].
  intros u v Huv; apply Hvalid, Hrest, Huv.
Qed.

(** X12.  [ac3()] reaches a fixpoint.  On a well-formed puzzle with node
    consistent domains, after [ac3()] has returned [True] a second call,
    whatever order it pops the arcs in, returns [True] and changes no
    domain. *)
Theorem X12_ac3_idempotent (pick pick' : list Arc -> nat) (self self' : CrosswordCreator)
    (Hready : ready self) (H : ac3 pick self None = (self', Ok true)) :
  ac3 pick' self' None = (self', Ok true).
Proof.
  pose proof (ac3_pruned pick self None) as Hp; rewrite H in Hp; simpl in Hp.
  unfold ac3; apply ac3_loop_stable.
  - eapply ready_pruned; eassumption.
  - exact (ac3_true_stable pick self self' (proj1 Hready) H).
  - apply all_arcs_valid.
  - unfold ac3_fuel; lia.
Qed.

Lemma X12_ac3_idempotent_witness :
  let self := enforce_node_consistency
                (init (Examples.cross ["CAT"; "DOG"; "TOE"; "EAR"; "A"]%string)) in
  ready self /\
  ac3 Examples.first_arc self None = (fst (ac3 Examples.first_arc self None), Ok true) /\
  ac3 last_arc (fst (ac3 Examples.first_arc self None)) None
    = (fst (ac3 Examples.first_arc self None), Ok true).
Proof.
  cbv zeta; split; [apply ready_cross | split; [vm_compute; reflexivity|]].
  apply (X12_ac3_idempotent Examples.first_arc last_arc
           (enforce_node_consistency
              (init (Examples.cross ["CAT"; "DOG"; "TOE"; "EAR"; "A"]%string))));
    [apply ready_cross | vm_compute; reflexivity].
Defined.

Lemma filter_nil {A : Type} (f : A -> bool) (l : list A) :
  (forall a, In a l -> f a = false) -> filter f l = [].
Proof.
  induction l as [|a l IH]; simpl; intros H; [reflexivity|].
  rewrite (H a (or_introl eq_refl)); apply IH; auto.
Qed.

Lemma all_arcs_no_neighbors (cw : Crossword) :
  (forall v, In v (variables cw) -> neighbors cw v = []) -> all_arcs cw = [].
Proof.
  unfold all_arcs; intros H.
  assert (G : forall l acc, incl l (variables cw) ->
            fold_left
              (fun arcs var => set_union arc_eqb arcs (map (fun v => (var, v)) (neighbors cw var)))
              l acc = acc).
  { induction l as [|v l IH]; simpl; intros acc Hi; [reflexivity|].
    rewrite (H v (Hi v (or_introl eq_refl))); simpl.
    apply IH; intros u Hu; apply Hi; now right. }
  apply G, incl_refl.
Qed.

(** X13.  When no two variables of the puzzle overlap, [ac3()] has no arc
    to revise: it returns [True] and leaves every domain as it was. *)
Theorem X13_ac3_without_overlaps (pick : list Arc -> nat) (self : CrosswordCreator)
    (Hnone : forall x y, In x (variables (crossword self)) -> In y (variables (crossword self)) ->
               overlap_map (crossword self) x y = None) :
  ac3 pick self None = (self, Ok true) /\ ac3 pick self (Some []) = (self, Ok true).
Proof.
  assert (E : all_arcs (crossword self) = []).
  { apply all_arcs_no_neighbors; intros v Hv; unfold neighbors.
    apply filter_nil; intros u Hu; rewrite (Hnone u v Hu Hv); apply andb_false_r. }
  unfold ac3; rewrite E; split; reflexivity.
Qed.

Lemma X13_ac3_without_overlaps_witness :
  (forall x y, In x (variables (crossword (init (Examples.lonely ["CAT"; "AB"]%string)))) ->
               In y (variables (crossword (init (Examples.lonely ["CAT"; "AB"]%string)))) ->
     overlap_map (crossword (init (Examples.lonely ["CAT"; "AB"]%string))) x y = None) /\
  ac3 Examples.first_arc (init (Examples.lonely ["CAT"; "AB"]%string)) None
    = (init (Examples.lonely ["CAT"; "AB"]%string), Ok true) /\
  ac3 Examples.first_arc (init (Examples.lonely ["CAT"; "AB"]%string)) (Some [])
    = (init (Examples.lonely ["CAT"; "AB"]%string), Ok true).
Proof.
  split; [intros x y _ _; reflexivity|].
  apply (X13_ac3_without_overlaps Examples.first_arc (init (Examples.lonely ["CAT"; "AB"]%string))).
  intros x y _ _; reflexivity.
Defined.

(** ** The consistency check as a decision *)

(** X14.  On a dictionary (distinct keys) [consistent] decides the
    consistency predicate: when it returns, it returns [True] exactly when
    the words are pairwise distinct, each has the length of its variable
    and the characters agree at every overlap. *)
Theorem X14_consistent_decides (self : CrosswordCreator) (a : Assignment) (b : bool)
    (Hkeys : NoDup (keys a)) (H : consistent self a = Ok b) :
  b = true <-> consistent_spec (crossword self) a.
Proof.
  destruct b; split; intros Hs; auto.
  - now apply consistent_true.
  - discriminate.
  - exfalso; exact (consistent_false self a Hkeys H Hs).
Qed.

Lemma X14_consistent_decides_witness :
  let self := init (Examples.cross ["CAT"; "DOG"]%string) in
  let a := [(Examples.vA, "CAT"%string); (Examples.vB, "DOG"%string)] in
  NoDup (keys a) /\ consistent self a = Ok false /\
  (false = true <-> consistent_spec (crossword self) a).
Proof.
  cbv zeta.
  assert (Hk : NoDup (keys [(Examples.vA, "CAT"%string); (Examples.vB, "DOG"%string)]))
    by (repeat constructor; simpl; intuition discriminate).
  split; [exact Hk | split; [vm_compute; reflexivity|]].
  apply (X14_consistent_decides (init (Examples.cross ["CAT"; "DOG"]%string)) _ false Hk).
  vm_compute; reflexivity.
Defined.

(** X15.  [consistent] raises nothing on a well-formed puzzle when every
    key is a variable of the puzzle and every word has the length of its
    variable; it returns a flag. *)
Theorem X15_consistent_raises_nothing (self : CrosswordCreator) (a : Assignment)
    (Hwf : well_formed (crossword self))
    (Ha : forall v w, In (v, w) a ->
            In v (variables (crossword self)) /\ len w = Var.length v) :
  exists b, consistent self a = Ok b.
Proof.
  destruct (consistent_safe self a Hwf Ha) as [b Hb].
  exists b; exact Hb.
Qed.

Lemma X15_consistent_raises_nothing_witness :
  let self := init (Examples.cross ["CAT"; "DOG"]%string) in
  let a := [(Examples.vA, "CAT"%string); (Examples.vB, "DOG"%string)] in
  well_formed (crossword self) /\
  (forall v w, In (v, w) a -> In v (variables (crossword self)) /\ len w = Var.length v) /\
  exists b, consistent self a = Ok b.
Proof.
  cbv zeta.
  assert (Ha : forall v w,
            In (v, w) [(Examples.vA, "CAT"%string); (Examples.vB, "DOG"%string)] ->
            In v (variables (crossword (init (Examples.cross ["CAT"; "DOG"]%string)))) /\
            len w = Var.length v).
  { intros v w [E | [E | []]]; inversion E; subst; simpl; auto. }
  split; [apply cross_well_formed | split; [exact Ha|]].
  apply (X15_consistent_raises_nothing (init (Examples.cross ["CAT"; "DOG"]%string)));
    [apply cross_well_formed | exact Ha].
Defined.

(** ** The two heuristics *)

Section StableSort.
Context {A : Type}.
Variable key : A -> nat.
Variable reverse : bool.

Definition in_order (a b : A) : Prop := goes_before key reverse a b = true.

Lemma in_order_total (a b : A) : goes_before key reverse a b = false -> in_order b a.
Proof.
  unfold in_order, goes_before; destruct reverse; intros H;
    apply Nat.leb_gt in H; apply Nat.leb_le; lia.
Qed.

Lemma in_order_trans (a b c : A) : in_order a b -> in_order b c -> in_order a c.
Proof.
  unfold in_order, goes_before; destruct reverse; intros H1 H2;
    apply Nat.leb_le in H1, H2; apply Nat.leb_le; lia.
Qed.

Lemma insert_ordered (a : A) (l : list A) :
  StronglySorted in_order l -> StronglySorted in_order (insert key reverse a l).
Proof.
  induction l as [|b l IH]; simpl; intros H; [repeat constructor|].
  inversion H as [|b' l' Hl Hb]; subst.
  destruct (goes_before key reverse a b) eqn:E.
  - constructor; [exact H|].
    constructor; [exact E|].
    eapply Forall_impl; [|exact Hb]; intros c Hc; eapply in_order_trans; eassumption.
  - constructor; [now apply IH|].
    apply Forall_forall; intros c Hc; apply insert_In in Hc; destruct Hc as [-> | Hc].
    + now apply in_order_total.
    + rewrite Forall_forall in Hb; now apply Hb.
Qed.

Lemma sorted_ordered (l : list A) : StronglySorted in_order (sorted key reverse l).
Proof. induction l as [|a l IH]; simpl; [constructor | now apply insert_ordered]. Qed.

Lemma insert_perm (a : A) (l : list A) : Permutation (insert key reverse a l) (a :: l).
Proof.
  induction l as [|b l IH]; simpl; [reflexivity|].
  destruct (goes_before key reverse a b); [reflexivity|].
  rewrite IH; apply perm_swap.
Qed.

Lemma sorted_perm (l : list A) : Permutation (sorted key reverse l) l.
Proof.
  induction l as [|a l IH]; simpl; [reflexivity|].
  rewrite insert_perm; now constructor.
Qed.

End StableSort.

(** The head of a stable ascending sort is the first element of the input
    with the least key. *)
Lemma sorted_head_first {A : Type} (key : A -> nat) (l : list A) (h : A) (t : list A) :
  sorted key false l = h :: t ->
  exists l1 l2, l = l1 ++ h :: l2 /\
    (forall a, In a l1 -> key h < key a) /\ (forall a, In a l2 -> key h <= key a).
Proof.
  revert h t; induction l as [|b l IH]; simpl; intros h t E; [discriminate|].
  destruct (sorted key false l) as [|h' t'] eqn:Es.
  - simpl in E; injection E as <- <-.
    destruct l as [|c l].
    + exists [], []; repeat split; simpl; intros a [].
    + exfalso; assert (Hc : In c (sorted key false (c :: l))) by (apply sorted_In; now left).
      rewrite Es in Hc; exact Hc.
  - destruct (IH h' t' eq_refl) as (l1 & l2 & -> & H1 & H2).
    simpl in E; unfold goes_before in E.
    destruct (Nat.leb_spec (key b) (key h')); injection E as <- <-.
    + exists [], (l1 ++ h' :: l2); repeat split; [intros a [] |].
      intros a Ha; apply in_app_iff in Ha; destruct Ha as [Ha | [<- | Ha]].
      * specialize (H1 a Ha); lia.
      * assumption.
      * specialize (H2 a Ha); lia.
    + exists (b :: l1), l2; repeat split; [|exact H2].
      intros a [<- | Ha]; [assumption | now apply H1].
Qed.

Lemma StronglySorted_app_r {A : Type} (R : A -> A -> Prop) (l1 l2 : list A) :
  StronglySorted R (l1 ++ l2) -> StronglySorted R l2.
Proof.
  induction l1 as [|a l1 IH]; simpl; intros H; [exact H|].
  inversion H; subst; auto.
Qed.

Lemma key_of_map (f : Var.t -> nat) (vs : list Var.t) (v : Var.t) :
  In v vs -> key_of (map (fun u => (u, f u)) vs) v = f v.
Proof.
  unfold key_of; induction vs as [|u vs IH]; simpl; intros H; [contradiction|].
  destruct (Var.eqb_spec v u); [now subst|].
  destruct H as [H | H]; [congruence | now apply IH].
Qed.

(** X16.  [select_unassigned_variable] applies the two heuristics.  With
    every unassigned variable in [self.domains] and at least one variable
    unassigned, it returns an unassigned variable with the fewest words in
    its domain, and among the unassigned variables with as few words none
    has more neighbors. *)
Theorem X16_select_mrv_degree (self : CrosswordCreator) (a : Assignment)
    (Hdom : forall u, In u (unassigned self a) -> exists ws, dict_get (domains self) u = Ok ws)
    (Hne : unassigned self a <> []) :
  exists var ws, select_unassigned_variable self a = Ok var /\
    In var (variables (crossword self)) /\ ~ In var (keys a) /\
    dict_get (domains self) var = Ok ws /\
    forall u ws_u, In u (variables (crossword self)) -> ~ In u (keys a) ->
      dict_get (domains self) u = Ok ws_u ->
      List.length ws <= List.length ws_u /\
      (List.length ws_u = List.length ws ->
       List.length (neighbors (crossword self) u) <= List.length (neighbors (crossword self) var)).
Proof.
  unfold select_unassigned_variable; fold (unassigned self a).
  set (f := fun v => ws <- dict_get (domains self) v ;; Ok (List.length ws)).
  destruct (dict_build_defined f (unassigned self a)) as [num_vals Hb].
  { intros u Hu; destruct (Hdom u Hu) as [ws Hws]; exists (List.length ws); unfold f; now rewrite Hws. }
  rewrite Hb; simpl.
  assert (Hkey : forall u ws_u, In u (unassigned self a) -> dict_get (domains self) u = Ok ws_u ->
                   key_of num_vals u = List.length ws_u).
  { intros u ws_u Hu Hg; unfold key_of; rewrite (dict_build_get f _ _ Hb u Hu); unfold f; now rewrite Hg. }
  set (degf := fun v => List.length (neighbors (crossword self) v)).
  set (deg := map (fun v => (v, List.length (neighbors (crossword self) v))) (unassigned self a)).
  set (L := sorted (key_of deg) true (unassigned self a)).
  assert (HL : forall u, In u L <-> In u (unassigned self a)) by (intros u; apply sorted_In).
  destruct (sorted (key_of num_vals) false L) as [|h t] eqn:Es.
  - exfalso; destruct (unassigned self a) as [|u l] eqn:Eu; [congruence|].
    assert (Hin : In u (sorted (key_of num_vals) false L)) by (apply sorted_In, HL; now left).
    rewrite Es in Hin; contradiction.
  - destruct (sorted_head_first _ _ _ _ Es) as (l1 & l2 & EL & H1 & H2).
    assert (Hh : In h (unassigned self a)) by (apply HL; rewrite EL; apply in_app_iff; right; now left).
    destruct (Hdom h Hh) as [ws Hws]; exists h, ws.
    pose proof Hh as Hh'; apply unassigned_In in Hh'; destruct Hh' as [Hhv Hhk].
    repeat split; auto.
    + intros; assert (Hu : In u (unassigned self a)) by (apply unassigned_In; auto).
      rewrite <- (Hkey h ws Hh Hws), <- (Hkey u ws_u Hu H3).
      apply HL in Hu; rewrite EL in Hu; apply in_app_iff in Hu.
      destruct Hu as [Hu | [<- | Hu]]; [specialize (H1 u Hu); lia | lia | exact (H2 u Hu)].
    + intros Hlen; assert (Hu : In u (unassigned self a)) by (apply unassigned_In; auto).
      pose proof (sorted_ordered (key_of deg) true (unassigned self a)) as HS.
      fold L in HS; rewrite EL in HS; apply StronglySorted_app_r in HS.
      inversion HS as [|h0 l0 _ Hall]; subst.
      pose proof Hu as HuL; apply HL in HuL; rewrite EL in HuL; apply in_app_iff in HuL.
      destruct HuL as [HuL | [<- | HuL]]; [| lia |].
      * specialize (H1 u HuL).
        rewrite (Hkey h ws Hh Hws), (Hkey u ws_u Hu H3) in H1; lia.
      * rewrite Forall_forall in Hall; specialize (Hall u HuL).
        unfold in_order, goes_before in Hall; apply Nat.leb_le in Hall.
        unfold deg in Hall; rewrite !key_of_map in Hall by assumption; exact Hall.
Qed.

Lemma X16_select_mrv_degree_witness :
  let self := set_domains (init (Examples.cross []))
                [(Examples.vA, ["CAT"; "DOG"]%string); (Examples.vB, ["EAR"]%string)] in
  (forall u, In u (unassigned self []) -> exists ws, dict_get (domains self) u = Ok ws) /\
  unassigned self [] <> [] /\
  exists var ws, select_unassigned_variable self [] = Ok var /\
    In var (variables (crossword self)) /\ ~ In var (keys (@nil (Var.t * Word))) /\
    dict_get (domains self) var = Ok ws /\
    forall u ws_u, In u (variables (crossword self)) -> ~ In u (keys (@nil (Var.t * Word))) ->
      dict_get (domains self) u = Ok ws_u ->
      List.length ws <= List.length ws_u /\
      (List.length ws_u = List.length ws ->
       List.length (neighbors (crossword self) u) <= List.length (neighbors (crossword self) var)).
Proof.
  cbv zeta.
  assert (Hd : forall u,
            In u (unassigned (set_domains (init (Examples.cross []))
                    [(Examples.vA, ["CAT"; "DOG"]%string); (Examples.vB, ["EAR"]%string)]) []) ->
            exists ws, dict_get (domains (set_domains (init (Examples.cross []))
                    [(Examples.vA, ["CAT"; "DOG"]%string); (Examples.vB, ["EAR"]%string)])) u = Ok ws).
  { intros u [<- | [<- | []]]; eexists; reflexivity. }
  split; [exact Hd | split; [discriminate|]].
  apply (X16_select_mrv_degree
           (set_domains (init (Examples.cross []))
              [(Examples.vA, ["CAT"; "DOG"]%string); (Examples.vB, ["EAR"]%string)]) []);
    [exact Hd | discriminate].
Defined.

(** X17.  [select_unassigned_variable] has nothing to return when every
    variable is assigned: on a complete assignment it raises [IndexError]
    (the first element of an empty list). *)
Theorem X17_select_on_complete (self : CrosswordCreator) (a : Assignment)
    (Hcomplete : assignment_complete self a = true) :
  select_unassigned_variable self a = Raise IndexError.
Proof.
  unfold assignment_complete in Hcomplete; unfold select_unassigned_variable.
  destruct (set_diff Var.eqb (variables (crossword self)) (keys a)); [reflexivity | discriminate].
Qed.

Lemma X17_select_on_complete_witness :
  assignment_complete (init (Examples.cross ["CAT"; "EAR"]%string))
    [(Examples.vA, "CAT"%string); (Examples.vB, "EAR"%string)] = true /\
  select_unassigned_variable (init (Examples.cross ["CAT"; "EAR"]%string))
    [(Examples.vA, "CAT"%string); (Examples.vB, "EAR"%string)] = Raise IndexError.
Proof.
  split; [reflexivity|].
  apply (X17_select_on_complete (init (Examples.cross ["CAT"; "EAR"]%string))); reflexivity.
Defined.

Lemma count_conflicts_Ok (w : Word) (x y : nat) (ns : list Word) (acc n : nat) :
  count_conflicts w x y ns acc = Ok n -> n = acc + List.length (filter (differ x y w) ns).
Proof.
  revert acc; induction ns as [|nw ns IH]; simpl; intros acc H; [injection H as <-; lia|].
  unfold index in H; unfold differ at 1.
  destruct (String.get x w) as [c1|]; simpl in H; [|discriminate].
  destruct (String.get y nw) as [c2|]; simpl in H; [|discriminate].
  apply IH in H; simpl; destruct (Ascii.eqb c1 c2); simpl in *; lia.
Qed.

Lemma ruled_out_word_Ok (self : CrosswordCreator) (var : Var.t) (w : Word)
    (nb : list Var.t) (acc n : nat) :
  ruled_out_word self var w nb acc = Ok n ->
  n = acc + list_sum (map (conflicts_with self var w) nb).
Proof.
  revert acc; induction nb as [|nvar nb IH]; simpl; intros acc H; [injection H as <-; lia|].
  destruct (overlaps_outcome (crossword self) var nvar) as [[Ho _] | Ho]; rewrite Ho in H;
    simpl in H; [|discriminate].
  unfold conflicts_with at 1.
  destruct (overlap_map (crossword self) var nvar) as [[x y]|]; [|discriminate].
  destruct (dict_get (domains self) nvar) as [ns| |]; simpl in H; try discriminate.
  destruct (count_conflicts w x y ns acc) as [acc'| |] eqn:Hc; simpl in H; try discriminate.
  apply count_conflicts_Ok in Hc; apply IH in H; lia.
Qed.

Lemma ruled_out_all_Ok (self : CrosswordCreator) (var : Var.t) (ws : list Word)
    (nb : list Var.t) (r : list (Word * nat)) :
  ruled_out_all self var ws nb = Ok r ->
  r = map (fun w => (w, list_sum (map (conflicts_with self var w) nb))) ws.
Proof.
  revert r; induction ws as [|w ws IH]; simpl; intros r H; [now injection H as <-|].
  destruct (ruled_out_word self var w nb 0) as [n| |] eqn:Hw; simpl in H; try discriminate.
  destruct (ruled_out_all self var ws nb) as [t| |]; simpl in H; try discriminate.
  injection H as <-; apply ruled_out_word_Ok in Hw; simpl in Hw; subst n.
  now rewrite (IH t eq_refl).
Qed.

Lemma StronglySorted_map_in {A B : Type} (R1 : A -> A -> Prop) (R2 : B -> B -> Prop)
    (g : A -> B) (l : list A) :
  (forall p q, In p l -> In q l -> R1 p q -> R2 (g p) (g q)) ->
  StronglySorted R1 l -> StronglySorted R2 (map g l).
Proof.
  induction l as [|a l IH]; simpl; intros Hg H; [constructor|].
  inversion H as [|a' l' Hl Ha]; subst; constructor.
  - apply IH; auto.
  - apply Forall_forall; intros b Hb; apply in_map_iff in Hb; destruct Hb as [q [<- Hq]].
    rewrite Forall_forall in Ha; auto.
Qed.

(** X18.  [order_domain_values] returns every word of the domain of [var]
    exactly once, least constraining first: the words come in ascending
    order of the number of words they rule out, counted over the domains
    of the neighbors of [var] that are not assigned. *)
Theorem X18_order_domain_values_lcv (self : CrosswordCreator) (var : Var.t) (a : Assignment)
    (values : list Word) (H : order_domain_values self var a = Ok values) :
  exists ws, dict_get (domains self) var = Ok ws /\
    Permutation values ws /\
    StronglySorted (fun w1 w2 => conflicts self var a w1 <= conflicts self var a w2) values.
Proof.
  unfold order_domain_values in H.
  destruct (dict_get (domains self) var) as [ws| |]; simpl in H; try discriminate.
  destruct (ruled_out_all self var ws _) as [r| |] eqn:Hr; simpl in H; try discriminate.
  injection H as <-; apply ruled_out_all_Ok in Hr.
  exists ws; split; [reflexivity|]; split.
  - rewrite (sorted_perm snd false r); subst r; rewrite map_map; simpl; now rewrite map_id.
  - apply StronglySorted_map_in with (R1 := in_order snd false); [|apply sorted_ordered].
    intros p q Hp Hq Hpq.
    pose proof (proj1 (sorted_In snd false p r) Hp) as Hp'.
    pose proof (proj1 (sorted_In snd false q r) Hq) as Hq'.
    rewrite Hr in Hp', Hq'.
    apply in_map_iff in Hp', Hq'; destruct Hp' as [w1 [<- _]], Hq' as [w2 [<- _]].
    unfold in_order, goes_before in Hpq; simpl in Hpq; apply Nat.leb_le in Hpq; exact Hpq.
Qed.

Lemma X18_order_domain_values_lcv_witness :
  let self := init (Examples.cross ["CAT"; "DOG"; "EAR"]%string) in
  order_domain_values self Examples.vA [] = Ok ["CAT"; "EAR"; "DOG"]%string /\
  exists ws, dict_get (domains self) Examples.vA = Ok ws /\
    Permutation ["CAT"; "EAR"; "DOG"]%string ws /\
    StronglySorted
      (fun w1 w2 => conflicts self Examples.vA [] w1 <= conflicts self Examples.vA [] w2)
      ["CAT"; "EAR"; "DOG"]%string.
Proof.
  cbv zeta; split; [vm_compute; reflexivity|].
  apply (X18_order_domain_values_lcv (init (Examples.cross ["CAT"; "DOG"; "EAR"]%string))).
  vm_compute; reflexivity.
Defined.

(** ** The recursion of the search *)

Lemma try_values_more_fuel (rec1 rec2 : CrosswordCreator -> Assignment -> search_result)
    (var : Var.t) :
  (forall s a, returns (snd (rec1 s a)) -> rec2 s a = rec1 s a) ->
  forall values s a, returns (snd (try_values rec1 var values s a)) ->
    try_values rec2 var values s a = try_values rec1 var values s a.
Proof.
  intros Hrec; induction values as [|value rest IH]; intros s a; simpl; [reflexivity|].
  destruct (consistent s (dict_set a var value)) as [[|]|e|]; try reflexivity.
  - intros Hr.
    assert (Hr1 : returns (snd (rec1 s (dict_set a var value)))).
    { intros E; apply Hr.
      destruct (rec1 s (dict_set a var value)) as [[s2 a2] r2]; simpl in E; subst r2; reflexivity. }
    rewrite (Hrec _ _ Hr1).
    destruct (rec1 s (dict_set a var value)) as [[s2 a2] [result|e|]]; try reflexivity.
    destruct (truthy result); [reflexivity|].
    destruct (dict_pop a2 var) as [a3|e|]; try reflexivity.
    apply IH; exact Hr.
  - intros Hr; destruct (dict_pop (dict_set a var value) var) as [a3|e|]; try reflexivity.
    apply IH; exact Hr.
Qed.

Lemma backtrack_fuel_more_fuel (fuel : nat) (s : CrosswordCreator) (a : Assignment) :
  returns (snd (backtrack_fuel fuel s a)) ->
  forall fuel', fuel <= fuel' -> backtrack_fuel fuel' s a = backtrack_fuel fuel s a.
Proof.
  revert s a; induction fuel as [|fuel IH]; intros s a Hr fuel' Hle.
  - exfalso; apply Hr; reflexivity.
  - destruct fuel' as [|fuel']; [lia|]; simpl in *.
    destruct (assignment_complete s a); [reflexivity|].
    destruct (select_unassigned_variable s a) as [var|e|]; try reflexivity.
    destruct (order_domain_values s var a) as [values|e|]; try reflexivity.
    apply try_values_more_fuel; [|exact Hr].
    intros s0 a0 H0; apply IH; [exact H0 | lia].
Qed.

(** X19.  The recursion of [backtrack] terminates.  Every recursive call
    is made with one more variable assigned, so the depth never exceeds
    the number of unassigned variables plus one: with that depth or any
    larger one the result is the result of [backtrack]. *)
Theorem X19_backtrack_terminates (self : CrosswordCreator) (a : Assignment) (fuel : nat)
    (Hfuel : List.length (unassigned self a) < fuel) :
  returns (snd (backtrack self a)) /\ backtrack_fuel fuel self a = backtrack self a.
Proof.
  split; [apply backtrack_returns|].
  unfold backtrack; apply backtrack_fuel_more_fuel; [apply backtrack_returns | lia].
Qed.

Lemma X19_backtrack_terminates_witness :
  List.length (unassigned (init (Examples.cross ["CAT"; "DOG"; "EAR"]%string)) []) < 7 /\
  returns (snd (backtrack (init (Examples.cross ["CAT"; "DOG"; "EAR"]%string)) [])) /\
  backtrack_fuel 7 (init (Examples.cross ["CAT"; "DOG"; "EAR"]%string)) []
    = backtrack (init (Examples.cross ["CAT"; "DOG"; "EAR"]%string)) [].
Proof.
  split; [vm_compute; lia|].
  apply (X19_backtrack_terminates (init (Examples.cross ["CAT"; "DOG"; "EAR"]%string)) [] 7).
  vm_compute; lia.
Defined.

(** X20.  An assignment returned by [backtrack] is the dictionary it was
    given, with bindings added at the end: the bindings of the partial
    assignment are kept, in their order, and every variable of the puzzle
    has a word.  A complete assignment is returned as it is, without a
    consistency check. *)
Theorem X20_backtrack_extends (self self' : CrosswordCreator) (a a' result : Assignment)
    (H : backtrack self a = (self', a', Ok (Some result))) :
  self' = self /\ result = a' /\
  (exists suffix, result = a ++ suffix) /\
  complete (crossword self) result /\
  (assignment_complete self a = true -> result = a).
Proof.
  pose proof (backtrack_fuel_post (S (List.length (unassigned self a))) self a) as P.
  unfold backtrack in H; rewrite H in P; simpl in P.
  destruct P as [-> [-> [[suffix ->] [_ [Hc _]]]]].
  repeat split; eauto.
  - apply complete_of_keys, assignment_complete_true, Hc.
  - intros Hca; simpl in H; rewrite Hca in H; now injection H as <-.
Qed.

Lemma X20_backtrack_extends_witness :
  let self := init (Examples.cross ["CAT"; "DOG"; "EAR"]%string) in
  let a := [(Examples.vB, "EAR"%string)] in
  let result := [(Examples.vB, "EAR"%string); (Examples.vA, "CAT"%string)] in
  backtrack self a = (self, result, Ok (Some result)) /\
  self = self /\ result = result /\
  (exists suffix, result = a ++ suffix) /\
  complete (crossword self) result /\
  (assignment_complete self a = true -> result = a).
Proof.
  cbv zeta; split; [vm_compute; reflexivity|].
  apply (X20_backtrack_extends (init (Examples.cross ["CAT"; "DOG"; "EAR"]%string))).
  vm_compute; reflexivity.
Defined.

(** X21.  [backtrack] is complete from every consistent partial
    assignment.  On a well-formed puzzle with node-consistent domains,
    called on distinct variables of the puzzle bound to words of their
    domains that satisfy the consistency predicate, it raises nothing; it
    returns a solution that extends the partial assignment when there is
    one, and [None], with the dictionary as it was, when there is none. *)
Theorem X21_backtrack_complete_from_partial (self : CrosswordCreator) (a : Assignment)
    (Hready : ready self) (Hpartial : partial self a) :
  exists a' r, backtrack self a = (self, a', Ok r) /\
    match r with
    | Some result => result = a' /\ solution self a' /\ incl a a'
    | None => a' = a /\ forall s, solution self s -> ~ incl a s
    end.
Proof.
  unfold backtrack; apply backtrack_fuel_complete; [exact Hready | exact Hpartial | lia].
Qed.

Lemma partial_vB_ear :
  partial (enforce_node_consistency (init (Examples.cross ["CAT"; "DOG"; "EAR"]%string)))
    [(Examples.vB, "EAR"%string)].
Proof.
  split; [split; [|split]|].
  - repeat constructor; simpl; tauto.
  - intros v [<- | []]; simpl; auto.
  - intros v w [E | []]; inversion E; subst; eexists; split; [reflexivity | simpl; auto].
  - apply (consistent_true (init (Examples.cross ["CAT"; "DOG"; "EAR"]%string))).
    vm_compute; reflexivity.
Qed.

Lemma X21_backtrack_complete_from_partial_witness :
  let self := enforce_node_consistency (init (Examples.cross ["CAT"; "DOG"; "EAR"]%string)) in
  let a := [(Examples.vB, "EAR"%string)] in
  ready self /\ partial self a /\
  exists a' r, backtrack self a = (self, a', Ok r) /\
    match r with
    | Some result => result = a' /\ solution self a' /\ incl a a'
    | None => a' = a /\ forall s, solution self s -> ~ incl a s
    end.
Proof.
  cbv zeta; split; [apply ready_cross | split; [apply partial_vB_ear|]].
  apply (X21_backtrack_complete_from_partial
           (enforce_node_consistency (init (Examples.cross ["CAT"; "DOG"; "EAR"]%string))));
    [apply ready_cross | apply partial_vB_ear].
Defined.

(** ** Where the words of a result come from *)

Lemma try_values_candidate (rec : CrosswordCreator -> Assignment -> search_result)
    (var : Var.t) (self : CrosswordCreator) (a : Assignment) (ws : list Word) :
  (forall s a0, search_post s a0 (rec s a0)) ->
  (forall a0, candidate_post self a0 (rec self a0)) ->
  In var (unassigned self a) -> dict_get (domains self) var = Ok ws ->
  forall values, incl values ws -> candidate_post self a (try_values rec var values self a).
Proof.
  intros Hpost Hcand Hu Hg.
  pose proof Hu as Hu'; apply unassigned_In in Hu'; destruct Hu' as [_ Hfresh].
  induction values as [|value rest IH]; intros Hvals; [exact I|]; simpl.
  assert (Hrest : candidate_post self a (try_values rec var rest self a))
    by (apply IH; intros w Hw; apply Hvals; now right).
  rewrite (dict_set_fresh a var value Hfresh).
  destruct (consistent self (a ++ [(var, value)])) as [[|]|e|]; try exact I.
  - pose proof (Hpost self (a ++ [(var, value)])) as P.
    pose proof (Hcand (a ++ [(var, value)])) as C.
    destruct (rec self (a ++ [(var, value)])) as [[self2 a2] [[result|]|e|]];
      simpl in P; try exact I.
    + destruct P as [-> [-> [[suffix ->] _]]].
      rewrite <- app_assoc; simpl; rewrite truthy_app.
      unfold candidate_post in *; simpl in *; intros Ha.
      rewrite <- app_assoc in C; simpl in C; apply C.
      eapply candidate_extend; eauto; apply Hvals; now left.
    + destruct P as [-> ->]; change (truthy None) with false; cbv iota.
      rewrite (dict_pop_last a var value Hfresh); exact Hrest.
  - rewrite (dict_pop_last a var value Hfresh); exact Hrest.
Qed.

Lemma backtrack_fuel_candidate (fuel : nat) (self : CrosswordCreator) (a : Assignment) :
  candidate_post self a (backtrack_fuel fuel self a).
Proof.
  revert a; induction fuel as [|fuel IH]; intros a; simpl; [exact I|].
  destruct (assignment_complete self a); [unfold candidate_post; simpl; auto|].
  destruct (select_unassigned_variable self a) as [var|e|] eqn:Hsel; try exact I.
  destruct (order_domain_values self var a) as [values|e|] eqn:Hv; try exact I.
  destruct (order_domain_values_Ok self var a values Hv) as [ws [Hg Hin]].
  apply select_unassigned_variable_In in Hsel.
  apply try_values_candidate with (ws := ws); auto.
  - intros s a0; apply backtrack_fuel_post.
  - now apply unassigned_In.
  - intros w Hw; now apply Hin.
Qed.

(** X22.  An assignment returned by [solve] binds each variable of the
    puzzle once and nothing else, and every word in it is a word of the
    domain its variable had when [solve] was called; on a fresh solver,
    a word of the word list. *)
Theorem X22_solve_words_from_domains (pick : list Arc -> nat) (self self' : CrosswordCreator)
    (log : list call) (a : Assignment)
    (H : solve pick self = (self', log, Ok (Some a))) :
  NoDup (keys a) /\
  (forall v, In v (keys a) <-> In v (variables (crossword self))) /\
  (forall v w, In (v, w) a -> exists ws, dict_get (domains self) v = Ok ws /\ In w ws) /\
  (forall cw, self = init cw -> forall v w, In (v, w) a -> In w (words cw)).
Proof.
  unfold solve in H.
  pose proof (ac3_pruned pick (enforce_node_consistency self) None) as Hp2.
  pose proof (pruned_trans _ _ _ (enforce_node_consistency_pruned self) Hp2) as [Hcw Hsh].
  destruct (ac3 pick (enforce_node_consistency self) None) as [self2 [b|e|]]; try discriminate.
  simpl in Hcw, Hsh.
  pose proof (backtrack_fuel_candidate (S (List.length (unassigned self2 []))) self2 []) as C.
  pose proof (backtrack_fuel_post (S (List.length (unassigned self2 []))) self2 []) as P.
  unfold backtrack in H.
  destruct (backtrack_fuel _ self2 []) as [[self3 a3] r3]; injection H as -> _ ->.
  unfold candidate_post in C; simpl in C, P.
  destruct P as [_ [-> [_ [_ [Hcomp _]]]]].
  destruct C as [Hnd [Hk Hd]].
  { split; [constructor | split; [intros v [] | intros v w []]]. }
  rewrite assignment_complete_true in Hcomp; rewrite Hcw in Hk, Hcomp.
  assert (Hdrawn : forall v w, In (v, w) a3 ->
            exists ws, dict_get (domains self) v = Ok ws /\ In w ws).
  { intros v w Hin; destruct (Hd v w Hin) as [ws' [Hg' Hw']].
    destruct (proj2 (shrinks_never_grows _ _ Hsh) v ws' Hg') as [ws [Hg Hi]]; eauto. }
  split; [exact Hnd | split; [|split; [exact Hdrawn|]]].
  - intros v; split; [apply Hk | apply Hcomp].
  - intros cw -> v w Hin; destruct (Hdrawn v w Hin) as [ws [Hg Hw]].
    rewrite init_get in Hg; destruct (mem Var.eqb v (variables cw)); [|discriminate].
    now injection Hg as <-.
Qed.

Lemma X22_solve_words_from_domains_witness :
  let self := init (Examples.cross ["CAT"; "DOG"; "TOE"; "EAR"; "A"]%string) in
  let a := [(Examples.vA, "CAT"%string); (Examples.vB, "EAR"%string)] in
  solve Examples.first_arc self
    = (fst (fst (solve Examples.first_arc self)), snd (fst (solve Examples.first_arc self)),
       Ok (Some a)) /\
  NoDup (keys a) /\
  (forall v, In v (keys a) <-> In v (variables (crossword self))) /\
  (forall v w, In (v, w) a -> exists ws, dict_get (domains self) v = Ok ws /\ In w ws) /\
  (forall cw, self = init cw -> forall v w, In (v, w) a -> In w (words cw)).
Proof.
  cbv zeta; split; [vm_compute; reflexivity|].
  apply (X22_solve_words_from_domains Examples.first_arc
           (init (Examples.cross ["CAT"; "DOG"; "TOE"; "EAR"; "A"]%string))
           (fst (fst (solve Examples.first_arc
                        (init (Examples.cross ["CAT"; "DOG"; "TOE"; "EAR"; "A"]%string)))))
           (snd (fst (solve Examples.first_arc
                        (init (Examples.cross ["CAT"; "DOG"; "TOE"; "EAR"; "A"]%string)))))).
  vm_compute; reflexivity.
Defined.

(** ** The letter grid *)

Lemma list_set_Ok {A : Type} (l : list A) (n : nat) (a : A) (l' : list A) :
  list_set l n a = Ok l' ->
  n < List.length l /\ List.length l' = List.length l /\
  nth_error l' n = Some a /\ forall m, m <> n -> nth_error l' m = nth_error l m.
Proof.
  revert n l'; induction l as [|b l IH]; intros n l'; simpl; [destruct n; discriminate|].
  destruct n as [|n].
  - intros H; injection H as <-; simpl; repeat split; [lia|].
    intros [|m] Hm; [congruence | reflexivity].
  - destruct (list_set l n a) as [l0| |] eqn:E; simpl; try discriminate.
    intros H; injection H as <-.
    destruct (IH n l0 E) as (H1 & H2 & H3 & H4); simpl; repeat split; try lia; auto.
    intros [|m] Hm; simpl; [reflexivity | apply H4; congruence].
Qed.

Lemma list_set_outcome {A : Type} (l : list A) (n : nat) (a : A) :
  (n < List.length l /\ exists l', list_set l n a = Ok l') \/
  (List.length l <= n /\ list_set l n a = Raise IndexError).
Proof.
  revert n; induction l as [|b l IH]; intros n; simpl.
  - right; split; [lia | destruct n; reflexivity].
  - destruct n as [|n]; [left; split; [lia | eauto]|].
    destruct (IH n) as [[H [l' ->]] | [H ->]]; simpl; [left | right]; split; eauto; lia.
Qed.

Lemma list_get_outcome {A : Type} (l : list A) (n : nat) :
  (n < List.length l /\ exists a, list_get l n = Ok a /\ nth_error l n = Some a) \/
  (List.length l <= n /\ list_get l n = Raise IndexError).
Proof.
  unfold list_get; destruct (nth_error l n) as [a|] eqn:E.
  - left; split; [apply nth_error_Some; congruence | eauto].
  - right; split; [now apply nth_error_None | reflexivity].
Qed.

Lemma shaped_row (h w : nat) (g : Grid) (i : nat) (row : list (option ascii)) :
  shaped h w g -> nth_error g i = Some row -> List.length row = w.
Proof.
  intros [_ Hrows] Hi; rewrite Forall_forall in Hrows; apply Hrows.
  eapply nth_error_In; eassumption.
Qed.

Lemma grid_set_outcome (h w : nat) (g : Grid) (i j : nat) (c : ascii) :
  shaped h w g ->
  (i < h /\ j < w /\ exists g', grid_set g i j c = Ok g' /\ shaped h w g' /\
     forall i' j', cell g' i' j' = if (i' =? i) && (j' =? j) then Some c else cell g i' j') \/
  (~ (i < h /\ j < w) /\ grid_set g i j c = Raise IndexError).
Proof.
  intros Hs; pose proof Hs as [Hlen Hrows]; unfold grid_set.
  destruct (list_get_outcome g i) as [[Hi [row [-> Hrow]]] | [Hi ->]]; simpl;
    [|right; split; [lia | reflexivity]].
  pose proof (shaped_row h w g i row Hs Hrow) as Hw.
  destruct (list_set_outcome row j (Some c)) as [[Hj [row' Er]] | [Hj ->]]; simpl;
    [|right; split; [lia | reflexivity]].
  rewrite Er; simpl.
  destruct (list_set_outcome g i row') as [[_ [g' Eg]] | [Hi' _]]; [|lia].
  left; split; [lia | split; [lia|]]; exists g'; split; [exact Eg|].
  destruct (list_set_Ok _ _ _ _ Er) as (_ & Hl1 & Hn1 & Ho1).
  destruct (list_set_Ok _ _ _ _ Eg) as (_ & Hl2 & Hn2 & Ho2).
  split.
  - split; [lia|]; apply Forall_forall; intros r Hr.
    apply In_nth_error in Hr; destruct Hr as [m Hm].
    destruct (Nat.eq_dec m i) as [->|Hne].
    + rewrite Hn2 in Hm; injection Hm as <-; lia.
    + rewrite (Ho2 m Hne) in Hm; eapply shaped_row; eassumption.
  - intros i' j'; unfold cell.
    destruct (Nat.eqb_spec i' i) as [->|Hne]; simpl.
    + rewrite Hn2, Hrow.
      destruct (Nat.eqb_spec j' j) as [->|Hnj]; [now rewrite Hn1 | now rewrite (Ho1 j' Hnj)].
    + now rewrite (Ho2 i' Hne).
Qed.

Lemma write_word_outcome (h w : nat) (variable : Var.t) (word : Word) (ks : list nat) (g : Grid) :
  shaped h w g -> (forall k, In k ks -> k < len word) ->
  ((forall k, In k ks -> cell_row variable k < h /\ cell_col variable k < w) /\
   exists g', write_word variable word ks g = Ok g' /\ shaped h w g' /\
     (forall k, In k ks -> cell g' (cell_row variable k) (cell_col variable k) <> None) /\
     (forall i j, cell g' i j = cell g i j \/
        exists k c, In k ks /\ String.get k word = Some c /\
          i = cell_row variable k /\ j = cell_col variable k /\ cell g' i j = Some c)) \/
  ((exists k, In k ks /\ ~ (cell_row variable k < h /\ cell_col variable k < w)) /\
   write_word variable word ks g = Raise IndexError).
Proof.
  revert g; induction ks as [|k ks IH]; intros g Hs Hk; simpl.
  - left; split; [intros k []|]; exists g.
    split; [reflexivity | split; [exact Hs | split; [intros k [] | intros i j; now left]]].
  - destruct (index_in_bounds word k (Hk k (or_introl eq_refl))) as [c Hc]; rewrite Hc; simpl.
    apply index_Ok in Hc.
    destruct (grid_set_outcome h w g (cell_row variable k) (cell_col variable k) c Hs)
      as [(Hi & Hj & g1 & -> & Hs1 & Hcell) | [Hout ->]]; simpl;
      [|right; split; [exists k; split; [now left | exact Hout] | reflexivity]].
    destruct (IH g1 Hs1 (fun k' H' => Hk k' (or_intror H')))
      as [(Hin & g' & -> & Hs' & Hwr & Hch) | [(k' & Hk' & Hout) ->]];
      [|right; split; [exists k'; split; [now right | exact Hout] | reflexivity]].
    left; split; [intros k' [<- | H']; auto|].
    exists g'; split; [reflexivity | split; [exact Hs' | split]].
    + intros k' [<- | H']; [|now apply Hwr].
      destruct (Hch (cell_row variable k) (cell_col variable k)) as [E | (k2 & c2 & _ & _ & _ & _ & E)];
        rewrite E; [|discriminate].
      rewrite Hcell, !Nat.eqb_refl; discriminate.
    + intros i j; destruct (Hch i j) as [E | (k2 & c2 & H2 & G2 & Ei & Ej & E)].
      * rewrite E, Hcell.
        destruct (Nat.eqb_spec i (cell_row variable k)) as [Ei|Ei]; simpl; [|now left].
        destruct (Nat.eqb_spec j (cell_col variable k)) as [Ej|Ej]; simpl; [|now left].
        right; exists k, c; repeat split; auto.
      * right; exists k2, c2; repeat split; auto.
Qed.

Lemma write_words_outcome (h w : nat) (items : Assignment) (g : Grid) :
  shaped h w g ->
  (fits_grid h w items /\
   exists g', write_words items g = Ok g' /\ shaped h w g' /\
     (forall variable word k, In (variable, word) items -> k < len word ->
        cell g' (cell_row variable k) (cell_col variable k) <> None) /\
     (forall i j, cell g' i j = cell g i j \/
        exists variable word k c, In (variable, word) items /\ String.get k word = Some c /\
          i = cell_row variable k /\ j = cell_col variable k /\ cell g' i j = Some c)) \/
  (~ fits_grid h w items /\ write_words items g = Raise IndexError).
Proof.
  revert g; induction items as [|[variable word] items IH]; intros g Hs; simpl.
  - left; split; [intros v wd k []|]; exists g.
    split; [reflexivity | split; [exact Hs | split; [intros v wd k [] | intros i j; now left]]].
  - assert (Hseq : forall k, In k (seq 0 (len word)) <-> k < len word)
      by (intros k; rewrite in_seq; lia).
    destruct (write_word_outcome h w variable word (seq 0 (len word)) g Hs
                (fun k H => proj1 (Hseq k) H))
      as [(Hin & g1 & -> & Hs1 & Hwr & Hch) | [(k & Hk & Hout) ->]]; simpl.
    + destruct (IH g1 Hs1) as [(Hfit & g' & -> & Hs' & Hwr' & Hch') | [Hnfit ->]].
      * left; split.
        { intros v wd k [E | Hin'] Hk; [injection E as <- <-; apply Hin, Hseq, Hk|].
          exact (Hfit v wd k Hin' Hk). }
        exists g'; split; [reflexivity | split; [exact Hs' | split]].
        { intros v wd k [E | Hin'] Hk; [injection E as <- <-|exact (Hwr' v wd k Hin' Hk)].
          destruct (Hch' (cell_row variable k) (cell_col variable k))
            as [E | (v2 & w2 & k2 & c2 & _ & _ & _ & _ & E)]; rewrite E; [|discriminate].
          apply Hwr, Hseq, Hk. }
        { intros i j; destruct (Hch' i j) as [E | (v2 & w2 & k2 & c2 & H2 & G2 & Ei & Ej & E)].
          - destruct (Hch i j) as [E1 | (k1 & c1 & H1 & G1 & Ei & Ej & E1)].
            + left; congruence.
            + right; exists variable, word, k1, c1; repeat split; auto; congruence.
          - right; exists v2, w2, k2, c2; repeat split; auto. }
      * right; split; [|reflexivity].
        intros Hfit; apply Hnfit; intros v wd k Hin'; apply Hfit; now right.
    + right; split; [|reflexivity].
      intros Hfit; apply Hout; apply (Hfit variable word k); [now left | now apply Hseq].
Qed.

Lemma shaped_blank (h w : nat) : shaped h w (repeat (repeat None w) h).
Proof.
  split; [apply repeat_length|].
  apply Forall_forall; intros row Hr; apply repeat_spec in Hr; subst; apply repeat_length.
Qed.

Lemma cell_blank (h w i j : nat) : cell (repeat (repeat None w) h) i j = None.
Proof.
  unfold cell; destruct (nth_error (repeat (repeat None w) h) i) as [row|] eqn:E; [|reflexivity].
  apply nth_error_In, repeat_spec in E; subst row.
  destruct (nth_error (repeat None w) j) as [x|] eqn:E; [|reflexivity].
  now apply nth_error_In, repeat_spec in E.
Qed.

(** X23.  [letter_grid] returns a grid exactly when every cell of every
    word of the assignment lies on the grid of [height] rows and [width]
    columns; when a word runs off the grid it raises [IndexError]. *)
Theorem X23_letter_grid_bounds (height width : nat) (a : Assignment) :
  ((exists letters, letter_grid height width a = Ok letters) <-> fits_grid height width a) /\
  (~ fits_grid height width a -> letter_grid height width a = Raise IndexError).
Proof.
  unfold letter_grid.
  destruct (write_words_outcome height width a _ (shaped_blank height width))
    as [(Hfit & g & E & _) | [Hn E]]; rewrite E.
  - split; [split; eauto | intros Hn; contradiction].
  - split; [split; [intros [g Hg]; discriminate | intros Hfit; contradiction] | reflexivity].
Qed.

Lemma letter_grid_cells (height width : nat) (a : Assignment) (letters : Grid) :
  letter_grid height width a = Ok letters ->
  shaped height width letters /\
  (forall i j c, cell letters i j = Some c ->
     exists variable word k, In (variable, word) a /\ String.get k word = Some c /\
       i = cell_row variable k /\ j = cell_col variable k) /\
  (forall variable word k, In (variable, word) a -> k < len word ->
     cell letters (cell_row variable k) (cell_col variable k) <> None) /\
  (agree a ->
   forall variable word k c, In (variable, word) a -> String.get k word = Some c ->
     cell letters (cell_row variable k) (cell_col variable k) = Some c).
Proof.
  intros H; unfold letter_grid in H.
  destruct (write_words_outcome height width a _ (shaped_blank height width))
    as [(Hfit & g & E & Hs & Hwr & Hch) | [_ E]]; rewrite E in H; [|discriminate].
  injection H as <-.
  assert (Hfrom : forall i j c, cell g i j = Some c ->
            exists variable word k, In (variable, word) a /\ String.get k word = Some c /\
              i = cell_row variable k /\ j = cell_col variable k).
  { intros i j c Hc; destruct (Hch i j) as [E0 | (v & wd & k & c' & Hin & G & Ei & Ej & E0)].
    - rewrite E0, cell_blank in Hc; discriminate.
    - rewrite E0 in Hc; injection Hc as <-; exists v, wd, k; auto. }
  repeat split; try (apply Hs); auto.
  intros Hagree v wd k c Hin G.
  pose proof (Hwr v wd k Hin (get_Some_inv _ _ _ G)) as Hnn.
  destruct (cell g (cell_row v k) (cell_col v k)) as [c'|] eqn:Ec; [|congruence].
  destruct (Hfrom _ _ _ Ec) as (v2 & w2 & k2 & Hin2 & G2 & Ei & Ej).
  f_equal; symmetry; exact (Hagree v wd k c v2 w2 k2 c' Hin Hin2 G G2 Ei Ej).
Qed.

(** X24.  The grid returned by [letter_grid] has [height] rows of [width]
    cells.  A cell that holds a letter holds a letter that some word of
    the assignment puts there, a cell reached by a word is never left
    [None], and when the words that reach a same cell agree on its letter
    every word can be read back from the grid. *)
Theorem X24_letter_grid_cells (height width : nat) (a : Assignment) (letters : Grid)
    (H : letter_grid height width a = Ok letters) :
  shaped height width letters /\
  (forall i j c, cell letters i j = Some c ->
     exists variable word k, In (variable, word) a /\ String.get k word = Some c /\
       i = cell_row variable k /\ j = cell_col variable k) /\
  (forall variable word k, In (variable, word) a -> k < len word ->
     cell letters (cell_row variable k) (cell_col variable k) <> None) /\
  (agree a ->
   forall variable word k c, In (variable, word) a -> String.get k word = Some c ->
     cell letters (cell_row variable k) (cell_col variable k) = Some c).
Proof.
  destruct (letter_grid_cells height width a letters H) as (Hshape & Hfrom & Hcovered & Hback).
  split; [exact Hshape | split; [exact Hfrom | split; [exact Hcovered | exact Hback]]].
Qed.

Lemma X24_letter_grid_cells_witness :
  let a := [(Examples.vA, "CAT"%string); (Examples.vB, "EAR"%string)] in
  let letters := [[None; Some "E"%char; None];
                  [Some "C"%char; Some "A"%char; Some "T"%char];
                  [None; Some "R"%char; None]] in
  letter_grid 3 3 a = Ok letters /\
  shaped 3 3 letters /\
  (forall i j c, cell letters i j = Some c ->
     exists variable word k, In (variable, word) a /\ String.get k word = Some c /\
       i = cell_row variable k /\ j = cell_col variable k) /\
  (forall variable word k, In (variable, word) a -> k < len word ->
     cell letters (cell_row variable k) (cell_col variable k) <> None) /\
  (agree a ->
   forall variable word k c, In (variable, word) a -> String.get k word = Some c ->
     cell letters (cell_row variable k) (cell_col variable k) = Some c).
Proof.
  cbv zeta; split; [reflexivity|].
  apply (X24_letter_grid_cells 3 3 [(Examples.vA, "CAT"%string); (Examples.vB, "EAR"%string)]).
  reflexivity.
Defined.

Lemma cell_injective (v : Var.t) (k1 k2 : nat) :
  cell_row v k1 = cell_row v k2 -> cell_col v k1 = cell_col v k2 -> k1 = k2.
Proof. unfold cell_row, cell_col; destruct (Var.direction v); lia. Qed.

Lemma consistent_agree (cw : Crossword) (a : Assignment) :
  geometric cw -> NoDup (keys a) -> incl (keys a) (variables cw) ->
  consistent_spec cw a -> agree a.
Proof.
  intros Hgeo Hnd Hk [_ [Hlen Hov]] v1 w1 k1 c1 v2 w2 k2 c2 H1 H2 G1 G2 Er Ec.
  destruct (Var.eq_dec v1 v2) as [->|Hne].
  - pose proof (dict_get_NoDup a v2 w1 Hnd H1) as E1.
    pose proof (dict_get_NoDup a v2 w2 Hnd H2) as E2.
    rewrite E1 in E2; injection E2 as <-.
    rewrite (cell_injective v2 k1 k2 Er Ec) in G1; congruence.
  - assert (Hv1 : In v1 (variables cw)) by (apply Hk, in_map_iff; exists (v1, w1); auto).
    assert (Hv2 : In v2 (variables cw)) by (apply Hk, in_map_iff; exists (v2, w2); auto).
    assert (L1 : k1 < Var.length v1)
      by (rewrite <- (Hlen v1 w1 H1); exact (get_Some_inv _ _ _ G1)).
    assert (L2 : k2 < Var.length v2)
      by (rewrite <- (Hlen v2 w2 H2); exact (get_Some_inv _ _ _ G2)).
    pose proof (Hgeo v1 v2 k1 k2 Hv1 Hv2 Hne L1 L2 Er Ec) as Ho.
    destruct (Hov v1 w1 v2 w2 k1 k2 H1 H2 Hne Ho) as [c [G1' G2']]; congruence.
Qed.

(** X25.  The grid of a consistent assignment shows every word in full.
    When the overlap map is the one of the geometry of the slots, the keys
    are distinct variables of the puzzle and the assignment satisfies the
    consistency predicate, each letter of each word is found in its cell
    of the grid returned by [letter_grid]: no word overwrites a letter of
    another. *)
Theorem X25_consistent_words_read_back (cw : Crossword) (height width : nat)
    (a : Assignment) (letters : Grid)
    (Hgeo : geometric cw) (Hnd : NoDup (keys a)) (Hk : incl (keys a) (variables cw))
    (Hc : consistent_spec cw a)
    (H : letter_grid height width a = Ok letters) :
  forall variable word k c, In (variable, word) a -> String.get k word = Some c ->
    cell letters (cell_row variable k) (cell_col variable k) = Some c.
Proof.
  apply (proj2 (proj2 (proj2 (letter_grid_cells height width a letters H)))).
  exact (consistent_agree cw a Hgeo Hnd Hk Hc).
Qed.

Lemma cross_geometric (ws : list Word) : geometric (Examples.cross ws).
Proof.
  intros x y kx ky Hx Hy Hne Lx Ly Er Ec; simpl in Hx, Hy.
  destruct Hx as [<- | [<- | []]], Hy as [<- | [<- | []]]; try congruence;
    unfold cell_row, cell_col in Er, Ec; simpl in Er, Ec;
    assert (kx = 1) by lia; assert (ky = 1) by lia; subst; reflexivity.
Qed.

Lemma X25_consistent_words_read_back_witness :
  let cw := Examples.cross ["CAT"; "EAR"]%string in
  let a := [(Examples.vA, "CAT"%string); (Examples.vB, "EAR"%string)] in
  let letters := [[None; Some "E"%char; None];
                  [Some "C"%char; Some "A"%char; Some "T"%char];
                  [None; Some "R"%char; None]] in
  geometric cw /\ NoDup (keys a) /\ incl (keys a) (variables cw) /\
  consistent_spec cw a /\ letter_grid 3 3 a = Ok letters /\
  forall variable word k c, In (variable, word) a -> String.get k word = Some c ->
    cell letters (cell_row variable k) (cell_col variable k) = Some c.
Proof.
  cbv zeta.
  assert (Hnd : NoDup (keys [(Examples.vA, "CAT"%string); (Examples.vB, "EAR"%string)]))
    by (repeat constructor; simpl; intuition discriminate).
  assert (Hk : incl (keys [(Examples.vA, "CAT"%string); (Examples.vB, "EAR"%string)])
                 (variables (Examples.cross ["CAT"; "EAR"]%string)))
    by (intros v Hv; exact Hv).
  assert (Hc : consistent_spec (Examples.cross ["CAT"; "EAR"]%string)
                 [(Examples.vA, "CAT"%string); (Examples.vB, "EAR"%string)]).
  { apply (consistent_true (init (Examples.cross ["CAT"; "EAR"]%string))); vm_compute; reflexivity. }
  split; [apply cross_geometric | split; [exact Hnd | split; [exact Hk | split; [exact Hc|]]]].
  split; [reflexivity|].
  exact (X25_consistent_words_read_back (Examples.cross ["CAT"; "EAR"]%string) 3 3 _ _
           (cross_geometric _) Hnd Hk Hc eq_refl).
Defined.

(** ** Printing *)

Lemma print_cells_closed (h w : nat) (structure : list (list bool)) (letters : Grid) (i : nat) :
  structure_shaped h w structure -> shaped h w letters -> i < h ->
  forall js out, (forall j, In j js -> j < w) ->
    print_cells structure letters i js out
    = (out ++ map (glyph_at structure letters i) js, Ok tt).
Proof.
  intros [Hsl Hsr] Hg Hi; pose proof Hg as [Hgl _].
  destruct (nth_error structure i) as [srow|] eqn:Es;
    [|apply nth_error_None in Es; lia].
  destruct (nth_error letters i) as [lrow|] eqn:El;
    [|apply nth_error_None in El; lia].
  assert (Hsw : List.length srow = w)
    by (rewrite Forall_forall in Hsr; apply Hsr; eapply nth_error_In; eassumption).
  pose proof (shaped_row h w letters i lrow Hg El) as Hlw.
  induction js as [|j js IH]; intros out Hjs; simpl; [now rewrite app_nil_r|].
  assert (Hj : j < w) by (apply Hjs; now left).
  unfold list_get at 1 2, glyph_at at 1, cell; rewrite Es, El; simpl.
  destruct (nth_error srow j) as [b|] eqn:Eb; [|apply nth_error_None in Eb; lia].
  simpl; destruct b.
  - unfold list_get; rewrite El; simpl.
    destruct (nth_error lrow j) as [x|] eqn:Ex; [|apply nth_error_None in Ex; lia].
    destruct x as [c|]; rewrite IH by (intros j' Hj'; apply Hjs; now right);
      now rewrite <- app_assoc.
  - rewrite IH by (intros j' Hj'; apply Hjs; now right); now rewrite <- app_assoc.
Qed.

Lemma print_rows_closed (h w : nat) (structure : list (list bool)) (letters : Grid) :
  structure_shaped h w structure -> shaped h w letters ->
  forall rows out, (forall i, In i rows -> i < h) ->
    print_rows structure letters w rows out
    = (out ++ flat_map (fun i => map (glyph_at structure letters i) (seq 0 w) ++ [Newline]) rows,
       Ok tt).
Proof.
  intros Hst Hg; induction rows as [|i rows IH]; intros out Hrows; simpl;
    [now rewrite app_nil_r|].
  rewrite (print_cells_closed h w structure letters i Hst Hg (Hrows i (or_introl eq_refl)))
    by (intros j Hj; apply in_seq in Hj; lia).
  rewrite IH by (intros i' Hi'; apply Hrows; now right).
  now rewrite <- !app_assoc.
Qed.

(** X26.  [print] on a structure of [height] rows and [width] columns.
    When every word lies on the grid it raises nothing and writes
    [height] lines of [width] characters: the block character where the
    structure is closed, whatever the assignment holds there, and
    elsewhere the letter of the grid or a space.  When a word runs off
    the grid it raises [IndexError] before it has written anything. *)
Theorem X26_print_output (height width : nat) (structure : list (list bool)) (a : Assignment)
    (Hst : structure_shaped height width structure) :
  (fits_grid height width a ->
   exists letters, letter_grid height width a = Ok letters /\
     print height width structure a
     = (flat_map (fun i => map (glyph_at structure letters i) (seq 0 width) ++ [Newline])
          (seq 0 height), Ok tt)) /\
  (~ fits_grid height width a -> print height width structure a = ([], Raise IndexError)).
Proof.
  unfold print, letter_grid.
  destruct (write_words_outcome height width a _ (shaped_blank height width))
    as [(Hfit & g & E & Hs & _) | [Hn E]]; rewrite E.
  - split; [intros _ | intros Hn; contradiction].
    exists g; split; [reflexivity|].
    rewrite (print_rows_closed height width structure g Hst Hs); [reflexivity|].
    intros i Hi; apply in_seq in Hi; lia.
  - split; [intros Hfit; contradiction | reflexivity].
Qed.

Lemma X26_print_output_witness :
  let structure := [[false; true; false]; [true; true; true]; [false; true; false]] in
  let a := [(Examples.vA, "CAT"%string); (Examples.vB, "EAR"%string)] in
  structure_shaped 3 3 structure /\
  (fits_grid 3 3 a ->
   exists letters, letter_grid 3 3 a = Ok letters /\
     print 3 3 structure a
     = (flat_map (fun i => map (glyph_at structure letters i) (seq 0 3) ++ [Newline])
          (seq 0 3), Ok tt)) /\
  (~ fits_grid 3 3 a -> print 3 3 structure a = ([], Raise IndexError)).
Proof.
  cbv zeta.
  assert (Hst : structure_shaped 3 3 [[false; true; false]; [true; true; true]; [false; true; false]])
    by (split; [reflexivity | repeat constructor]).
  split; [exact Hst|].
  exact (X26_print_output 3 3 _ [(Examples.vA, "CAT"%string); (Examples.vB, "EAR"%string)] Hst).
Defined.

Example print_cat_ear :
  print 3 3 [[false; true; false]; [true; true; true]; [false; true; false]]
    [(Examples.vA, "CAT"%string); (Examples.vB, "EAR"%string)]
  = ([Block; Letter "E"; Block; Newline;
      Letter "C"; Letter "A"; Letter "T"; Newline;
      Block; Letter "R"; Block; Newline], Ok tt).
Proof. reflexivity. Qed.
